(** * LLPE load forwarding: the memory-value abstraction

    A shallow embedding of parts of
    [lib/Analysis/Integrator/LoadForward.cpp] (the LLVM 3.2 port):
    alias resolution over value-sets, the partial-value assembler,
    constant decomposition and reconstruction, and the copy-on-write
    store (heap tree, stack-frame maps, block-local snapshots).

    Conventions.  C++ integers are [Z]; where the source computes in a
    fixed width the wrap-around is written out ([u64], [s64]).  Pointers
    are addresses ([addr]) into typed arenas; a null pointer is [None].
    A function that can abort (a failed assertion, a read through a
    pointer that was never allocated) returns an [option].  Calls into
    code that is declared outside this file (LLVM, the Integrator
    headers) are fields of the environment classes below.

    The first part of the file holds the definitions, the second part
    the lemmas and theorems. *)

From Stdlib Require Import ZArith Lia List Bool.
From stdpp Require Import gmap strings list fin_maps sorting.

Open Scope Z_scope.

(** * Part I: definitions *)

(** ** Machine integers *)

Definition u64 (z : Z) : Z := z mod 2 ^ 64.
Definition s64 (z : Z) : Z := (z + 2 ^ 63) mod 2 ^ 64 - 2 ^ 63.

Definition LLONG_MAX : Z := 2 ^ 63 - 1.
Definition ULONG_MAX : Z := 2 ^ 64 - 1.

Definition is_int64 (z : Z) : Prop := - 2 ^ 63 <= z < 2 ^ 63.
Definition is_uint64 (z : Z) : Prop := 0 <= z < 2 ^ 64.

(** ** Values and value-sets *)

Definition addr := nat.

(** [ShadowValue] is a tag and a pointer.  [Val] is the representation
    of the [Value*] held under [SHADOWVAL_OTHER] (a raw constant). *)
Inductive ShadowValue {Val : Type} : Type :=
| SHADOWVAL_INVAL
| SHADOWVAL_ARG (A : addr)
| SHADOWVAL_INST (I : addr)
| SHADOWVAL_GV (GV : addr)
| SHADOWVAL_OTHER (V : Val).
Arguments ShadowValue : clear implicits.

Inductive ValSetType : Type :=
| ValSetTypeUnknown
| ValSetTypePB
| ValSetTypeScalar
| ValSetTypeScalarSplat
| ValSetTypeFD
| ValSetTypeVarArg.

Record ImprovedVal {Val : Type} : Type := mkIV {
  V : ShadowValue Val;
  Offset : Z
}.
Arguments ImprovedVal : clear implicits.
Arguments mkIV {Val} _ _.

Record ImprovedValSetSingle {Val : Type} : Type := mkIVS {
  SetType : ValSetType;
  Values : list (ImprovedVal Val);
  Overdef : bool
}.
Arguments ImprovedValSetSingle : clear implicits.
Arguments mkIVS {Val} _ _ _.

#[global] Instance ValSetType_eq_dec : EqDecision ValSetType.
Proof. solve_decision. Defined.

#[global] Instance ShadowValue_eq_dec {Val} `{EqDecision Val} :
  EqDecision (ShadowValue Val).
Proof. solve_decision. Defined.

(** Modelled from the spec: [ImprovedValSetSingle::getOverdef],
    [setOverdef], [isInitialised] and the factory [get] are declared in
    the Integrator headers.  Overdefined is the top element and carries
    no candidates; a set is initialised when it is overdefined or has a
    candidate; [get] builds the set of one candidate. *)
Definition getOverdef {Val} : ImprovedValSetSingle Val :=
  mkIVS ValSetTypeUnknown [] true.

Definition setOverdef {Val} (S : ImprovedValSetSingle Val) :
  ImprovedValSetSingle Val :=
  mkIVS (SetType S) [] true.

Definition isInitialised {Val} (S : ImprovedValSetSingle Val) : bool :=
  Overdef S || negb (Nat.eqb (length (Values S)) 0).

Definition IVS_get {Val} (iv : ImprovedVal Val) (t : ValSetType) :
  ImprovedValSetSingle Val :=
  mkIVS t [iv] false.

(** [IVSRange]: a byte range [(start, end)] and its value-set. *)
Definition IVSRange (Val : Type) : Type :=
  (Z * Z) * ImprovedValSetSingle Val.

(** Contexts: an [InlineAttempt] or a [PeelIteration] nested in its
    parent; [ia_self] is the object's own address ([this]). *)
Inductive IntegrationAttempt : Type :=
| InlineAttempt (self : addr)
| PeelIteration (self : addr) (parent : IntegrationAttempt).

Definition ia_self (IA : IntegrationAttempt) : addr :=
  match IA with
  | InlineAttempt s => s
  | PeelIteration s _ => s
  end.

(** [InlineAttempt::ctxContains], [PeelIteration::ctxContains]. *)
Fixpoint ctxContains (this : IntegrationAttempt) (IA : addr) : bool :=
  match this with
  | InlineAttempt s => Nat.eqb s IA
  | PeelIteration s parent =>
      if Nat.eqb s IA then true else ctxContains parent IA
  end.

Inductive SVAAResult : Type :=
| SVNoAlias | SVMayAlias | SVPartialAlias | SVMustAlias.

(** The instruction graph and the LLVM predicates the store consults;
    all of it is owned by the exploration driver. *)
Class Driver (Val : Type) : Type := {
  (** [I->invar] and [I->parent->IA] of a shadow instruction *)
  inst_invar : addr -> addr;
  inst_ctx : addr -> IntegrationAttempt;
  (** [I->allocIdx], [GV->allocIdx] *)
  inst_allocIdx : addr -> Z;
  gv_allocIdx : addr -> Z;
  (** [inst_is<AllocaInst>] and the [stack_depth] of the function root *)
  inst_isAlloca : addr -> bool;
  inst_stack_depth : addr -> Z;
  (** [isa<ConstantPointerNull>] on the value under [SHADOWVAL_OTHER] *)
  isConstantPointerNull : Val -> bool;
  (** [AliasAnalysis::UnknownSize] *)
  UnknownSize : Z
}.

(** ** Alias resolution *)

Section AliasDefs.

Context {Val : Type} `{EqDecision Val} `{Driver Val}.

(** [val_is<ConstantPointerNull>]: only a raw constant can be the null
    pointer; instructions, globals and arguments are not. *)
Definition val_is_null (v : ShadowValue Val) : bool :=
  match v with
  | SHADOWVAL_OTHER c => isConstantPointerNull c
  | _ => false
  end.

(** [llvm::basesAlias]; [None] is the failed [release_assert] on a
    value of bad type. *)
Definition basesAlias (V1 V2 : ShadowValue Val) : option bool :=
  match V1 with
  | SHADOWVAL_OTHER v1 =>
      match V2 with
      | SHADOWVAL_OTHER v2 => Some (bool_decide (v1 = v2))
      | _ => Some false
      end
  | SHADOWVAL_ARG a1 =>
      match V2 with
      | SHADOWVAL_ARG a2 => Some (Nat.eqb a1 a2)
      | _ => Some false
      end
  | SHADOWVAL_GV g1 =>
      match V2 with
      | SHADOWVAL_GV g2 => Some (Nat.eqb g1 g2)
      | _ => Some false
      end
  | SHADOWVAL_INST i1 =>
      match V2 with
      | SHADOWVAL_INST i2 =>
          if Nat.eqb (inst_invar i1) (inst_invar i2) then
            Some (ctxContains (inst_ctx i1) (ia_self (inst_ctx i2))
                  || ctxContains (inst_ctx i2) (ia_self (inst_ctx i1)))
          else Some false
      | _ => Some false
      end
  | SHADOWVAL_INVAL => None
  end.

(** [getUniqueNonNullIV]: the only non-null candidate, if there is
    exactly one.  [uniqueVal] is the candidate found so far; a second
    one is the early [return 0]. *)
Fixpoint getUniqueNonNullIV_from (vals : list (ImprovedVal Val))
    (uniqueVal : option (ImprovedVal Val)) : option (ImprovedVal Val) :=
  match vals with
  | [] => uniqueVal
  | iv :: rest =>
      if val_is_null (V iv) then getUniqueNonNullIV_from rest uniqueVal
      else
        match uniqueVal with
        | Some _ => None
        | None => getUniqueNonNullIV_from rest (Some iv)
        end
  end.

Definition getUniqueNonNullIV (PB : ImprovedValSetSingle Val)
  : option (ImprovedVal Val) :=
  getUniqueNonNullIV_from (Values PB) None.

Definition PBsMustAliasIfStoredAndLoaded
    (PB1 PB2 : ImprovedValSetSingle Val) : bool :=
  match getUniqueNonNullIV PB1, getUniqueNonNullIV PB2 with
  | Some IV1, Some IV2 =>
      negb (Offset IV1 =? LLONG_MAX)
      && (Offset IV1 =? Offset IV2)
      && bool_decide (V IV1 = V IV2)
  | _, _ => false
  end.

(** The body of the inner loop of [tryResolveImprovedValSetSingles]:
    [None] aborts, [Some None] is [continue], [Some (Some r)] is
    [return r].  In [Offset + Size] the signed offset is converted to
    unsigned and the sum is cast back to [int64_t]. *)
Definition aliasStep (V1Size V2Size : Z) (IV1 IV2 : ImprovedVal Val)
  : option (option SVAAResult) :=
  match basesAlias (V IV1) (V IV2) with
  | None => None
  | Some false => Some None
  | Some true =>
      if (Offset IV1 =? LLONG_MAX) || (Offset IV2 =? LLONG_MAX)
      then Some (Some SVPartialAlias)
      else if negb
           ((negb (V2Size =? UnknownSize)
             && (Offset IV1 >=? s64 (Offset IV2 + V2Size)))
            || (negb (V1Size =? UnknownSize)
                && (s64 (Offset IV1 + V1Size) <=? Offset IV2)))
      then Some (Some SVPartialAlias)
      else Some None
  end.

Fixpoint aliasInner (V1Size V2Size : Z) (IV1 : ImprovedVal Val)
    (vals2 : list (ImprovedVal Val)) : option (option SVAAResult) :=
  match vals2 with
  | [] => Some None
  | IV2 :: rest =>
      match aliasStep V1Size V2Size IV1 IV2 with
      | None => None
      | Some (Some r) => Some (Some r)
      | Some None => aliasInner V1Size V2Size IV1 rest
      end
  end.

Fixpoint aliasOuter (V1Size V2Size : Z)
    (vals1 vals2 : list (ImprovedVal Val)) : option (option SVAAResult) :=
  match vals1 with
  | [] => Some None
  | IV1 :: rest =>
      match aliasInner V1Size V2Size IV1 vals2 with
      | None => None
      | Some (Some r) => Some (Some r)
      | Some None => aliasOuter V1Size V2Size rest vals2
      end
  end.

(** [llvm::tryResolveImprovedValSetSingles] on two value-sets. *)
Definition tryResolveImprovedValSetSingles
    (PB1 : ImprovedValSetSingle Val) (V1Size : Z)
    (PB2 : ImprovedValSetSingle Val) (V2Size : Z) : option SVAAResult :=
  if (V1Size =? V2Size) && PBsMustAliasIfStoredAndLoaded PB1 PB2
  then Some SVMustAlias
  else
    match aliasOuter V1Size V2Size (Values PB1) (Values PB2) with
    | None => None
    | Some (Some r) => Some r
    | Some None => Some SVNoAlias
    end.

(** The byte ranges [[o1, o1 + s1)] and [[o2, o2 + s2)] intersect. *)
Definition rangesOverlap (o1 s1 o2 s2 : Z) : Prop :=
  o1 < o2 + s2 /\ o2 < o1 + s1.

End AliasDefs.

(** ** LLVM types and constants, as far as the file inspects them *)

Inductive Ty : Type :=
| IntegerTy (bits : Z)
| PointerTy
| ArrayTy (NumElements : Z) (ElementType : Ty)
| StructTy (elts : list Ty)
| VectorTy (NumElements : Z) (ElementType : Ty)
| OtherTy (id : nat).

(** [containsPointerTypes]: a pointer type, or a type with a subtype
    that contains one. *)
Fixpoint containsPointerTypes (Ty0 : Ty) : bool :=
  match Ty0 with
  | PointerTy => true
  | ArrayTy _ e => containsPointerTypes e
  | VectorTy _ e => containsPointerTypes e
  | StructTy elts => existsb containsPointerTypes elts
  | IntegerTy _ | OtherTy _ => false
  end.

(** What the assembler asks of LLVM's constants.  [ReadDataFromGlobal C
    off buf] fills the buffer [buf] (whose length is the number of bytes
    wanted) from [C] starting at byte [off]; it leaves bytes it does not
    write as they are. *)
Class ConstEnv (Val : Type) : Type := {
  (** [dyn_cast_or_null<Constant>(V.getVal())] *)
  dyn_cast_Constant : ShadowValue Val -> option Val;
  ReadDataFromGlobal : Val -> Z -> list Z -> option (list Z);
  constFromBytes : list Z -> Ty -> Val;
  (** [ShadowValue::getType] *)
  getType : ShadowValue Val -> Ty;
  allowTotalDefnImplicitCast : Ty -> Ty -> bool;
  allowTotalDefnImplicitPtrToInt : Ty -> Ty -> bool;
  (** the indeterminate content of byte [i] of storage obtained from
      [new] *)
  indeterminate : nat -> Z
}.

(** ** The partial-value assembler *)

Inductive PartialValType : Type :=
| PVEmpty | PVTotal | PVPartial | PVByteArray.

Record PartialVal {Val : Type} : Type := mkPV {
  type : PartialValType;
  TotalIV : ImprovedVal Val;
  TotalIVType : ValSetType;
  C : option Val;
  ReadOffset : Z;
  partialBuf : option (list Z);
  partialValidBuf : option (list bool);
  partialBufBytes : Z;
  loadFinished : bool
}.
Arguments PartialVal : clear implicits.
Arguments mkPV {Val} _ _ _ _ _ _ _ _ _.

Section PartialValDefs.

Context {Val : Type} `{ConstEnv Val}.

(** Modelled from the spec: the four tests on the form of a
    [PartialVal] ([isEmpty], [isTotal], [isPartial], [isByteArray]), the
    default [ImprovedVal] and the factory [PartialVal::getPartial] are
    declared in the Integrator headers.  The forms are the empty value,
    the two lightweight ones (total; partial reference into a constant)
    and the byte array with its validity mask. *)
Definition isEmpty (pv : PartialVal Val) : bool :=
  match type pv with PVEmpty => true | _ => false end.
Definition isTotal (pv : PartialVal Val) : bool :=
  match type pv with PVTotal => true | _ => false end.
Definition isPartial (pv : PartialVal Val) : bool :=
  match type pv with PVPartial => true | _ => false end.
Definition isByteArray (pv : PartialVal Val) : bool :=
  match type pv with PVByteArray => true | _ => false end.

Definition defaultIV : ImprovedVal Val := mkIV SHADOWVAL_INVAL 0.

Definition getPartial (c : Val) (off : Z) : PartialVal Val :=
  mkPV PVPartial defaultIV ValSetTypeUnknown (Some c) off None None 0 false.

(** [new uint64_t[nqwords]], seen as bytes. *)
Definition newBuf (nqwords : Z) : list Z :=
  map indeterminate (seq 0 (Z.to_nat (8 * nqwords))).

(** [PartialVal::initByteArray] *)
Definition initByteArray (this : PartialVal Val) (nbytes : Z)
  : PartialVal Val :=
  let nqwords := u64 (nbytes + 7) / 8 in
  mkPV PVByteArray (TotalIV this) (TotalIVType this) (C this)
       (ReadOffset this)
       (Some (newBuf nqwords))
       (match partialValidBuf this with
        | Some b => Some b
        | None => Some (replicate (Z.to_nat nbytes) false)
        end)
       nbytes false.

(** [PartialVal::PartialVal(uint64_t nbytes)] *)
Definition PartialVal_new (nbytes : Z) : PartialVal Val :=
  initByteArray
    (mkPV PVEmpty defaultIV ValSetTypeUnknown None 0 None None 0 false)
    nbytes.

(** [memcpy(dst, src, n)] on arrays of known extent; reading or writing
    past either is an abort. *)
Definition memcpy {A} (dst src : list A) (n : nat) : option (list A) :=
  if decide (n <= length src /\ n <= length dst)%nat
  then Some (take n src ++ drop n dst)
  else None.

(** [PartialVal::operator=] *)
Definition PV_assign (this Other : PartialVal Val)
  : option (PartialVal Val) :=
  let n := Z.to_nat (partialBufBytes Other) in
  pb ← match partialBuf Other with
       | Some ob =>
           Some <$> memcpy (newBuf (u64 (partialBufBytes Other + 7) / 8)) ob n
       | None => Some None
       end;
  pv ← match partialValidBuf Other with
       | Some ov => Some <$> memcpy (replicate n false) ov n
       | None => Some None
       end;
  Some (mkPV (type Other) (TotalIV Other) (TotalIVType Other) (C Other)
             (ReadOffset Other) pb pv (partialBufBytes Other)
             (loadFinished Other)).

(** The byte and the validity flag at index [j], if the buffers are
    there and long enough. *)
Definition byteAt (pv : PartialVal Val) (j : nat) : option Z :=
  buf ← partialBuf pv; buf !! j.
Definition validAt (pv : PartialVal Val) (j : nat) : option bool :=
  valid ← partialValidBuf pv; valid !! j.

(** [PartialVal::isComplete] *)
Definition isComplete (this : PartialVal Val) : bool :=
  isTotal this || isPartial this || loadFinished this.

(** The first loop of [combineWith]: for [i] from [i] on, [n] times,
    byte [FirstDef + i] takes [tempBuf[i]] unless it is marked valid. *)
Fixpoint copyLoop (n i : nat) (FirstDef : Z) (valid : list bool)
    (tempBuf buf : list Z) : option (list Z) :=
  match n with
  | O => Some buf
  | S n' =>
      let idx := Z.to_nat (u64 (FirstDef + Z.of_nat i)) in
      b ← valid !! idx;
      buf' ← (if (b : bool) then Some buf
              else
                t ← tempBuf !! i;
                if decide (idx < length buf)%nat
                then Some (<[idx := t]> buf) else None);
      copyLoop n' (S i) FirstDef valid tempBuf buf'
  end.

(** The second loop of [combineWith], from index [i] on.  The loop runs
    at most [LoadSize] times, which is the [fuel]. *)
Fixpoint validLoop (fuel : nat) (i FirstDef FirstNotDef LoadSize : Z)
    (valid : list bool) (finished : bool) : option (list bool * bool) :=
  match fuel with
  | O => Some (valid, finished)
  | S fuel' =>
      if (i <? LoadSize) && (finished || (i <? FirstNotDef)) then
        if (i >=? FirstDef) && (i <? FirstNotDef) then
          if decide (Z.to_nat i < length valid)%nat then
            validLoop fuel' (i + 1) FirstDef FirstNotDef LoadSize
                      (<[Z.to_nat i := true]> valid) finished
          else None
        else
          b ← valid !! Z.to_nat i;
          validLoop fuel' (i + 1) FirstDef FirstNotDef LoadSize valid
                    (if (b : bool) then finished else false)
      else Some (valid, finished)
  end.

(** The byte source of [combineWith]: a total [Other] is turned into a
    partial reference to its constant, and [tempBuf] is either the [n]
    bytes read from the constant of a partial reference or the buffer
    of [Other] itself.  [inl] is a failure with its error string. *)
Definition byteSource (Other : PartialVal Val) (n : nat)
  : option (string * PartialVal Val + PartialVal Val * list Z) :=
  match
    (if isTotal Other then
       match dyn_cast_Constant (V (TotalIV Other)) with
       | None => inl "PP2"%string
       | Some TotalC =>
           inr (mkPV PVPartial (TotalIV Other) (TotalIVType Other)
                     (Some TotalC) 0 (partialBuf Other)
                     (partialValidBuf Other) (partialBufBytes Other)
                     (loadFinished Other))
       end
     else inr Other)
  with
  | inl e => Some (inl (e, Other))
  | inr Other1 =>
      if isPartial Other1 then
        match C Other1 with
        | None => None
        | Some c =>
            match ReadDataFromGlobal c (ReadOffset Other1) (replicate n 0) with
            | None => Some (inl ("RDFG"%string, Other1))
            | Some bytes => Some (inr (Other1, resize n 0 bytes))
            end
        end
      else Some (inr (Other1, default [] (partialBuf Other1)))
  end.

(** [PartialVal::combineWith].  The result is the returned flag, the
    error string, [this] and [Other] as the call leaves them. *)
Definition combineWith (this Other : PartialVal Val)
    (FirstDef FirstNotDef LoadSize : Z) (error : string)
  : option (bool * string * PartialVal Val * PartialVal Val) :=
  if isEmpty this && (FirstDef =? 0)
     && (u64 (FirstNotDef - FirstDef) =? LoadSize)
  then
    this' ← PV_assign this Other;
    Some (true, error, this', Other)
  else
    let this1 := if isEmpty this then initByteArray this LoadSize else this in
    if negb (isByteArray this1) then None
    else
      let n := Z.to_nat (u64 (FirstNotDef - FirstDef)) in
      match byteSource Other n with
      | None => None
      | Some (inl (e, Other1)) => Some (false, e, this1, Other1)
      | Some (inr (Other1, tempBuf)) =>
          if negb (FirstDef <? partialBufBytes this1) then None
          else if negb (FirstNotDef <=? partialBufBytes this1) then None
          else
            valid ← partialValidBuf this1;
            buf ← partialBuf this1;
            buf' ← copyLoop n 0 FirstDef valid tempBuf buf;
            '(valid', finished) ←
              validLoop (Z.to_nat LoadSize) 0 FirstDef FirstNotDef
                        LoadSize valid true;
            Some (true, error,
                  mkPV (type this1) (TotalIV this1) (TotalIVType this1)
                       (C this1) (ReadOffset this1) (Some buf')
                       (Some valid') (partialBufBytes this1) finished,
                  Other1)
      end.

(** The byte arrays that the code builds for a load of [N] bytes: the
    one that the constructor [PartialVal(N)] makes, and whatever a call
    of [combineWith] with [LoadSize = N] leaves of one of them, whether
    the call succeeds or fails. *)
Inductive assembled (N : Z) : PartialVal Val -> Prop :=
| assembled_new : assembled N (PartialVal_new N)
| assembled_combine (this Other : PartialVal Val) (FirstDef FirstNotDef : Z)
    (error : string) (ok : bool) (error' : string)
    (this' Other' : PartialVal Val) :
    assembled N this ->
    combineWith this Other FirstDef FirstNotDef N error
      = Some (ok, error', this', Other') ->
    assembled N this'.

(** [PartialVal::convertToBytes]: the flag, the error string and
    [this]. *)
Definition convertToBytes (this : PartialVal Val) (size : Z)
    (error : string) : option (bool * string * PartialVal Val) :=
  if isByteArray this then Some (true, error, this)
  else
    '(ok, error', conv, this') ←
      combineWith (PartialVal_new size) this 0 size size error;
    if (ok : bool) then
      this'' ← PV_assign this' conv;
      Some (true, error', this'')
    else Some (false, error', this').

(** The check loop of [coerceToType],
    [for(unsigned i = 0; i < PV.partialBufBytes; ++i)], from the round
    in which the counter is [i] and the bytes from [checkBuf[i]] on are
    [rest].  The counter has 32 bits and the bound 64.  A read past the
    end of the buffer is an abort.  When [++i] takes the counter from
    [2 ^ 32 - 1] to 0, the loop is back in the state in which it began,
    having met zero bytes only: it runs for ever, which is no return
    either. *)
Fixpoint checkLoop (rest : list Z) (i partialBufBytes : Z) : option bool :=
  if i <? partialBufBytes then
    match rest with
    | [] => None
    | b :: rest' =>
        if b =? 0 then
          let i' := (i + 1) mod 2 ^ 32 in
          if i' =? 0 then None else checkLoop rest' i' partialBufBytes
        else Some true
    end
  else Some false.

(** Is one of the bytes that the check loop looks at non-zero? *)
Definition anyNonZero (partialBufBytes : Z) (checkBuf : list Z)
  : option bool :=
  checkLoop checkBuf 0 partialBufBytes.

(** The member loop of [coerceToType]; [done] are the members already
    rewritten. *)
Fixpoint coerceLoop (Target : Ty) (TargetSize : Z)
    (done todo : list (ImprovedVal Val)) (error : string)
  : option (bool * string * list (ImprovedVal Val)) :=
  match todo with
  | [] => Some (true, error, done)
  | iv :: rest =>
      c ← dyn_cast_Constant (V iv);
      '(ok, error', PV) ← convertToBytes (getPartial c 0) TargetSize error;
      if negb ok then Some (false, error', done ++ iv :: rest)
      else
        checkBuf ← partialBuf PV;
        nz ← (if containsPointerTypes Target
              then anyNonZero (partialBufBytes PV) checkBuf
              else Some false);
        if (nz : bool)
        then Some (false, "Cast non-zero to pointer"%string,
                   done ++ iv :: rest)
        else
          coerceLoop Target TargetSize
            (done ++ [mkIV (SHADOWVAL_OTHER (constFromBytes checkBuf Target))
                           (Offset iv)])
            rest error'
  end.

(** [ImprovedValSetSingle::coerceToType]: the flag, the error string
    and the set as the call leaves it. *)
Definition coerceToType (this : ImprovedValSetSingle Val) (Target : Ty)
    (TargetSize : Z) (error : string)
  : option (bool * string * ImprovedValSetSingle Val) :=
  iv0 ← Values this !! 0%nat;
  let Source := getType (V iv0) in
  if bool_decide (SetType this = ValSetTypeVarArg)
  then Some (true, error, this)
  else if allowTotalDefnImplicitCast Source Target
  then Some (true, error, this)
  else if allowTotalDefnImplicitPtrToInt Source Target
  then Some (true, error, this)
  else if negb (bool_decide (SetType this = ValSetTypeScalar))
  then Some (false, "Non-scalar coercion"%string, this)
  else
    '(ok, error', vals) ←
      coerceLoop Target TargetSize [] (Values this) error;
    Some (ok, error', mkIVS (SetType this) vals (Overdef this)).


End PartialValDefs.

(** ** Constant decomposition and reconstruction *)

(** LLVM constants by the structure [getConstSubVals] tells apart:
    arrays and structs with their operands, and every other constant
    (integers, data arrays, aggregate zero, null, undef, ...), which is
    identified by its [payload]. *)
Inductive Constant : Type :=
| ConstantArray (ty : Ty) (elts : list Constant)
| ConstantStruct (ty : Ty) (elts : list Constant)
| UndefValue (ty : Ty)
| ConstantOther (ty : Ty) (payload : list Z).

(** [Constant::getType] *)
Definition Constant_getType (c : Constant) : Ty :=
  match c with
  | ConstantArray ty _ | ConstantStruct ty _ | UndefValue ty
  | ConstantOther ty _ => ty
  end.

(** [StructType::getNumElements] *)
Definition StructTy_getNumElements (ty : Ty) : option Z :=
  match ty with
  | StructTy tys => Some (Z.of_nat (length tys))
  | _ => None
  end.

(** [Type::getIntNTy]; the width is an [unsigned]. *)
Definition getIntNTy (N : Z) : Ty := IntegerTy (N mod 2 ^ 32).

(** [Constant::getAggregateElement(unsigned)]: the operand, or null. *)
Definition getAggregateElement (elts : list Constant) (Elt : Z)
  : option Constant :=
  elts !! Z.to_nat (Elt mod 2 ^ 32).

(** LLVM's [StructLayout]: the member offsets and the size of the
    struct.  [getElementContainingOffset] is the last member whose
    offset is at most the given one (an assertion fails when there is
    none). *)
Record StructLayout : Type := mkSL {
  MemberOffsets : list Z;
  getSizeInBytes : Z
}.

Definition getElementOffset (SL : StructLayout) (Idx : Z) : option Z :=
  MemberOffsets SL !! Z.to_nat (Idx mod 2 ^ 32).

Fixpoint lastAtMost (offs : list Z) (Off : Z) (i : nat) (found : option nat)
  : option nat :=
  match offs with
  | [] => found
  | o :: rest =>
      if o <=? Off then lastAtMost rest Off (S i) (Some i) else found
  end.

Definition getElementContainingOffset (SL : StructLayout) (Off : Z)
  : option Z :=
  Z.of_nat <$> lastAtMost (MemberOffsets SL) Off 0 None.

(** The target's [DataLayout] and the two constructors of the
    Integrator and of LLVM that the decomposition calls. *)
Class DataLayout : Type := {
  getTypeStoreSize : Ty -> Z;
  getTypeAllocSize : Ty -> Z;
  getStructLayout : Ty -> option StructLayout;
  (** [getValPB]: the value-set type and candidate that stand for a
      constant *)
  getValPB : Constant -> ValSetType * ImprovedVal Constant;
  (** [ConstantArray::get] *)
  ConstantArray_get : Ty -> list Constant -> Constant
}.


Section ConstDefs.

Context `{DataLayout} `{ConstEnv Constant}.

(** The macros [IVSR] and [AddIVSConst]; a range is [(start, end)]. *)
Definition IVSR (x y : Z) (z : ImprovedValSetSingle Constant)
  : IVSRange Constant :=
  ((x, y), z).

Definition AddIVSConst (OffsetAbove x y : Z) (z : Constant)
  : IVSRange Constant :=
  let '(t, iv) := getValPB z in
  IVSR (u64 (x + OffsetAbove)) (u64 (x + y + OffsetAbove)) (IVS_get iv t).

(** The loop "read whole elements" of the struct case, [n] rounds from
    member [StartE] on. *)
Fixpoint structWholeLoop (n : nat) (StartE : Z) (SL : StructLayout)
    (elts : list Constant) (NumElements TargetSize OffsetAbove : Z)
    (Dest : list (IVSRange Constant))
  : option (list (IVSRange Constant)) :=
  match n with
  | O => Some Dest
  | S n' =>
      E ← getAggregateElement elts StartE;
      let ESize := getTypeStoreSize (Constant_getType E) in
      ThisOff ← getElementOffset SL StartE;
      let Dest1 := Dest ++ [AddIVSConst OffsetAbove ThisOff ESize E] in
      Dest2 ← (if StartE + 1 <? NumElements then
                 NextOff ← getElementOffset SL (StartE + 1);
                 let PaddingBytes := u64 (NextOff - (ThisOff + ESize)) in
                 if PaddingBytes =? 0 then Some Dest1
                 else
                   Some (Dest1 ++
                         [AddIVSConst OffsetAbove (ThisOff + ESize)
                            PaddingBytes
                            (UndefValue (getIntNTy (TargetSize * 8)))])
               else Some Dest1);
      structWholeLoop n' (StartE + 1) SL elts NumElements TargetSize
                      OffsetAbove Dest2
  end.

(** [llvm::getConstSubVals].  [Dest] is the vector the extents are
    pushed onto; [fuel] bounds the depth of the recursion, and [None] is
    an abort or the end of the fuel. *)
Fixpoint getConstSubVals (fuel : nat) (FromC : Constant)
    (Offset TargetSize OffsetAbove : Z) (Dest : list (IVSRange Constant))
  : option (list (IVSRange Constant)) :=
  match fuel with
  | O => None
  | S fuel' =>
  let FromSize := getTypeStoreSize (Constant_getType FromC) in
  if (Offset =? 0) && (TargetSize =? FromSize) then
    Some (Dest ++ [AddIVSConst OffsetAbove 0 TargetSize FromC])
  else if u64 (Offset + TargetSize) >? FromSize then
    Dest1 ← getConstSubVals fuel' FromC Offset (u64 (FromSize - Offset))
                            OffsetAbove Dest;
    Some (Dest1 ++ [IVSR FromSize (u64 (u64 (Offset + TargetSize) - FromSize))
                         getOverdef])
  else
    match FromC with
    | ConstantArray ty elts =>
        match ty with
        | ArrayTy _ EType =>
            let ESize := getTypeAllocSize EType in
            if ESize =? 0 then None
            else
              let StartE := Offset / ESize in
              let StartOff := Offset mod ESize in
              let EndE := u64 (Offset + TargetSize) / ESize in
              let EndOff := u64 (Offset + TargetSize) mod ESize in
              r ← (if StartOff =? 0 then Some (inr (Dest, StartE))
                   else
                     let ThisReadSize :=
                       if EndE =? StartE then u64 (EndOff - StartOff)
                       else u64 (ESize - StartOff) in
                     E ← getAggregateElement elts StartE;
                     Dest1 ← getConstSubVals fuel' E StartOff ThisReadSize
                               (s64 (OffsetAbove + u64 (ESize * StartE))) Dest;
                     if StartE =? EndE then Some (inl Dest1)
                     else if (StartE + 1 =? EndE) && (EndOff =? 0)
                     then Some (inl Dest1)
                     else Some (inr (Dest1, StartE + 1)));
              match r with
              | inl Dest1 => Some Dest1
              | inr (Dest1, StartE) =>
                  Dest2 ←
                    (if u64 (EndE - StartE) =? 1 then
                       E ← getAggregateElement elts StartE;
                       Some (Dest1 ++
                             [AddIVSConst OffsetAbove (StartE * ESize) ESize E])
                     else if u64 (EndE - StartE) >? 1 then
                       subArray ←
                         mapM (fun i => getAggregateElement elts
                                          (StartE + Z.of_nat i))
                              (seq 0 (Z.to_nat (EndE - StartE)));
                       Some (Dest1 ++
                             [AddIVSConst OffsetAbove (StartE * ESize)
                                (ESize * (EndE - StartE))
                                (ConstantArray_get ty subArray)])
                     else Some Dest1);
                  if EndOff =? 0 then Some Dest2
                  else
                    E ← getAggregateElement elts EndE;
                    getConstSubVals fuel' E 0 EndOff
                      (s64 (OffsetAbove + u64 (ESize * EndE))) Dest2
              end
        | _ => None
        end
    | ConstantStruct ty elts =>
        match getStructLayout ty with
        | None => Some (Dest ++ [IVSR Offset TargetSize getOverdef])
        | Some SL =>
            NumElements ← StructTy_getNumElements ty;
            StartE ← getElementContainingOffset SL Offset;
            StartEOff ← getElementOffset SL StartE;
            let StartOff := u64 (Offset - StartEOff) in
            EndE ← getElementContainingOffset SL (u64 (Offset + TargetSize));
            EndEOff ← getElementOffset SL EndE;
            let EndOff := u64 (u64 (Offset + TargetSize) - EndEOff) in
            r ← (if StartOff =? 0 then Some (inr (Dest, StartE))
                 else
                   StartC ← getAggregateElement elts StartE;
                   let StartCSize :=
                     getTypeStoreSize (Constant_getType StartC) in
                   let ThisReadSize :=
                     if EndE =? StartE then u64 (EndOff - StartOff)
                     else u64 (StartCSize - StartOff) in
                   Dest1 ← getConstSubVals fuel' StartC StartOff ThisReadSize
                             (s64 (OffsetAbove + StartEOff)) Dest;
                   if StartE =? EndE then Some (inl Dest1)
                   else if (StartE + 1 =? EndE) && (EndOff =? 0)
                   then Some (inl Dest1)
                   else Some (inr (Dest1, StartE + 1)));
            match r with
            | inl Dest1 => Some Dest1
            | inr (Dest1, StartE) =>
                Dest2 ← structWholeLoop (Z.to_nat (EndE - StartE)) StartE SL
                          elts NumElements TargetSize OffsetAbove
                          Dest1;
                if EndOff =? 0 then Some Dest2
                else
                  E ← getAggregateElement elts EndE;
                  getConstSubVals fuel' E 0 EndOff
                    (s64 (OffsetAbove + EndEOff)) Dest2
            end
        end
    | _ =>
        match ReadDataFromGlobal FromC Offset
                (replicate (Z.to_nat TargetSize) 0) with
        | Some Buffer =>
            let SubC := constFromBytes
                          (resize (Z.to_nat TargetSize) 0 Buffer)
                          (getIntNTy (TargetSize * 8)) in
            Some (Dest ++ [AddIVSConst OffsetAbove Offset TargetSize SubC])
        | None => Some (Dest ++ [IVSR Offset TargetSize getOverdef])
        end
    end
  end.

(** The synthesis loop of [valsToConst]: each extent's constant is read
    into the buffer at the extent's start. *)
Fixpoint valsToConst_fill (subVals : list (IVSRange Constant))
    (buffer : list Z)
  : option (option (list Z)) :=
  match subVals with
  | [] => Some (Some buffer)
  | ((first, second), ivs) :: rest =>
      iv ← Values ivs !! 0%nat;
      c ← dyn_cast_Constant (V iv);
      let len := Z.to_nat (u64 (second - first)) in
      let start := Z.to_nat first in
      if decide (start + len <= length buffer)%nat then
        match ReadDataFromGlobal c 0 (take len (drop start buffer)) with
        | None => Some None
        | Some bytes =>
            valsToConst_fill rest
              (take start buffer ++ resize len 0 bytes
                 ++ drop (start + len) buffer)
        end
      else None
  end.

(** [llvm::valsToConst]: [Some None] is the null result. *)
Definition valsToConst (subVals : list (IVSRange Constant)) (TargetSize : Z)
    (targetType : option Ty) : option (option Constant) :=
  match subVals with
  | [] => Some None
  | r0 :: _ =>
      if existsb (fun r : IVSRange Constant => Overdef (snd r)) subVals then Some None
      else if Nat.eqb (length subVals) 1 then
        iv ← Values (snd r0) !! 0%nat;
        c ← dyn_cast_Constant (V iv);
        Some (Some c)
      else
        filled ← valsToConst_fill subVals (replicate (Z.to_nat TargetSize) 0);
        match filled with
        | None => Some None
        | Some buffer =>
            match targetType with
            | Some ty => Some (Some (constFromBytes buffer ty))
            | None =>
                _ ← Values (snd r0) !! 0%nat;
                Some (Some (constFromBytes buffer
                              (getIntNTy (TargetSize * 8))))
            end
        end
  end.

(** [llvm::getSubConst]: decompose, then reconstruct. *)
Definition getSubConst (fuel : nat) (FromC : Constant)
    (Offset TargetSize : Z) (targetType : option Ty)
  : option (option Constant) :=
  subVals ← getConstSubVals fuel FromC Offset TargetSize (s64 (- Offset)) [];
  valsToConst subVals TargetSize targetType.

End ConstDefs.

(** ** The copy-on-write store *)

#[global] Instance ShadowValue_countable {Val} `{Countable Val} :
  Countable (ShadowValue Val).
Proof.
  refine (inj_countable'
    (fun v : ShadowValue Val =>
       match v with
       | SHADOWVAL_INVAL => inl tt
       | SHADOWVAL_ARG a => inr (inl a)
       | SHADOWVAL_INST i => inr (inr (inl i))
       | SHADOWVAL_GV g => inr (inr (inr (inl g)))
       | SHADOWVAL_OTHER c => inr (inr (inr (inr c)))
       end)
    (fun x =>
       match x with
       | inl _ => SHADOWVAL_INVAL
       | inr (inl a) => SHADOWVAL_ARG a
       | inr (inr (inl i)) => SHADOWVAL_INST i
       | inr (inr (inr (inl g))) => SHADOWVAL_GV g
       | inr (inr (inr (inr c))) => SHADOWVAL_OTHER c
       end) _).
  intros []; reflexivity.
Defined.

(** The constants of the heap tree and the value-sets behind the store
    cells.  [ImprovedValSet] objects live in their own heap [VHeap];
    the store only copies and drops references to them, through the two
    virtual methods declared in the Integrator headers. *)
Class StoreEnv : Type := {
  HEAPTREEORDER : nat;
  HEAPTREEORDERLOG2 : nat;
  VHeap : Type;
  (** [ImprovedValSet::getReadableCopy] *)
  ivs_getReadableCopy : addr -> VHeap -> addr * VHeap;
  (** [ImprovedValSet::dropReference] *)
  ivs_dropReference : addr -> VHeap -> VHeap
}.

(** [SharedTreeNode]: [children[i]] is null when [i] is not in the
    map.  At height 0 the children are value-sets, above they are
    nodes. *)
Record SharedTreeNode : Type := mkSTN {
  children : gmap nat addr;
  refCount : Z
}.

Record SharedTreeRoot : Type := mkSTR {
  root : option addr;
  height : nat
}.

(** [SharedStoreMap]: the [DenseMap] from values to store cells (each
    cell is its value-set pointer) and the reference count. *)
Record SharedStoreMap {Val : Type} `{Countable Val} : Type := mkSSM {
  store : gmap (ShadowValue Val) addr;
  ssm_refCount : Z
}.
Arguments SharedStoreMap Val {_ _}.
Arguments mkSSM {Val _ _} _ _.

Record LocalStoreMap : Type := mkLSM {
  frames : list (option addr);
  heap : SharedTreeRoot;
  allOthersClobbered : bool;
  lsm_refCount : Z
}.

Record ShadowBB : Type := mkBB {
  localStore : addr
}.

(** A [LocStore*]: a leaf slot of the heap tree, a cell of a frame map,
    or the base store of a value. *)
Inductive LocStoreRef {Val : Type} : Type :=
| HeapSlot (node : addr) (i : nat)
| FrameSlot (map : addr) (key : ShadowValue Val)
| BaseSlot (key : ShadowValue Val).
Arguments LocStoreRef : clear implicits.

(** The arenas.  [delete] is recorded in [freedNodes] and
    [freedStoreMaps]; the cell itself stays in its arena, so that an
    address is never handed out twice. *)
Record Memory {Val : Type} `{Countable Val} `{StoreEnv} : Type := mkMem {
  treeNodes : gmap addr SharedTreeNode;
  storeMaps : gmap addr (SharedStoreMap Val);
  localMaps : gmap addr LocalStoreMap;
  baseStores : gmap (ShadowValue Val) addr;
  valSets : VHeap;
  freedNodes : gset addr;
  freedStoreMaps : gset addr
}.
Arguments Memory Val {_ _ _}.
Arguments mkMem {Val _ _ _} _ _ _ _ _ _ _.

Section StoreDefs.

Context {Val : Type} `{Countable Val} `{StoreEnv} `{Driver Val}.

(** The state-and-abort monad of the store operations. *)
Definition M (A : Type) : Type := Memory Val -> option (A * Memory Val).

#[global] Instance M_ret : MRet M := fun A a m => Some (a, m).
#[global] Instance M_bind : MBind M := fun A B f c m =>
  match c m with
  | Some (a, m') => f a m'
  | None => None
  end.

Definition abort {A} : M A := fun _ => None.

Fixpoint forM_ {A} (l : list A) (f : A -> M unit) : M unit :=
  match l with
  | [] => mret tt
  | x :: rest => f x ;; forM_ rest f
  end.

Definition set_treeNodes (f : gmap addr SharedTreeNode -> gmap addr SharedTreeNode)
    (m : Memory Val) : Memory Val :=
  mkMem (f (treeNodes m)) (storeMaps m) (localMaps m) (baseStores m)
        (valSets m) (freedNodes m) (freedStoreMaps m).

Definition set_storeMaps
    (f : gmap addr (SharedStoreMap Val) -> gmap addr (SharedStoreMap Val))
    (m : Memory Val) : Memory Val :=
  mkMem (treeNodes m) (f (storeMaps m)) (localMaps m) (baseStores m)
        (valSets m) (freedNodes m) (freedStoreMaps m).

Definition set_localMaps
    (f : gmap addr LocalStoreMap -> gmap addr LocalStoreMap)
    (m : Memory Val) : Memory Val :=
  mkMem (treeNodes m) (storeMaps m) (f (localMaps m)) (baseStores m)
        (valSets m) (freedNodes m) (freedStoreMaps m).

Definition set_valSets (f : VHeap -> VHeap) (m : Memory Val) : Memory Val :=
  mkMem (treeNodes m) (storeMaps m) (localMaps m) (baseStores m)
        (f (valSets m)) (freedNodes m) (freedStoreMaps m).

(** Reads and writes through a pointer; allocation with [new]. *)
Definition readNode (a : addr) : M SharedTreeNode :=
  fun m => n ← treeNodes m !! a; Some (n, m).
Definition writeNode (a : addr) (n : SharedTreeNode) : M unit :=
  fun m => Some (tt, set_treeNodes <[a := n]> m).
Definition allocNode (n : SharedTreeNode) : M addr :=
  fun m => let a := fresh (dom (treeNodes m)) in
           Some (a, set_treeNodes <[a := n]> m).
Definition deleteNode (a : addr) : M unit :=
  fun m => Some (tt, mkMem (treeNodes m) (storeMaps m) (localMaps m)
                           (baseStores m) (valSets m)
                           ({[a]} ∪ freedNodes m) (freedStoreMaps m)).

Definition readStoreMap (a : addr) : M (SharedStoreMap Val) :=
  fun m => sm ← storeMaps m !! a; Some (sm, m).
Definition writeStoreMap (a : addr) (sm : SharedStoreMap Val) : M unit :=
  fun m => Some (tt, set_storeMaps <[a := sm]> m).
Definition allocStoreMap (sm : SharedStoreMap Val) : M addr :=
  fun m => let a := fresh (dom (storeMaps m)) in
           Some (a, set_storeMaps <[a := sm]> m).
Definition deleteStoreMap (a : addr) : M unit :=
  fun m => Some (tt, mkMem (treeNodes m) (storeMaps m) (localMaps m)
                           (baseStores m) (valSets m)
                           (freedNodes m) ({[a]} ∪ freedStoreMaps m)).

Definition readLocalMap (a : addr) : M LocalStoreMap :=
  fun m => lm ← localMaps m !! a; Some (lm, m).
Definition writeLocalMap (a : addr) (lm : LocalStoreMap) : M unit :=
  fun m => Some (tt, set_localMaps <[a := lm]> m).
Definition allocLocalMap (lm : LocalStoreMap) : M addr :=
  fun m => let a := fresh (dom (localMaps m)) in
           Some (a, set_localMaps <[a := lm]> m).

(** Calls of the two [ImprovedValSet] methods. *)
Definition call_getReadableCopy (p : addr) : M addr :=
  fun m => let '(q, vh) := ivs_getReadableCopy p (valSets m) in
           Some (q, set_valSets (fun _ => vh) m).
Definition call_dropReference (p : addr) : M unit :=
  fun m => Some (tt, set_valSets (ivs_dropReference p) m).

(** The [->store] of a [LocStore*]; a missing base store is null. *)
Definition readSlot (s : LocStoreRef Val) : M (option addr) :=
  match s with
  | HeapSlot node i => n ← readNode node; mret (children n !! i)
  | FrameSlot map key => sm ← readStoreMap map; mret (store sm !! key)
  | BaseSlot key => fun m => Some (baseStores m !! key, m)
  end.

(** Modelled from the spec: the constructors [SharedTreeNode()],
    [SharedStoreMap()] and [LocalStoreMap(n)] are declared in the
    Integrator headers.  A new object has reference count 1 and is
    empty: no children, no cells, [n] frame slots yet to be filled, an
    empty heap, and the clobber flag unset. *)
Definition new_SharedTreeNode : M addr := allocNode (mkSTN ∅ 1).
Definition new_SharedStoreMap : M addr := allocStoreMap (mkSSM ∅ 1).
Definition new_LocalStoreMap (n : nat) : M addr :=
  allocLocalMap (mkLSM (replicate n None) (mkSTR None 0) false 1).

(** [ShadowValue::getHeapKey], [ShadowValue::getFrameNo] *)
Definition getHeapKey (v : ShadowValue Val) : Z :=
  match v with
  | SHADOWVAL_INST i => inst_allocIdx i
  | SHADOWVAL_GV g => gv_allocIdx g
  | _ => -1
  end.

Definition getFrameNo (v : ShadowValue Val) : Z :=
  match v with
  | SHADOWVAL_INST i => if inst_isAlloca i then inst_stack_depth i else -1
  | _ => -1
  end.

(** The digit of [idx] that selects the child at [height]. *)
Definition nextChild (idx : Z) (height : nat) : nat :=
  Z.to_nat (Z.land (Z.shiftr idx (Z.of_nat (height * HEAPTREEORDERLOG2)))
                   (Z.of_nat HEAPTREEORDER - 1)).

(** [SharedTreeNode::getReadableStoreFor] *)
Fixpoint SharedTreeNode_getReadableStoreFor (height : nat) (this : addr)
    (idx : Z) : M (option (LocStoreRef Val)) :=
  n ← readNode this;
  let i := nextChild idx height in
  match height with
  | O =>
      match children n !! i with
      | None => mret None
      | Some _ => mret (Some (HeapSlot this i))
      end
  | S h =>
      match children n !! i with
      | None => mret None
      | Some c => SharedTreeNode_getReadableStoreFor h c idx
      end
  end.

(** [SharedTreeRoot::getReadableStoreFor] *)
Definition SharedTreeRoot_getReadableStoreFor (this : SharedTreeRoot)
    (v : ShadowValue Val) : M (option (LocStoreRef Val)) :=
  if Nat.eqb (height this) 0 then mret None
  else
    let idx := getHeapKey v in
    if idx <? 0 then mret None
    else
      match root this with
      | None => abort
      | Some r => SharedTreeNode_getReadableStoreFor (height this - 1) r idx
      end.

(** [SharedTreeNode::getWritableNode] *)
Definition getWritableNode (this : addr) (height : nat) : M addr :=
  n ← readNode this;
  if refCount n =? 1 then mret this
  else
    newNode ← new_SharedTreeNode;
    (match height with
     | O =>
         forM_ (seq 0 HEAPTREEORDER) (fun i =>
           n ← readNode this;
           match children n !! i with
           | Some c =>
               c' ← call_getReadableCopy c;
               nn ← readNode newNode;
               writeNode newNode (mkSTN (<[i := c']> (children nn))
                                        (refCount nn))
           | None => mret tt
           end)
     | S _ =>
         forM_ (seq 0 HEAPTREEORDER) (fun i =>
           n ← readNode this;
           match children n !! i with
           | Some c =>
               cn ← readNode c;
               writeNode c (mkSTN (children cn) (refCount cn + 1));;
               nn ← readNode newNode;
               writeNode newNode (mkSTN (<[i := c]> (children nn))
                                        (refCount nn))
           | None => mret tt
           end)
     end);;
    n ← readNode this;
    writeNode this (mkSTN (children n) (refCount n - 1));;
    mret newNode.

(** Two notions for stating what [getWritableNode] does.  [copyLeaves
    ch vh] takes a readable copy of each child below the fan-out, in
    slot order, threading the value-set heap; [slotsHolding ch c k] is
    the number of slots below [k] that hold the pointer [c]. *)
Definition copyLeafStep (ch : gmap nat addr) (acc : gmap nat addr * VHeap)
    (i : nat) : gmap nat addr * VHeap :=
  match ch !! i with
  | Some c =>
      let '(c', vh') := ivs_getReadableCopy c (snd acc) in
      (<[i := c']> (fst acc), vh')
  | None => acc
  end.

Definition copyLeaves (ch : gmap nat addr) (vh : VHeap)
  : gmap nat addr * VHeap :=
  foldl (copyLeafStep ch) (∅, vh) (seq 0 HEAPTREEORDER).

Definition slotsHolding (ch : gmap nat addr) (c : addr) (k : nat) : nat :=
  length (filter (fun i => ch !! i = Some c) (seq 0 k)).

(** [SharedTreeNode::dropReference] *)
Fixpoint SharedTreeNode_dropReference (height : nat) (this : addr)
  : M unit :=
  n ← readNode this;
  writeNode this (mkSTN (children n) (refCount n - 1));;
  if refCount n - 1 =? 0 then
    (match height with
     | O =>
         forM_ (seq 0 HEAPTREEORDER) (fun i =>
           n ← readNode this;
           match children n !! i with
           | Some c => call_dropReference c
           | None => mret tt
           end)
     | S h =>
         forM_ (seq 0 HEAPTREEORDER) (fun i =>
           n ← readNode this;
           match children n !! i with
           | Some c => SharedTreeNode_dropReference h c
           | None => mret tt
           end)
     end);;
    deleteNode this
  else mret tt.

(** [SharedTreeRoot::clear]; the root object is a member of its
    [LocalStoreMap] and is passed and returned by value. *)
Definition SharedTreeRoot_clear (this : SharedTreeRoot) : M SharedTreeRoot :=
  if Nat.eqb (height this) 0 then mret this
  else
    match root this with
    | None => abort
    | Some r =>
        SharedTreeNode_dropReference (height this - 1) r;;
        mret (mkSTR None 0)
    end.

(** [SharedStoreMap::clear]; the cells are visited in the order of
    [map_to_list]. *)
Definition SharedStoreMap_clear (this : addr) : M unit :=
  sm ← readStoreMap this;
  if negb (ssm_refCount sm <=? 1) then abort
  else
    forM_ (map_to_list (store sm)) (fun kv => call_dropReference (snd kv));;
    sm ← readStoreMap this;
    writeStoreMap this (mkSSM ∅ (ssm_refCount sm)).

(** [SharedStoreMap::dropReference] *)
Definition SharedStoreMap_dropReference (this : addr) : M unit :=
  sm ← readStoreMap this;
  writeStoreMap this (mkSSM (store sm) (ssm_refCount sm - 1));;
  if ssm_refCount sm - 1 =? 0 then
    SharedStoreMap_clear this;;
    deleteStoreMap this
  else mret tt.

(** [SharedStoreMap::getEmptyMap] *)
Definition SharedStoreMap_getEmptyMap (this : addr) : M addr :=
  sm ← readStoreMap this;
  if bool_decide (store sm = ∅) then mret this
  else if ssm_refCount sm =? 1 then
    SharedStoreMap_clear this;;
    mret this
  else
    SharedStoreMap_dropReference this;;
    new_SharedStoreMap.

(** [SharedStoreMap::getWritableStoreMap] *)
Definition getWritableStoreMap (this : addr) : M addr :=
  sm ← readStoreMap this;
  if ssm_refCount sm =? 1 then mret this
  else
    newMap ← new_SharedStoreMap;
    forM_ (map_to_list (store sm)) (fun kv =>
      c ← call_getReadableCopy (snd kv);
      nm ← readStoreMap newMap;
      writeStoreMap newMap (mkSSM (<[fst kv := c]> (store nm))
                                  (ssm_refCount nm)));;
    sm ← readStoreMap this;
    writeStoreMap this (mkSSM (store sm) (ssm_refCount sm - 1));;
    mret newMap.

(** The frame loops of [LocalStoreMap]: [frames[i]] for [i] from [i]
    on, [n] times. *)
Definition frameAt (lm : LocalStoreMap) (i : nat) : M addr :=
  match frames lm !! i with
  | Some (Some f) => mret f
  | _ => abort
  end.

(** [LocalStoreMap::empty] *)
Fixpoint LocalStoreMap_empty_loop (fs : list (option addr)) : M bool :=
  match fs with
  | [] => mret true
  | None :: _ => abort
  | Some f :: rest =>
      sm ← readStoreMap f;
      if bool_decide (store sm = ∅) then LocalStoreMap_empty_loop rest
      else mret false
  end.

Definition LocalStoreMap_empty (this : addr) : M bool :=
  lm ← readLocalMap this;
  if negb (Nat.eqb (height (heap lm)) 0) then mret false
  else LocalStoreMap_empty_loop (frames lm).

(** [LocalStoreMap::clear] *)
Definition LocalStoreMap_clear (this : addr) : M unit :=
  lm ← readLocalMap this;
  h ← SharedTreeRoot_clear (heap lm);
  lm ← readLocalMap this;
  writeLocalMap this (mkLSM (frames lm) h (allOthersClobbered lm)
                            (lsm_refCount lm));;
  forM_ (seq 0 (length (frames lm))) (fun i =>
    lm ← readLocalMap this;
    f ← frameAt lm i;
    f' ← SharedStoreMap_getEmptyMap f;
    lm ← readLocalMap this;
    writeLocalMap this (mkLSM (<[i := Some f']> (frames lm)) (heap lm)
                              (allOthersClobbered lm) (lsm_refCount lm))).

(** [LocalStoreMap::createEmptyFrames] *)
Definition createEmptyFrames (this : addr) : M unit :=
  lm ← readLocalMap this;
  forM_ (seq 0 (length (frames lm))) (fun i =>
    f ← new_SharedStoreMap;
    lm ← readLocalMap this;
    writeLocalMap this (mkLSM (<[i := Some f]> (frames lm)) (heap lm)
                              (allOthersClobbered lm) (lsm_refCount lm))).

(** [LocalStoreMap::getEmptyMap] *)
Definition LocalStoreMap_getEmptyMap (this : addr) : M addr :=
  e ← LocalStoreMap_empty this;
  if (e : bool) then mret this
  else
    lm ← readLocalMap this;
    if lsm_refCount lm =? 1 then
      LocalStoreMap_clear this;;
      mret this
    else
      writeLocalMap this (mkLSM (frames lm) (heap lm) (allOthersClobbered lm)
                                (lsm_refCount lm - 1));;
      newMap ← new_LocalStoreMap (length (frames lm));
      createEmptyFrames newMap;;
      mret newMap.

(** Well-formedness of the pointers a snapshot holds.  [wf_tree m h a]:
    [a] is a node of the arena and, above the leaf level, so are its
    children below the fan-out, recursively.  [wf_snapshot m lm]: every
    frame of [lm] is a store map of the arena, and the heap is empty or
    its root is a well-formed tree of the recorded height. *)
Fixpoint wf_tree (m : Memory Val) (h : nat) (a : addr) : Prop :=
  exists n, treeNodes m !! a = Some n /\
    match h with
    | O => True
    | S h' => forall i c, (i < HEAPTREEORDER)%nat ->
                children n !! i = Some c -> wf_tree m h' c
    end.

Definition wf_snapshot (m : Memory Val) (lm : LocalStoreMap) : Prop :=
  Forall (fun f => exists a, f = Some a /\ is_Some (storeMaps m !! a))
         (frames lm) /\
  (height (heap lm) <> 0%nat ->
   exists r, root (heap lm) = Some r
             /\ wf_tree m (height (heap lm) - 1) r).

(** Two relations between a memory and a later one.  [same_shape]: the
    nodes are the same and have the same children (reference counts may
    differ).  [maps_kept]: every store map is still there, and still
    empty if it was. *)
Definition same_shape (m m' : Memory Val) : Prop :=
  forall a, children <$> treeNodes m !! a = children <$> treeNodes m' !! a.

Definition maps_kept (m m' : Memory Val) : Prop :=
  forall a sm, storeMaps m !! a = Some sm ->
    exists sm', storeMaps m' !! a = Some sm'
                /\ (store sm = ∅ -> store sm' = ∅).

(** What a walk over a tree may change: reference counts, the
    value-sets and the record of freed nodes. *)
Definition tree_only (m m' : Memory Val) : Prop :=
  same_shape m m' /\ storeMaps m' = storeMaps m /\
  localMaps m' = localMaps m /\ baseStores m' = baseStores m /\
  freedStoreMaps m' = freedStoreMaps m.

(** A snapshot that gives no location: the heap is empty and so is the
    store of every frame. *)
Definition empty_snapshot (m : Memory Val) (lm : LocalStoreMap) : Prop :=
  height (heap lm) = 0%nat /\
  Forall (fun f => exists a sm, f = Some a /\ storeMaps m !! a = Some sm
                                /\ store sm = ∅)
         (frames lm).

(** The state of the frame loop of [LocalStoreMap::clear] after [k]
    rounds. *)
Definition clearing (this : addr) (n : nat) (rc : Z) (flag : bool)
    (k : nat) (mk : Memory Val) : Prop :=
  exists lmk, localMaps mk !! this = Some lmk
    /\ length (frames lmk) = n /\ height (heap lmk) = 0%nat
    /\ lsm_refCount lmk = rc /\ allOthersClobbered lmk = flag
    /\ (forall j, (j < k)%nat ->
          exists a sm, frames lmk !! j = Some (Some a)
                       /\ storeMaps mk !! a = Some sm /\ store sm = ∅)
    /\ (forall j, (k <= j < n)%nat ->
          exists a, frames lmk !! j = Some (Some a)
                    /\ is_Some (storeMaps mk !! a)).

(** The state of the loop of [LocalStoreMap::createEmptyFrames] after
    [k] rounds. *)
Definition creating (this : addr) (n : nat) (k : nat) (mk : Memory Val)
  : Prop :=
  exists lmk, localMaps mk !! this = Some lmk
    /\ length (frames lmk) = n /\ height (heap lmk) = 0%nat
    /\ lsm_refCount lmk = 1 /\ allOthersClobbered lmk = false
    /\ (forall j, (j < k)%nat ->
          exists a sm, frames lmk !! j = Some (Some a)
                       /\ storeMaps mk !! a = Some sm /\ store sm = ∅).

(** [ShadowBB::getReadableStoreFor] *)
Definition ShadowBB_getReadableStoreFor (bb : ShadowBB)
    (v : ShadowValue Val) : M (option (LocStoreRef Val)) :=
  let frameNo := getFrameNo v in
  lm ← readLocalMap (localStore bb);
  if frameNo =? -1 then SharedTreeRoot_getReadableStoreFor (heap lm) v
  else if frameNo <? 0 then abort
  else
    f ← frameAt lm (Z.to_nat frameNo);
    sm ← readStoreMap f;
    match store sm !! v with
    | None => mret None
    | Some _ => mret (Some (FrameSlot f v))
    end.

End StoreDefs.

Arguments M Val {_ _ _} _ : assert.

(** Functions of [LoadForward.cpp] and of the Integrator headers that
    the store operations below call, but whose bodies the results of
    this file do not depend on.  [readValRangeFrom], [PVToPB],
    [getWritableStoreFor], [replaceRangeWithPB], [replaceRangeWithPBs]
    and [readValRangeMulti] are from [LoadForward.cpp];
    [ImprovedValSetSingle::merge] is from the headers.

    Of [MergeBlockVisitor::mergeStores] the head is embedded below, in
    [call_mergeStores]; two things are left to this class.
    [cellIsOverdefSingle] is its first test, on the value-set at an
    address: [dyn_cast<ImprovedValSetSingle>(store)] succeeds and
    [Overdef] is set.  [mergeStores] is the merge proper of two cells
    that are not null, which reads the cell it merges from and rewrites
    the cell it merges to and the value-sets; it may stop without
    returning. *)
Class StoreCalls (Val : Type) `{Countable Val} `{StoreEnv} : Type := {
  readValRangeFrom :
    ShadowValue Val -> Z -> Z -> ShadowBB -> option addr ->
    ImprovedValSetSingle Val -> string ->
    M Val (ImprovedValSetSingle Val * option (PartialVal Val) * string);
  PVToPB : PartialVal Val -> string -> Z -> ImprovedValSetSingle Val * string;
  getWritableStoreFor :
    ShadowBB -> ShadowValue Val -> Z -> Z -> bool ->
    M Val (ShadowBB * LocStoreRef Val);
  replaceRangeWithPB :
    option addr -> ImprovedValSetSingle Val -> Z -> Z -> M Val unit;
  replaceRangeWithPBs :
    option addr -> list (IVSRange Val) -> Z -> Z -> M Val unit;
  readValRangeMulti :
    ShadowValue Val -> Z -> Z -> ShadowBB -> M Val (list (IVSRange Val));
  IVS_merge :
    ImprovedValSetSingle Val -> ImprovedValSetSingle Val ->
    ImprovedValSetSingle Val;
  cellIsOverdefSingle : addr -> VHeap -> bool;
  mergeStores :
    addr -> addr -> ShadowValue Val -> VHeap -> option (addr * VHeap)
}.

Section StoreWriteDefs.

Context {Val : Type} `{Countable Val} `{StoreEnv} `{Driver Val}
        `{ConstEnv Val} `{!StoreCalls Val}.

(** Modelled from the spec: the default [ImprovedValSetSingle()] of the
    Integrator headers, a set that is not yet initialised. *)
Definition IVS_default : ImprovedValSetSingle Val :=
  mkIVS ValSetTypeUnknown [] false.

(** [llvm::readValRange]: the result and the error string. *)
Definition readValRange (v : ShadowValue Val) (Offset0 Size : Z)
    (ReadBB : ShadowBB) (Result : ImprovedValSetSingle Val) (error : string)
  : M Val (ImprovedValSetSingle Val * string) :=
  firstStore ← ShadowBB_getReadableStoreFor ReadBB v;
  lm ← readLocalMap (localStore ReadBB);
  match firstStore, allOthersClobbered lm with
  | None, true => mret (setOverdef Result, error)
  | _, _ =>
      st ← readSlot (default (BaseSlot v) firstStore);
      '(Result1, ResultPV, error1) ←
        readValRangeFrom v Offset0 Size ReadBB st Result error;
      let '(Result2, error2) :=
        match ResultPV with
        | Some pv => PVToPB pv error1 Size
        | None => (Result1, error1)
        end in
      if isInitialised Result2 then mret (Result2, error2) else abort
  end.

(** The candidate loop of [executeWriteInst] (its last branch). *)
Fixpoint executeWriteInst_loop (vals : list (ImprovedVal Val))
    (ValPB : ImprovedValSetSingle Val) (PtrSize : Z) (StoreBB : ShadowBB)
  : M Val (ShadowBB * ImprovedValSetSingle Val) :=
  match vals with
  | [] => mret (StoreBB, ValPB)
  | it :: rest =>
      if val_is_null (V it) then
        executeWriteInst_loop rest ValPB PtrSize StoreBB
      else if Offset it =? LLONG_MAX then
        '(bb1, Store) ← getWritableStoreFor StoreBB (V it) 0 ULONG_MAX true;
        s ← readSlot Store;
        replaceRangeWithPB s getOverdef 0 ULONG_MAX;;
        executeWriteInst_loop rest ValPB PtrSize bb1
      else
        '(oldValSet, ValPB1) ←
          (if Overdef ValPB then mret (ValPB, ValPB)
           else
             '(old, _) ← readValRange (V it) (u64 (Offset it)) PtrSize
                           StoreBB IVS_default EmptyString;
             ValPB1 ←
               (if negb (Overdef old) && isInitialised old then
                  match Values old !! 0%nat with
                  | None => abort
                  | Some iv0 =>
                      match coerceToType ValPB (getType (V iv0)) PtrSize
                                         EmptyString with
                      | None => abort
                      | Some (_, _, v) => mret v
                      end
                  end
                else mret ValPB);
             mret (IVS_merge old ValPB1, ValPB1));
        '(bb1, Store) ←
          getWritableStoreFor StoreBB (V it) (Offset it) PtrSize true;
        s ← readSlot Store;
        replaceRangeWithPB s oldValSet (u64 (Offset it)) PtrSize;;
        executeWriteInst_loop rest ValPB1 PtrSize bb1
  end.

(** [llvm::executeWriteInst]: the block and [ValPB] as the call leaves
    them. *)
Definition executeWriteInst (PtrSet ValPB : ImprovedValSetSingle Val)
    (PtrSize : Z) (StoreBB : ShadowBB)
  : M Val (ShadowBB * ImprovedValSetSingle Val) :=
  let ValPB := if isInitialised ValPB then ValPB else setOverdef ValPB in
  if Overdef PtrSet then
    p ← LocalStoreMap_getEmptyMap (localStore StoreBB);
    lm ← readLocalMap p;
    writeLocalMap p (mkLSM (frames lm) (heap lm) true (lsm_refCount lm));;
    mret (mkBB p, ValPB)
  else
    match Values PtrSet with
    | [iv] =>
        if negb (Offset iv =? LLONG_MAX) then
          if val_is_null (V iv) then mret (StoreBB, ValPB)
          else
            '(bb1, Store) ←
              getWritableStoreFor StoreBB (V iv) (Offset iv) PtrSize true;
            s ← readSlot Store;
            replaceRangeWithPB s ValPB (u64 (Offset iv)) PtrSize;;
            mret (bb1, ValPB)
        else executeWriteInst_loop (Values PtrSet) ValPB PtrSize StoreBB
    | _ => executeWriteInst_loop (Values PtrSet) ValPB PtrSize StoreBB
    end.

(** [llvm::executeCopyInst] *)
Definition executeCopyInst (PtrSet SrcPtrSet : ImprovedValSetSingle Val)
    (Size : Z) (BB : ShadowBB) : M Val ShadowBB :=
  if (Size =? ULONG_MAX) || Overdef PtrSet
     || negb (Nat.eqb (length (Values PtrSet)) 1)
     || Overdef SrcPtrSet
     || negb (Nat.eqb (length (Values SrcPtrSet)) 1)
  then
    r ← executeWriteInst PtrSet getOverdef Size BB;
    mret (fst r)
  else
    match Values SrcPtrSet !! 0%nat, Values PtrSet !! 0%nat with
    | Some src, Some dst =>
        if val_is_null (V src) then mret BB
        else if val_is_null (V dst) then mret BB
        else
          copyValues ← readValRangeMulti (V src) (Offset src) Size BB;
          let OffDiff := s64 (Offset dst - Offset src) in
          let copyValues :=
            map (fun r : IVSRange Val =>
                   ((u64 (fst (fst r) + OffDiff),
                     u64 (snd (fst r) + OffDiff)), snd r)) copyValues in
          '(bb1, Store) ←
            getWritableStoreFor BB (V dst) (Offset dst) Size
              (Nat.eqb (length copyValues) 1);
          s ← readSlot Store;
          replaceRangeWithPBs s copyValues (u64 (Offset dst)) Size;;
          mret bb1
    | _, _ => abort
    end.

(** ** Merging stack frames *)

(** Pointers are ordered by address, null first. *)
Definition ptr_key (p : option addr) : nat :=
  match p with
  | None => 0%nat
  | Some a => S a
  end.

Definition ptr_le (p q : option addr) : Prop :=
  (ptr_key p <= ptr_key q)%nat.

#[global] Instance ptr_le_dec (p q : option addr) : Decision (ptr_le p q).
Proof. unfold ptr_le. apply _. Defined.





Fixpoint mapM_M {A B} (f : A -> M Val B) (l : list A) : M Val (list B) :=
  match l with
  | [] => mret []
  | x :: rest => y ← f x; ys ← mapM_M f rest; mret (y :: ys)
  end.

Definition deref (p : option addr) : M Val addr :=
  match p with
  | Some a => mret a
  | None => abort
  end.











Definition flagOf (m : Memory Val) (p : addr) : bool :=
  default false (allOthersClobbered <$> localMaps m !! p).





End StoreWriteDefs.


(** * Example environments

    Small concrete environments and inputs, on which the definitions
    above can be evaluated. *)

(** ** Values that are numbers *)

(** The driver of a program with one function.  Value 0 is the null
    pointer constant; instruction 7 is an alloca of the frame at depth
    0; [UnknownSize] is LLVM's [~0]. *)
Definition ex_Driver : Driver nat := {|
  inst_invar i := i;
  inst_ctx _ := InlineAttempt 0%nat;
  inst_allocIdx i := Z.of_nat i;
  gv_allocIdx g := Z.of_nat g;
  inst_isAlloca i := Nat.eqb i 7;
  inst_stack_depth _ := 0;
  isConstantPointerNull v := Nat.eqb v 0;
  UnknownSize := 2 ^ 64 - 1
|}.

(** Constants that are 64-bit integers, read as little-endian bytes.
    No implicit cast is allowed. *)
Definition ex_ConstEnv : ConstEnv nat := {|
  dyn_cast_Constant v :=
    match v with
    | SHADOWVAL_OTHER c => Some c
    | _ => None
    end;
  ReadDataFromGlobal c off buf :=
    Some (map (fun i => (Z.of_nat c / 256 ^ (off + Z.of_nat i)) mod 256)
              (seq 0 (length buf)));
  constFromBytes bytes _ :=
    Z.to_nat (fold_right (fun b acc => b + 256 * acc) 0 bytes);
  getType _ := IntegerTy 64;
  allowTotalDefnImplicitCast _ _ := false;
  allowTotalDefnImplicitPtrToInt _ _ := false;
  indeterminate _ := 0
|}.

(** A heap tree of fan-out 2; the value-sets are not looked into, a
    readable copy of one is the set itself. *)
Definition ex_StoreEnv : StoreEnv := {|
  HEAPTREEORDER := 2;
  HEAPTREEORDERLOG2 := 1;
  VHeap := unit;
  ivs_getReadableCopy p vh := (p, vh);
  ivs_dropReference _ vh := vh
|}.

Section Examples.

#[local] Existing Instance ex_Driver.
#[local] Existing Instance ex_ConstEnv.
#[local] Existing Instance ex_StoreEnv.

(** The calls whose bodies are not part of this file abort; no cell is
    overdefined, and a merge of two cells keeps the target's. *)
Definition ex_StoreCalls : StoreCalls nat := {|
  readValRangeFrom _ _ _ _ _ _ _ := abort;
  PVToPB _ error _ := (getOverdef, error);
  getWritableStoreFor _ _ _ _ _ := abort;
  replaceRangeWithPB _ _ _ _ := abort;
  replaceRangeWithPBs _ _ _ _ := abort;
  readValRangeMulti _ _ _ _ := abort;
  IVS_merge a _ := a;
  cellIsOverdefSingle _ _ := false;
  mergeStores _ cur _ vh := Some (cur, vh)
|}.

#[local] Existing Instance ex_StoreCalls.

(** *** Pointer sets *)

(** Global 1 at offset 0 and at offset 4; the null pointer. *)
Definition ex_gv_0 : ImprovedVal nat := mkIV (SHADOWVAL_GV 1%nat) 0.
Definition ex_gv_4 : ImprovedVal nat := mkIV (SHADOWVAL_GV 1%nat) 4.
Definition ex_null : ImprovedVal nat := mkIV (SHADOWVAL_OTHER 0%nat) 0.

Definition ex_pb_0 : ImprovedValSetSingle nat := IVS_get ex_gv_0 ValSetTypePB.
Definition ex_pb_4 : ImprovedValSetSingle nat := IVS_get ex_gv_4 ValSetTypePB.
Definition ex_pb_null : ImprovedValSetSingle nat :=
  IVS_get ex_null ValSetTypePB.

(** The property of alias queries read literally, for one candidate of
    each set: overlapping ranges on aliasing bases exclude the answer
    [SVNoAlias], whatever the sizes. *)
Definition overlap_excludes_NoAlias
    (PB1 : ImprovedValSetSingle nat) (V1Size : Z)
    (PB2 : ImprovedValSetSingle nat) (V2Size : Z)
    (IV1 IV2 : ImprovedVal nat) : Prop :=
  In IV1 (Values PB1) -> In IV2 (Values PB2) ->
  basesAlias (V IV1) (V IV2) = Some true ->
  rangesOverlap (Offset IV1) V1Size (Offset IV2) V2Size ->
  tryResolveImprovedValSetSingles PB1 V1Size PB2 V2Size <> Some SVNoAlias.

(** *** Partial values *)

(** Four bytes of which the first two are defined; a total value that
    is an instruction; a total value that is the constant 258; a set
    holding the constant 258. *)
Definition ex_bytes_pv : PartialVal nat :=
  mkPV PVByteArray (mkIV SHADOWVAL_INVAL 0) ValSetTypeUnknown None 0
       (Some [1; 2; 0; 0]) (Some [true; true; false; false]) 4 false.

Definition ex_inst_pv : PartialVal nat :=
  mkPV PVTotal (mkIV (SHADOWVAL_INST 3%nat) 0) ValSetTypePB None 0
       None None 0 false.

Definition ex_const_pv : PartialVal nat :=
  mkPV PVTotal (mkIV (SHADOWVAL_OTHER 258%nat) 0) ValSetTypeScalar None 0
       None None 0 false.

(** The property of [isComplete] read literally, for one value: it
    holds exactly when every byte of the requested range is marked
    defined in the validity mask, or the value is in one of the two
    lightweight forms. *)
Definition complete_iff_all_defined (pv : PartialVal nat) : Prop :=
  isComplete pv = true <->
  (forall j : nat, Z.of_nat j < partialBufBytes pv ->
     validAt pv j = Some true)
  \/ isTotal pv = true \/ isPartial pv = true.

(** One byte that is marked defined in an array whose flag
    [loadFinished] is not set: a value that no call of [combineWith]
    leaves. *)
Definition ex_unfinished_pv : PartialVal nat :=
  mkPV PVByteArray (mkIV SHADOWVAL_INVAL 0) ValSetTypeUnknown None 0
       (Some [1]) (Some [true]) 1 false.

(** What [combineWith] makes of the four bytes and of the constant
    when the constant fills the whole range. *)
Definition ex_bytes_done : PartialVal nat :=
  mkPV PVByteArray (mkIV SHADOWVAL_INVAL 0) ValSetTypeUnknown None 0
       (Some [1; 2; 0; 0]) (Some [true; true; true; true]) 4 true.

Definition ex_const_partial : PartialVal nat :=
  mkPV PVPartial (mkIV (SHADOWVAL_OTHER 258%nat) 0) ValSetTypeScalar
       (Some 258%nat) 0 None None 0 false.

Definition ex_scalar_258 : ImprovedValSetSingle nat :=
  IVS_get (mkIV (SHADOWVAL_OTHER 258%nat) 0) ValSetTypeScalar.

(** *** Stores *)

(** A leaf node held by two snapshots, with value-sets 5 and 6. *)
Definition ex_shared_leaf : SharedTreeNode :=
  mkSTN (<[0%nat := 5%nat]> (<[1%nat := 6%nat]> ∅)) 2.

Definition ex_mem_tree : Memory nat :=
  mkMem (<[0%nat := ex_shared_leaf]> ∅) ∅ ∅ ∅ tt ∅ ∅.

(** One snapshot with one frame, which holds the alloca 7. *)
Definition ex_snapshot : LocalStoreMap :=
  mkLSM [Some 0%nat] (mkSTR None 0) false 1.

Definition ex_mem_frame : Memory nat :=
  mkMem ∅ (<[0%nat := mkSSM (<[SHADOWVAL_INST 7%nat := 5%nat]> ∅) 1]> ∅)
        (<[0%nat := ex_snapshot]> ∅) ∅ tt ∅ ∅.

(** The property of copies read literally: with a single null source
    or destination candidate, the copy leaves the memory as it was,
    whatever the other set and the size. *)
Definition null_copy_changes_nothing
    (PtrSet SrcPtrSet : ImprovedValSetSingle nat) (Size : Z)
    (BB : ShadowBB) (m : Memory nat) : Prop :=
  (exists src, Values SrcPtrSet = [src] /\ val_is_null (V src) = true)
  \/ (exists dst, Values PtrSet = [dst] /\ val_is_null (V dst) = true) ->
  exists BB', executeCopyInst PtrSet SrcPtrSet Size BB m = Some (BB', m).

(** The property of writes read literally: through a set that has
    candidates, all of them the null pointer, the write leaves the
    memory as it was. *)
Definition null_write_changes_nothing
    (PtrSet ValPB : ImprovedValSetSingle nat) (Size : Z)
    (BB : ShadowBB) (m : Memory nat) : Prop :=
  Values PtrSet <> [] ->
  (forall iv, In iv (Values PtrSet) -> val_is_null (V iv) = true) ->
  exists r, executeWriteInst PtrSet ValPB Size BB m = Some (r, m).

(** A set that holds the null pointer and has the flag [Overdef] set. *)
Definition ex_pb_null_overdef : ImprovedValSetSingle nat :=
  mkIVS ValSetTypePB [ex_null] true.

(** Two snapshots with one frame each: the target's holds the allocas
    7 and 8, the incoming one, whose flag is set, the alloca 7. *)
Definition ex_store_78 : gmap (ShadowValue nat) addr :=
  <[SHADOWVAL_INST 7%nat := 10%nat]> (<[SHADOWVAL_INST 8%nat := 11%nat]> ∅).

Definition ex_store_7 : gmap (ShadowValue nat) addr :=
  <[SHADOWVAL_INST 7%nat := 12%nat]> ∅.



(** The same two frames the other way round and no flag set: the
    target's frame holds the alloca 7, the incoming one the allocas 7
    and 8, and the alloca 8 has a base store. *)
Definition ex_mem_seed : Memory nat :=
  mkMem ∅
        (<[0%nat := mkSSM ex_store_7 1]> (<[1%nat := mkSSM ex_store_78 1]> ∅))
        (<[0%nat := mkLSM [Some 0%nat] (mkSTR None 0) false 1]>
           (<[1%nat := mkLSM [Some 1%nat] (mkSTR None 0) false 1]> ∅))
        (<[SHADOWVAL_INST 8%nat := 20%nat]> ∅) tt ∅ ∅.

End Examples.

(** ** Constants with structure *)

(** A target on which an integer takes its bytes, a pointer eight
    bytes, an array of integers or of pointers the sum of its elements,
    and the struct [{i32, i8}] eight bytes: its members are at offsets 0
    and 4 and three bytes of padding follow the second. *)
Definition ex_int_size (bits : Z) : Z := (bits + 7) / 8.

Definition ex_type_size (ty : Ty) : Z :=
  match ty with
  | IntegerTy bits => ex_int_size bits
  | PointerTy => 8
  | ArrayTy n (IntegerTy bits) => n * ex_int_size bits
  | ArrayTy n PointerTy => n * 8
  | StructTy [IntegerTy a; IntegerTy b] =>
      if (a =? 32) && (b =? 8) then 8 else 0
  | _ => 0
  end.

Definition ex_DataLayout : DataLayout := {|
  getTypeStoreSize := ex_type_size;
  getTypeAllocSize := ex_type_size;
  getStructLayout ty :=
    match ty with
    | StructTy [IntegerTy a; IntegerTy b] =>
        if (a =? 32) && (b =? 8) then Some (mkSL [0; 4] 8) else None
    | _ => None
    end;
  getValPB c := (ValSetTypeScalar, mkIV (SHADOWVAL_OTHER c) 0);
  ConstantArray_get ty elts := ConstantArray ty elts
|}.

(** The bytes of a constant: the payload of a plain constant, zeros
    for undef, the elements of an array one after the other, and the
    members of a struct each in four bytes. *)
Fixpoint ex_bytes (c : Constant) : list Z :=
  match c with
  | ConstantOther _ payload => payload
  | UndefValue ty => replicate (Z.to_nat (ex_type_size ty)) 0
  | ConstantArray _ elts => concat (map ex_bytes elts)
  | ConstantStruct _ elts =>
      concat (map (fun e => resize 4 0 (ex_bytes e)) elts)
  end.

Definition ex_ConstEnvC : ConstEnv Constant := {|
  dyn_cast_Constant v :=
    match v with
    | SHADOWVAL_OTHER c => Some c
    | _ => None
    end;
  ReadDataFromGlobal c off buf :=
    Some (imap (fun i old => default old (ex_bytes c !! (Z.to_nat off + i)%nat))
               buf);
  constFromBytes bytes ty := ConstantOther ty bytes;
  getType v :=
    match v with
    | SHADOWVAL_OTHER c => Constant_getType c
    | _ => PointerTy
    end;
  allowTotalDefnImplicitCast _ _ := false;
  allowTotalDefnImplicitPtrToInt _ _ := false;
  indeterminate _ := 0
|}.

(** A 32-bit integer; the struct [{i32, i8}]; an array of four
    pointers, the addresses of four globals (LLVM keeps an array of
    plain integers as a data array, which is not a [ConstantArray]). *)
Definition ex_i32 : Constant := ConstantOther (IntegerTy 32) [1; 2; 3; 4].
Definition ex_i8 : Constant := ConstantOther (IntegerTy 8) [5].

Definition ex_struct : Constant :=
  ConstantStruct (StructTy [IntegerTy 32; IntegerTy 8]) [ex_i32; ex_i8].

Definition ex_ptr (n : Z) : Constant :=
  ConstantOther PointerTy [n; 0; 0; 0; 0; 0; 0; 0].

Definition ex_array : Constant :=
  ConstantArray (ArrayTy 4 PointerTy)
                [ex_ptr 10; ex_ptr 11; ex_ptr 12; ex_ptr 13].

(** The set that holds one constant. *)
Definition ex_const_set (c : Constant) : ImprovedValSetSingle Constant :=
  IVS_get (mkIV (SHADOWVAL_OTHER c) 0) ValSetTypeScalar.

(** ** Constants of more than 4 GiB *)

(** The constant 0 cannot be read.  Every other constant [c] is a run
    of zero bytes in which the first byte is [c - 1] and the byte at
    index [2 ^ 32] is one.  No implicit cast is allowed. *)
Definition ex_ConstEnv_big : ConstEnv nat := {|
  dyn_cast_Constant v :=
    match v with
    | SHADOWVAL_OTHER c => Some c
    | _ => None
    end;
  ReadDataFromGlobal c off buf :=
    if Nat.eqb c 0 then None
    else
      Some (imap (fun i _ =>
                    if off + Z.of_nat i =? 2 ^ 32 then 1
                    else if off + Z.of_nat i =? 0 then Z.of_nat c - 1
                    else 0)
                 buf);
  constFromBytes _ _ := 0%nat;
  getType _ := IntegerTy 64;
  allowTotalDefnImplicitCast _ _ := false;
  allowTotalDefnImplicitPtrToInt _ _ := false;
  indeterminate _ := 0
|}.

Section BigExamples.

#[local] Existing Instance ex_ConstEnv_big.




End BigExamples.

(** * More of [LoadForward.cpp]

    The functions around those above: the test that selects loads for
    the multi-candidate path, the write path of the heap tree, the stack
    of frames of a snapshot, and the commit of a store to the base
    stores. *)

(** ** Candidate sets *)

Section MoreAliasDefs.

Context {Val : Type} `{EqDecision Val} `{Driver Val}.

(** The candidates of a list that are not the null pointer. *)
Definition nonNulls (vals : list (ImprovedVal Val)) : list (ImprovedVal Val) :=
  filter (fun iv => val_is_null (V iv) = false) vals.

(** The candidate loop of [shouldMultiload]: [None] is the early
    [return false] at a candidate with a vague offset, otherwise the
    loop leaves the counter [numNonNulls], a [uint32_t]. *)
Fixpoint shouldMultiload_loop (vals : list (ImprovedVal Val))
    (numNonNulls : Z) : option Z :=
  match vals with
  | [] => Some numNonNulls
  | iv :: rest =>
      if val_is_null (V iv) then shouldMultiload_loop rest numNonNulls
      else if Offset iv =? LLONG_MAX then None
      else shouldMultiload_loop rest ((numNonNulls + 1) mod 2 ^ 32)
  end.

(** [shouldMultiload] *)
Definition shouldMultiload (PB : ImprovedValSetSingle Val) : bool :=
  if Overdef PB || Nat.eqb (length (Values PB)) 0 then false
  else if negb (bool_decide (SetType PB = ValSetTypePB)) then false
  else
    match shouldMultiload_loop (Values PB) 0 with
    | None => false
    | Some numNonNulls => numNonNulls >=? 1
    end.

End MoreAliasDefs.

(** ** Building a value from pieces *)

(** [cast<ConstantInt>(C)->getLimitedValue()], which asserts on a
    constant that is not an integer. *)
Class SplatEnv (Val : Type) : Type := {
  getLimitedValue : Val -> option Z
}.

(** One round of the loop of [readValRangeFrom] that builds a result
    from the entries of a map: the value-set of the entry and the three
    numbers handed to [addIVSToPartialVal]. *)
Record Piece {Val : Type} : Type := mkPiece {
  pIVS : ImprovedValSetSingle Val;
  pIVSOffset : Z;
  pPVOffset : Z;
  pSize : Z
}.
Arguments Piece : clear implicits.
Arguments mkPiece {Val} _ _ _ _.

Section MorePartialValDefs.

Context {Val : Type} `{ConstEnv Val} `{SplatEnv Val}.

(** Modelled from the spec: the factory [PartialVal::getByteArray] is
    declared in the Integrator headers; it builds the byte array of the
    given size, as the constructor [PartialVal(uint64_t)] does. *)
Definition PartialVal_getByteArray (size : Z) : PartialVal Val :=
  PartialVal_new size.

(** The splat loop of [addIVSToPartialVal], [n] rounds from index [i]
    on: [buffer[i] = SplatVal; validBuf[i] = true]. *)
Fixpoint splatLoop (n i : nat) (SplatVal : Z) (buffer : list Z)
    (validBuf : list bool) : option (list Z * list bool) :=
  match n with
  | O => Some (buffer, validBuf)
  | S n' =>
      if decide (i < length buffer /\ i < length validBuf)%nat then
        splatLoop n' (S i) SplatVal (<[i := SplatVal]> buffer)
                  (<[i := true]> validBuf)
      else None
  end.

(** [llvm::addIVSToPartialVal]: the flag, the error string and [*PV] as
    the call leaves them. *)
Definition addIVSToPartialVal (IVS : ImprovedValSetSingle Val)
    (IVSOffset PVOffset Size : Z) (PV : PartialVal Val) (error : string)
  : option (bool * string * PartialVal Val) :=
  if negb (isByteArray PV) then None
  else if Overdef IVS || negb (Nat.eqb (length (Values IVS)) 1)
  then Some (false, error, PV)
  else if negb (bool_decide (SetType IVS = ValSetTypeScalar))
          && negb (bool_decide (SetType IVS = ValSetTypeScalarSplat))
  then Some (false, error, PV)
  else
    iv0 ← Values IVS !! 0%nat;
    DefC ← dyn_cast_Constant (V iv0);
    NewPV ←
      (if bool_decide (SetType IVS = ValSetTypeScalar)
       then Some (getPartial DefC IVSOffset)
       else
         lv ← getLimitedValue DefC;
         let SplatVal := lv mod 2 ^ 8 in
         let NewPV := PartialVal_getByteArray Size in
         buffer ← partialBuf NewPV;
         validBuf ← partialValidBuf NewPV;
         '(buffer', validBuf') ←
           splatLoop (Z.to_nat Size) 0 SplatVal buffer validBuf;
         Some (mkPV (type NewPV) (TotalIV NewPV) (TotalIVType NewPV)
                    (C NewPV) (ReadOffset NewPV) (Some buffer')
                    (Some validBuf') (partialBufBytes NewPV) true));
    '(ok, error', PV', _) ←
      combineWith PV NewPV PVOffset (u64 (PVOffset + Size))
                  (partialBufBytes PV) error;
    Some (ok, error', PV').

(** Successive calls of [addIVSToPartialVal] on one result, as the loop
    of [readValRangeFrom] issues them for the entries it walks.  A call
    that returns [false] ends the loop and the result is dropped
    ([Some None]). *)
Fixpoint addPieces (pieces : list (Piece Val)) (ResultPV : PartialVal Val)
    (error : string) : option (option (PartialVal Val)) :=
  match pieces with
  | [] => Some (Some ResultPV)
  | p :: rest =>
      '(ok, error', PV') ←
        addIVSToPartialVal (pIVS p) (pIVSOffset p) (pPVOffset p) (pSize p)
                           ResultPV error;
      if (ok : bool) then addPieces rest PV' error' else Some None
  end.

(** The bytes a piece stands for: those read from the constant of a
    scalar from [pIVSOffset] on, or the byte of a splat repeated. *)
Definition pieceBytes (p : Piece Val) : option (list Z) :=
  let n := Z.to_nat (pSize p) in
  match Values (pIVS p) with
  | [iv0] =>
      if Overdef (pIVS p) then None
      else
        DefC ← dyn_cast_Constant (V iv0);
        match SetType (pIVS p) with
        | ValSetTypeScalar =>
            resize n 0
              <$> ReadDataFromGlobal DefC (pIVSOffset p) (replicate n 0)
        | ValSetTypeScalarSplat =>
            lv ← getLimitedValue DefC; Some (replicate n (lv mod 2 ^ 8))
        | _ => None
        end
  | _ => None
  end.

(** Byte [j] of the result lies in the range of the piece. *)
Definition covers (j : nat) (p : Piece Val) : bool :=
  (pPVOffset p <=? Z.of_nat j) && (Z.of_nat j <? pPVOffset p + pSize p).

(** A piece that can be added to a result of [N] bytes: its bytes can
    be had and its range is a non-empty part of [[0, N)]. *)
Definition fits (N : Z) (p : Piece Val) : Prop :=
  is_Some (pieceBytes p) /\ 0 <= pPVOffset p /\ 0 < pSize p
  /\ pPVOffset p + pSize p <= N.

(** The byte that the first piece covering [j] gives for it. *)
Definition firstByte (pieces : list (Piece Val)) (j : nat) : option Z :=
  p ← find (covers j) pieces;
  bytes ← pieceBytes p;
  bytes !! (j - Z.to_nat (pPVOffset p))%nat.

(** A byte array for a load of [N] bytes: the validity mask has [N]
    entries and the buffer at least [N] bytes. *)
Definition pv_shape (N : Z) (pv : PartialVal Val) : Prop :=
  type pv = PVByteArray /\ partialBufBytes pv = N /\
  exists valid buf,
    partialValidBuf pv = Some valid /\ partialBuf pv = Some buf
    /\ length valid = Z.to_nat N /\ (Z.to_nat N <= length buf)%nat.

End MorePartialValDefs.

(** ** Sub-values of constants *)

Section MoreConstDefs.

Context `{DataLayout} `{ConstEnv Constant}.

(** [llvm::getConstSubVal]: [Result] as the call leaves it.  The flag
    and the error string of [coerceToType] are dropped. *)
Definition getConstSubVal (fuel : nat) (FromC : Constant)
    (Offset TargetSize : Z) (TargetType : option Ty)
    (Result : ImprovedValSetSingle Constant)
  : option (ImprovedValSetSingle Constant) :=
  subVals ← getConstSubVals fuel FromC Offset TargetSize (s64 (- Offset)) [];
  if negb (Nat.eqb (length subVals) 1) then
    C ← valsToConst subVals TargetSize TargetType;
    match C with
    | Some c => let '(t, iv) := getValPB c in Some (IVS_get iv t)
    | None => Some (setOverdef Result)
    end
  else
    r0 ← subVals !! 0%nat;
    match TargetType with
    | Some ty =>
        '(_, _, Result') ← coerceToType (snd r0) ty TargetSize EmptyString;
        Some Result'
    | None => Some (snd r0)
    end.

(** The constant that stands for itself: [getValPB] gives a candidate
    whose value is the constant. *)
Definition standsForItself (c : Constant) : Prop :=
  dyn_cast_Constant (V (snd (getValPB c))) = Some c.

End MoreConstDefs.

(** ** The write path of the heap tree *)

Section MoreStoreDefs.

Context {Val : Type} `{Countable Val} `{StoreEnv} `{Driver Val}.

(** An assignment to the [->store] of a [LocStore*]. *)
Definition writeSlot (s : LocStoreRef Val) (p : addr) : M Val unit :=
  match s with
  | HeapSlot node i =>
      n ← readNode node;
      writeNode node (mkSTN (<[i := p]> (children n)) (refCount n))
  | FrameSlot map key =>
      sm ← readStoreMap map;
      writeStoreMap map (mkSSM (<[key := p]> (store sm)) (ssm_refCount sm))
  | BaseSlot key =>
      fun m => Some (tt, mkMem (treeNodes m) (storeMaps m) (localMaps m)
                               (<[key := p]> (baseStores m)) (valSets m)
                               (freedNodes m) (freedStoreMaps m))
  end.

(** [SharedTreeNode::getOrCreateStoreFor]: the slot and [*isNewStore].
    The node is written in place, its caller having made it
    writable. *)
Fixpoint SharedTreeNode_getOrCreateStoreFor (height : nat) (this : addr)
    (idx : Z) : M Val (LocStoreRef Val * bool) :=
  let i := nextChild idx height in
  match height with
  | O =>
      n ← readNode this;
      mret (HeapSlot this i, bool_decide (children n !! i = None))
  | S h =>
      n ← readNode this;
      child ← match children n !! i with
              | None => new_SharedTreeNode
              | Some c => getWritableNode c h
              end;
      n ← readNode this;
      writeNode this (mkSTN (<[i := child]> (children n)) (refCount n));;
      SharedTreeNode_getOrCreateStoreFor h child idx
  end.

(** [getRequiredHeight]: the number of rounds of the [do ... while]
    loop.  An index of 32 bits is used up after 32 rounds at the
    latest, unless a round shifts by nothing and the loop never ends;
    [None] is that case. *)
Fixpoint getRequiredHeight_loop (fuel : nat) (idx : Z) (height : nat)
  : option nat :=
  match fuel with
  | O => None
  | S fuel' =>
      let idx := Z.shiftr idx (Z.of_nat HEAPTREEORDERLOG2) in
      let height := S height in
      if idx =? 0 then Some height
      else getRequiredHeight_loop fuel' idx height
  end.

Definition getRequiredHeight (idx : Z) : option nat :=
  getRequiredHeight_loop 32 idx 0.

(** The loop of [SharedTreeRoot::growToHeight], [n] rounds. *)
Fixpoint growToHeight_loop (n : nat) (root : option addr)
  : M Val (option addr) :=
  match n with
  | O => mret root
  | S n' =>
      newNode ← new_SharedTreeNode;
      (match root with
       | Some r =>
           nn ← readNode newNode;
           writeNode newNode (mkSTN (<[0%nat := r]> (children nn))
                                    (refCount nn))
       | None => mret tt
       end);;
      growToHeight_loop n' (Some newNode)
  end.

(** [SharedTreeRoot::growToHeight]; the number of rounds is the
    difference of two [uint32_t]. *)
Definition SharedTreeRoot_growToHeight (this : SharedTreeRoot)
    (newHeight : nat) : M Val SharedTreeRoot :=
  let ilim := (Z.of_nat newHeight - Z.of_nat (height this)) mod 2 ^ 32 in
  r ← growToHeight_loop (Z.to_nat ilim) (root this);
  mret (mkSTR r newHeight).

(** [SharedTreeRoot::grow] *)
Definition SharedTreeRoot_grow (this : SharedTreeRoot) (idx : Z)
  : M Val SharedTreeRoot :=
  match getRequiredHeight idx with
  | None => abort
  | Some newHeight => SharedTreeRoot_growToHeight this newHeight
  end.

(** [SharedTreeRoot::mustGrowFor].  The capacity is computed by a shift
    of an [int], which has no defined result for a count of 32 or more,
    and is then cast to [uint32_t].  A root that is not null has a
    height of at least 1; at height 0 the expression [height - 1] wraps
    around, and the model stops. *)
Definition mustGrowFor (this : SharedTreeRoot) (idx : Z) : option bool :=
  let count := ((height this - 1) * HEAPTREEORDERLOG2)%nat in
  if Nat.eqb (height this) 0 then None
  else if (32 <=? count)%nat then None
  else Some (idx >=? Z.shiftl (Z.of_nat HEAPTREEORDER) (Z.of_nat count)
                       mod 2 ^ 32).

(** [SharedTreeRoot::getOrCreateStoreFor]: the root object as the call
    leaves it, the slot and [*isNewStore]. *)
Definition SharedTreeRoot_getOrCreateStoreFor (this : SharedTreeRoot)
    (v : ShadowValue Val) : M Val (SharedTreeRoot * LocStoreRef Val * bool) :=
  let idx := getHeapKey v in
  if idx <? 0 then abort
  else
    this' ←
      match root this with
      | None =>
          r ← new_SharedTreeNode;
          match getRequiredHeight idx with
          | None => abort
          | Some h => mret (mkSTR (Some r) h)
          end
      | Some r =>
          match mustGrowFor this idx with
          | None => abort
          | Some true => SharedTreeRoot_grow this idx
          | Some false =>
              r' ← getWritableNode r (height this - 1);
              mret (mkSTR (Some r') (height this))
          end
      end;
    match root this' with
    | None => abort
    | Some r =>
        '(slot, isNew) ←
          SharedTreeNode_getOrCreateStoreFor (height this' - 1) r idx;
        mret (this', slot, isNew)
    end.

(** The nodes of the arena are in levels: the children of a node of
    level [L + 1] are nodes of level [L].  Every node is referred to at
    least once. *)
Definition stratified (m : Memory Val) (lev : addr -> nat) : Prop :=
  forall a n L i c,
    treeNodes m !! a = Some n -> lev a = S L -> children n !! i = Some c ->
    lev c = L /\ is_Some (treeNodes m !! c).

Definition counted (m : Memory Val) : Prop :=
  forall a n, treeNodes m !! a = Some n -> 1 <= refCount n.

(** The walk from node [a] at height [h] along the digits of [idx]
    ends at the leaf slot [slot]. *)
Fixpoint leads_to (m : Memory Val) (h : nat) (a : addr) (idx : Z)
    (slot : LocStoreRef Val) : Prop :=
  match h with
  | O => slot = HeapSlot a (nextChild idx 0) /\ is_Some (treeNodes m !! a)
  | S h' =>
      exists n c, treeNodes m !! a = Some n
        /\ children n !! nextChild idx (S h') = Some c
        /\ leads_to m h' c idx slot
  end.

(** [stands_for m m' lev' L a a']: the node [a'] of the later memory
    [m'], of level [L], has a child (at the leaf level, a value-set)
    wherever the node [a] of [m] has one below the fan-out, and each
    child of [a'] stands for the child of [a] in the same way. *)
Fixpoint stands_for (m m' : Memory Val) (lev' : addr -> nat) (L : nat)
    (a a' : addr) : Prop :=
  lev' a' = L /\
  exists n n', treeNodes m !! a = Some n /\ treeNodes m' !! a' = Some n' /\
    match L with
    | O =>
        forall j, (j < HEAPTREEORDER)%nat ->
          is_Some (children n !! j) -> is_Some (children n' !! j)
    | S L' =>
        forall j g, (j < HEAPTREEORDER)%nat -> children n !! j = Some g ->
          exists g', children n' !! j = Some g'
                     /\ stands_for m m' lev' L' g g'
    end.

(** A heap whose tree is in order: the root, if there is one, is a node
    of the level below the height, which is at least 1; an empty heap
    has height 0. *)
Definition rooted (m : Memory Val) (lev : addr -> nat)
    (hp : SharedTreeRoot) : Prop :=
  match root hp with
  | Some r =>
      (1 <= height hp)%nat /\ lev r = (height hp - 1)%nat
      /\ is_Some (treeNodes m !! r)
  | None => height hp = 0%nat
  end.

End MoreStoreDefs.

(** ** The stack of frames of a snapshot *)

Definition s32 (z : Z) : Z := (z + 2 ^ 31) mod 2 ^ 32 - 2 ^ 31.

Section MoreFrameDefs.

Context {Val : Type} `{Countable Val} `{StoreEnv} `{Driver Val}.

(** [LocalStoreMap::copyFramesFrom]: [this] borrows the heap and the
    frames of [other], one reference each. *)
Definition LocalStoreMap_copyFramesFrom (this other : addr) : M Val unit :=
  o ← readLocalMap other;
  lm ← readLocalMap this;
  writeLocalMap this (mkLSM (frames lm) (heap o) (allOthersClobbered lm)
                            (lsm_refCount lm));;
  (match root (heap o) with
   | Some r =>
       n ← readNode r;
       writeNode r (mkSTN (children n) (refCount n + 1))
   | None => mret tt
   end);;
  lm ← readLocalMap this;
  forM_ (seq 0 (length (frames lm))) (fun i =>
    o ← readLocalMap other;
    match frames o !! i with
    | None => abort
    | Some f =>
        lm ← readLocalMap this;
        writeLocalMap this (mkLSM (<[i := f]> (frames lm)) (heap lm)
                                  (allOthersClobbered lm) (lsm_refCount lm));;
        fa ← deref f;
        sm ← readStoreMap fa;
        writeStoreMap fa (mkSSM (store sm) (ssm_refCount sm + 1))
    end).

(** [LocalStoreMap::getWritableFrameList] *)
Definition getWritableFrameList (this : addr) : M Val addr :=
  lm ← readLocalMap this;
  if lsm_refCount lm =? 1 then mret this
  else
    newMap ← new_LocalStoreMap (length (frames lm));
    LocalStoreMap_copyFramesFrom newMap this;;
    lm ← readLocalMap this;
    nm ← readLocalMap newMap;
    writeLocalMap newMap (mkLSM (frames nm) (heap nm) (allOthersClobbered lm)
                                (lsm_refCount nm));;
    lm ← readLocalMap this;
    writeLocalMap this (mkLSM (frames lm) (heap lm) (allOthersClobbered lm)
                              (lsm_refCount lm - 1));;
    mret newMap.

(** [LocalStoreMap::getWritableFrame]: the map whose [store] the call
    returns. *)
Definition getWritableFrame (this : addr) (frameNo : Z) : M Val addr :=
  lm ← readLocalMap this;
  if negb ((0 <=? frameNo)
           && (frameNo <? s32 (Z.of_nat (length (frames lm)))))
  then abort
  else
    f ← frameAt lm (Z.to_nat frameNo);
    f' ← getWritableStoreMap f;
    lm ← readLocalMap this;
    writeLocalMap this (mkLSM (<[Z.to_nat frameNo := Some f']> (frames lm))
                              (heap lm) (allOthersClobbered lm)
                              (lsm_refCount lm));;
    mret f'.

(** [LocalStoreMap::pushStackFrame] *)
Definition LocalStoreMap_pushStackFrame (this : addr) : M Val unit :=
  f ← new_SharedStoreMap;
  lm ← readLocalMap this;
  writeLocalMap this (mkLSM (frames lm ++ [Some f]) (heap lm)
                            (allOthersClobbered lm) (lsm_refCount lm)).

(** [LocalStoreMap::popStackFrame] *)
Definition LocalStoreMap_popStackFrame (this : addr) : M Val unit :=
  lm ← readLocalMap this;
  match last (frames lm) with
  | None => abort
  | Some back =>
      f ← deref back;
      SharedStoreMap_dropReference f;;
      lm ← readLocalMap this;
      writeLocalMap this (mkLSM (removelast (frames lm)) (heap lm)
                                (allOthersClobbered lm) (lsm_refCount lm))
  end.

(** [ShadowBB::pushStackFrame], [ShadowBB::popStackFrame]: the block as
    the call leaves it. *)
Definition ShadowBB_pushStackFrame (bb : ShadowBB) : M Val ShadowBB :=
  p ← getWritableFrameList (localStore bb);
  LocalStoreMap_pushStackFrame p;;
  mret (mkBB p).

Definition ShadowBB_popStackFrame (bb : ShadowBB) : M Val ShadowBB :=
  p ← getWritableFrameList (localStore bb);
  LocalStoreMap_popStackFrame p;;
  mret (mkBB p).

(** [llvm::commitFrameToBase]; the cells are visited in the order of
    [map_to_list]. *)
Definition commitFrameToBase (Map : addr) : M Val unit :=
  sm ← readStoreMap Map;
  forM_ (map_to_list (store sm)) (fun kv =>
    base ← readSlot (BaseSlot (fst kv));
    b ← deref base;
    call_dropReference b;;
    c ← call_getReadableCopy (snd kv);
    writeSlot (BaseSlot (fst kv)) c).

(** The number of slots of a frame list that hold the map [a]. *)
Definition framesHolding (fs : list (option addr)) (a : addr) : nat :=
  length (filter (fun f => f = Some a) fs).

(** The pointers of a snapshot lead somewhere: every frame is a store
    map of the arena and so is the root of the heap, if there is one. *)
Definition snapshot_held (m : Memory Val) (lm : LocalStoreMap) : Prop :=
  Forall (fun f => exists a, f = Some a /\ is_Some (storeMaps m !! a))
         (frames lm)
  /\ forall r, root (heap lm) = Some r -> is_Some (treeNodes m !! r).

(** One more reference on the root of a heap. *)
Definition shareRoot (hp : SharedTreeRoot)
    (T : gmap addr SharedTreeNode) : gmap addr SharedTreeNode :=
  match root hp with
  | Some r =>
      match T !! r with
      | Some n => <[r := mkSTN (children n) (refCount n + 1)]> T
      | None => T
      end
  | None => T
  end.

End MoreFrameDefs.

(** ** Further example inputs *)

(** The limited value of a constant that is a number is the number. *)
Definition ex_SplatEnv : SplatEnv nat := {|
  getLimitedValue c := Some (Z.of_nat c)
|}.

(** Two pieces for a load of four bytes: the constant 258, read from
    its first byte on, for the bytes 0 and 1, and a splat of the byte 7
    for the bytes 1 to 3. *)
Definition ex_piece_const : Piece nat := mkPiece ex_scalar_258 0 0 2.

Definition ex_piece_splat : Piece nat :=
  mkPiece (IVS_get (mkIV (SHADOWVAL_OTHER 7%nat) 0) ValSetTypeScalarSplat)
          0 1 3.

Section MoreExamples.

#[local] Existing Instance ex_Driver.
#[local] Existing Instance ex_StoreEnv.

(** The heap whose tree is the shared leaf alone, of height 1; every
    node of it is at level 0. *)
Definition ex_heap : SharedTreeRoot := mkSTR (Some 0%nat) 1.

Definition ex_lev (a : addr) : nat := 0%nat.

(** The snapshot with one frame, held twice. *)
Definition ex_snapshot_twice : LocalStoreMap :=
  mkLSM [Some 0%nat] (mkSTR None 0) false 2.

Definition ex_mem_twice : Memory nat :=
  mkMem ∅ (<[0%nat := mkSSM (<[SHADOWVAL_INST 7%nat := 5%nat]> ∅) 1]> ∅)
        (<[0%nat := ex_snapshot_twice]> ∅) ∅ tt ∅ ∅.

(** A frame that holds the alloca 8 in cell 11, and a base store for
    the alloca 8 in cell 20. *)
Definition ex_mem_commit : Memory nat :=
  mkMem ∅ (<[0%nat := mkSSM (<[SHADOWVAL_INST 8%nat := 11%nat]> ∅) 1]> ∅)
        ∅ (<[SHADOWVAL_INST 8%nat := 20%nat]> ∅) tt ∅ ∅.

End MoreExamples.
(** * Part II: lemmas and theorems *)

(** ** Machine integers *)

Lemma s64_id z : is_int64 z -> s64 z = z.
Proof.
  unfold is_int64, s64. intros Hz.
  rewrite Z.mod_small by lia. lia.
Qed.

Lemma u64_id z : is_uint64 z -> u64 z = z.
Proof. unfold is_uint64, u64. intros Hz. apply Z.mod_small. lia. Qed.

(** ** Alias resolution *)

Section AliasFacts.

Context {Val : Type} `{EqDecision Val} `{Driver Val}.

Lemma aliasInner_continue V1Size V2Size (IV1 : ImprovedVal Val) vals2 :
  aliasInner V1Size V2Size IV1 vals2 = Some None ->
  forall IV2, In IV2 vals2 -> aliasStep V1Size V2Size IV1 IV2 = Some None.
Proof.
  induction vals2 as [|x rest IH]; simpl; intros Hrun IV2 Hin.
  - contradiction.
  - destruct (aliasStep V1Size V2Size IV1 x) as [[r|]|] eqn:Hx;
      try discriminate.
    destruct Hin as [->|Hin]; auto.
Qed.

Lemma aliasOuter_continue V1Size V2Size (vals1 vals2 : list (ImprovedVal Val)) :
  aliasOuter V1Size V2Size vals1 vals2 = Some None ->
  forall IV1 IV2, In IV1 vals1 -> In IV2 vals2 ->
    aliasStep V1Size V2Size IV1 IV2 = Some None.
Proof.
  induction vals1 as [|x rest IH]; simpl; intros Hrun IV1 IV2 H1 H2.
  - contradiction.
  - destruct (aliasInner V1Size V2Size x vals2) as [[r|]|] eqn:Hx;
      try discriminate.
    destruct H1 as [->|H1].
    + eapply aliasInner_continue; eauto.
    + eapply IH; eauto.
Qed.

(** A pair with aliasing bases whose ranges intersect is never passed
    over by the loop body, as long as [Offset + Size] stays in the
    signed 64-bit range wherever the size is known. *)
Lemma aliasStep_overlap V1Size V2Size (IV1 IV2 : ImprovedVal Val) :
  basesAlias (V IV1) (V IV2) = Some true ->
  is_int64 (Offset IV1) -> is_int64 (Offset IV2) ->
  0 <= V1Size -> 0 <= V2Size ->
  (V1Size <> UnknownSize -> Offset IV1 + V1Size < 2 ^ 63) ->
  (V2Size <> UnknownSize -> Offset IV2 + V2Size < 2 ^ 63) ->
  rangesOverlap (Offset IV1) V1Size (Offset IV2) V2Size ->
  aliasStep V1Size V2Size IV1 IV2 = Some (Some SVPartialAlias).
Proof.
  intros Hb Ho1 Ho2 Hs1 Hs2 Hw1 Hw2 [Hlt1 Hlt2].
  unfold aliasStep. rewrite Hb.
  destruct ((Offset IV1 =? LLONG_MAX) || (Offset IV2 =? LLONG_MAX));
    [reflexivity|].
  assert (Hd1 : negb (V2Size =? UnknownSize)
                && (Offset IV1 >=? s64 (Offset IV2 + V2Size)) = false).
  { destruct (Z.eqb_spec V2Size UnknownSize) as [|Hne]; [reflexivity|].
    simpl. rewrite s64_id by (unfold is_int64 in *; specialize (Hw2 Hne); lia).
    rewrite Z.geb_leb. apply Z.leb_gt. lia. }
  assert (Hd2 : negb (V1Size =? UnknownSize)
                && (s64 (Offset IV1 + V1Size) <=? Offset IV2) = false).
  { destruct (Z.eqb_spec V1Size UnknownSize) as [|Hne]; [reflexivity|].
    simpl. rewrite s64_id by (unfold is_int64 in *; specialize (Hw1 Hne); lia).
    apply Z.leb_gt. lia. }
  rewrite Hd1, Hd2. reflexivity.
Qed.

(** C5, as the code has it: for two value-sets holding candidates with
    aliasing bases and intersecting byte ranges [[Offset, Offset +
    Size)], [tryResolveImprovedValSetSingles] never answers [SVNoAlias],
    provided that for each known size [Offset + Size] does not exceed
    the signed 64-bit range in which the code compares. *)
Theorem tryResolve_overlap_not_NoAlias
    (PB1 PB2 : ImprovedValSetSingle Val) (V1Size V2Size : Z)
    (IV1 IV2 : ImprovedVal Val) :
  In IV1 (Values PB1) -> In IV2 (Values PB2) ->
  basesAlias (V IV1) (V IV2) = Some true ->
  is_int64 (Offset IV1) -> is_int64 (Offset IV2) ->
  0 <= V1Size -> 0 <= V2Size ->
  (V1Size <> UnknownSize -> Offset IV1 + V1Size < 2 ^ 63) ->
  (V2Size <> UnknownSize -> Offset IV2 + V2Size < 2 ^ 63) ->
  rangesOverlap (Offset IV1) V1Size (Offset IV2) V2Size ->
  tryResolveImprovedValSetSingles PB1 V1Size PB2 V2Size <> Some SVNoAlias.
Proof.
  intros Hin1 Hin2 Hb Ho1 Ho2 Hs1 Hs2 Hw1 Hw2 Hov.
  unfold tryResolveImprovedValSetSingles.
  destruct ((V1Size =? V2Size) && PBsMustAliasIfStoredAndLoaded PB1 PB2);
    [discriminate|].
  destruct (aliasOuter V1Size V2Size (Values PB1) (Values PB2))
    as [[r|]|] eqn:Hrun; [|intros _|discriminate].
  - (* the loops returned: only [SVPartialAlias] is ever returned *)
    intros Heq. injection Heq as ->.
    clear -Hrun. revert Hrun.
    generalize (Values PB1) as l1. induction l1 as [|x l1 IH]; simpl.
    + discriminate.
    + destruct (aliasInner V1Size V2Size x (Values PB2)) as [[r|]|] eqn:Hi;
        try discriminate; [|exact IH].
      intros Heq. injection Heq as ->.
      revert Hi. generalize (Values PB2) as l2.
      induction l2 as [|y l2 IH2]; simpl; [discriminate|].
      destruct (aliasStep V1Size V2Size x y) as [[r|]|] eqn:Hs;
        try discriminate; [|exact IH2].
      intros Heq. injection Heq as ->.
      unfold aliasStep in Hs.
      destruct (basesAlias (V x) (V y)) as [[]|]; try discriminate.
      repeat match type of Hs with
             | (if ?c then _ else _) = _ => destruct c; try discriminate
             end.
  - (* the loops ran to the end: impossible, the pair stops them *)
    pose proof (aliasOuter_continue _ _ _ _ Hrun IV1 IV2 Hin1 Hin2) as Hc.
    rewrite (aliasStep_overlap V1Size V2Size IV1 IV2) in Hc by assumption.
    discriminate.
Qed.

End AliasFacts.

(** ** The partial-value assembler *)

Section PartialValFacts.

Context {Val : Type} `{ConstEnv Val}.

(** The first loop leaves alone every byte that is marked valid. *)
Lemma copyLoop_keeps_valid n : forall i FirstDef valid tempBuf buf buf',
  copyLoop n i FirstDef valid tempBuf buf = Some buf' ->
  length buf' = length buf /\
  forall j, valid !! j = Some true -> buf' !! j = buf !! j.
Proof.
  induction n as [|n IH]; intros i FirstDef valid tempBuf buf buf' Hrun;
    simpl in Hrun.
  - injection Hrun as <-. auto.
  - destruct (valid !! Z.to_nat (u64 (FirstDef + Z.of_nat i))) as [b|] eqn:Hb;
      simpl in Hrun; [|discriminate].
    destruct b; simpl in Hrun.
    + apply IH in Hrun. exact Hrun.
    + destruct (tempBuf !! i) as [t|]; simpl in Hrun; [|discriminate].
      destruct (decide (Z.to_nat (u64 (FirstDef + Z.of_nat i)) < length buf)%nat)
        as [Hlt|]; simpl in Hrun; [|discriminate].
      apply IH in Hrun as [Hlen Hkeep]. split.
      * rewrite Hlen. apply length_insert.
      * intros j Hj. rewrite Hkeep by exact Hj.
        apply list_lookup_insert_ne. intros <-. congruence.
Qed.

(** Without wrap-around the first loop is a masked copy of [tempBuf]
    into the window that starts at [FirstDef + i]. *)
Lemma copyLoop_spec n : forall i FirstDef valid tempBuf buf buf',
  0 <= FirstDef -> FirstDef + Z.of_nat (i + n) <= 2 ^ 64 ->
  copyLoop n i FirstDef valid tempBuf buf = Some buf' ->
  forall j,
    buf' !! j =
      if decide (Z.to_nat FirstDef + i <= j < Z.to_nat FirstDef + i + n)%nat
      then match valid !! j with
           | Some false => tempBuf !! (j - Z.to_nat FirstDef)%nat
           | _ => buf !! j
           end
      else buf !! j.
Proof.
  induction n as [|n IH]; intros i FirstDef valid tempBuf buf buf' H0 Hb Hrun j;
    simpl in Hrun.
  - injection Hrun as <-. destruct decide; [lia|reflexivity].
  - assert (Hidx : Z.to_nat (u64 (FirstDef + Z.of_nat i))
                   = (Z.to_nat FirstDef + i)%nat).
    { unfold u64. rewrite Z.mod_small by lia. lia. }
    rewrite Hidx in Hrun.
    assert (Hb' : FirstDef + Z.of_nat (S i + n) <= 2 ^ 64) by lia.
    destruct (valid !! (Z.to_nat FirstDef + i)%nat) as [b|] eqn:Hv;
      simpl in Hrun; [|discriminate].
    destruct b; simpl in Hrun.
    + rewrite (IH _ _ _ _ _ _ H0 Hb' Hrun j).
      repeat destruct decide; try lia; try reflexivity.
      assert (j = (Z.to_nat FirstDef + i)%nat) as -> by lia.
      rewrite Hv. reflexivity.
    + destruct (tempBuf !! i) as [t|] eqn:Ht; simpl in Hrun; [|discriminate].
      destruct (decide (Z.to_nat FirstDef + i < length buf)%nat) as [Hlt|];
        simpl in Hrun; [|discriminate].
      rewrite (IH _ _ _ _ _ _ H0 Hb' Hrun j).
      repeat destruct decide; try lia.
      * rewrite list_lookup_insert_ne by lia. reflexivity.
      * assert (j = (Z.to_nat FirstDef + i)%nat) as -> by lia.
        rewrite Hv, list_lookup_insert_eq by lia.
        replace (Z.to_nat FirstDef + i - Z.to_nat FirstDef)%nat with i by lia.
        symmetry. exact Ht.
      * rewrite list_lookup_insert_ne by lia. reflexivity.
Qed.

(** The first loop runs to its end when every index it touches is
    inside the three arrays. *)
Lemma copyLoop_total n : forall i FirstDef valid tempBuf buf,
  0 <= FirstDef -> FirstDef + Z.of_nat (i + n) <= 2 ^ 64 ->
  (Z.to_nat FirstDef + i + n <= length valid)%nat ->
  (Z.to_nat FirstDef + i + n <= length buf)%nat ->
  (i + n <= length tempBuf)%nat ->
  exists buf', copyLoop n i FirstDef valid tempBuf buf = Some buf'.
Proof.
  induction n as [|n IH]; intros i FirstDef valid tempBuf buf H0 Hb Hv Hbuf Ht;
    simpl.
  - eauto.
  - assert (Hidx : Z.to_nat (u64 (FirstDef + Z.of_nat i))
                   = (Z.to_nat FirstDef + i)%nat).
    { unfold u64. rewrite Z.mod_small by lia. lia. }
    rewrite Hidx.
    destruct (lookup_lt_is_Some_2 valid (Z.to_nat FirstDef + i)%nat) as [b ->];
      [lia|]. simpl.
    destruct b; simpl.
    + apply IH; lia.
    + destruct (lookup_lt_is_Some_2 tempBuf i) as [t ->]; [lia|]. simpl.
      destruct decide; [|lia]. simpl.
      apply IH; try lia. rewrite length_insert. lia.
Qed.

(** The second loop: it marks the window [[FirstDef, FirstNotDef)] and
    reports whether every byte outside the window was already valid. *)
Lemma validLoop_spec fuel :
  forall i FirstDef FirstNotDef LoadSize valid fin valid' fin',
  0 <= i -> Z.of_nat fuel = LoadSize - i ->
  validLoop fuel i FirstDef FirstNotDef LoadSize valid fin
    = Some (valid', fin') ->
  length valid' = length valid /\
  (forall j : nat,
     valid' !! j =
       if decide (i <= Z.of_nat j < LoadSize
                  /\ FirstDef <= Z.of_nat j < FirstNotDef)
       then Some true
       else valid !! j) /\
  (fin' = true <->
   fin = true /\
   forall j : nat, i <= Z.of_nat j < LoadSize ->
     ~ (FirstDef <= Z.of_nat j < FirstNotDef) -> valid !! j = Some true).
Proof.
  induction fuel as [|fuel IH];
    intros i FirstDef FirstNotDef LoadSize valid fin valid' fin' Hi Hf Hrun;
    simpl in Hrun.
  - injection Hrun as <- <-. split; [reflexivity|]. split.
    + intros j. destruct decide; [lia|reflexivity].
    + split; [intros ->; split; [reflexivity|intros; lia]|tauto].
  - destruct ((i <? LoadSize) && (fin || (i <? FirstNotDef))) eqn:Hc.
    2:{ (* early exit: not finished, and past the window *)
      injection Hrun as <- <-.
      apply andb_false_iff in Hc as [Hc|Hc]; [apply Z.ltb_ge in Hc; lia|].
      apply orb_false_iff in Hc as [-> Hc]. apply Z.ltb_ge in Hc.
      split; [reflexivity|]. split.
      - intros j. destruct decide; [lia|reflexivity].
      - split; [discriminate|intros [? _]; discriminate]. }
    apply andb_true_iff in Hc as [Hlt Hc]. apply Z.ltb_lt in Hlt.
    destruct ((i >=? FirstDef) && (i <? FirstNotDef)) eqn:Hw.
    + apply andb_true_iff in Hw as [Hw1 Hw2].
      rewrite Z.geb_leb in Hw1. apply Z.leb_le in Hw1. apply Z.ltb_lt in Hw2.
      destruct (decide (Z.to_nat i < length valid)%nat) as [Hin|];
        [|discriminate].
      apply IH in Hrun as (Hlen & Hlook & Hfin); [|lia|lia].
      rewrite length_insert in Hlen. split; [exact Hlen|]. split.
      * intros j. rewrite Hlook.
        destruct (decide (j = Z.to_nat i)) as [->|Hne].
        -- rewrite list_lookup_insert_eq by lia.
           repeat destruct decide; try lia; reflexivity.
        -- rewrite list_lookup_insert_ne by lia.
           repeat destruct decide; try lia; reflexivity.
      * rewrite Hfin. split; intros [Hfin1 Hall]; (split; [exact Hfin1|]).
        -- intros j Hj Hnw.
           rewrite <- (Hall j) by lia.
           symmetry. apply list_lookup_insert_ne. lia.
        -- intros j Hj Hnw.
           rewrite list_lookup_insert_ne by lia. apply Hall; lia.
    + assert (Hnw : ~ (FirstDef <= i < FirstNotDef)).
      { apply andb_false_iff in Hw as [Hw|Hw].
        - rewrite Z.geb_leb in Hw. apply Z.leb_gt in Hw. lia.
        - apply Z.ltb_ge in Hw. lia. }
      destruct (valid !! Z.to_nat i) as [b|] eqn:Hb; simpl in Hrun;
        [|discriminate].
      apply IH in Hrun as (Hlen & Hlook & Hfin); [|lia|lia].
      split; [exact Hlen|]. split.
      * intros j. rewrite Hlook.
        repeat destruct decide; try lia; try reflexivity.
      * rewrite Hfin. split.
        -- intros [Hfin1 Hall]. destruct b; [|discriminate].
           split; [exact Hfin1|]. intros j Hj Hjw.
           destruct (decide (j = Z.to_nat i)) as [->|Hne]; [exact Hb|].
           apply Hall; lia.
        -- intros [-> Hall].
           rewrite (Hall (Z.to_nat i)) in Hb by lia.
           injection Hb as <-. split; [reflexivity|].
           intros j Hj Hjw. apply Hall; lia.
Qed.

(** What a call of [combineWith] that does not adopt [Other] whole can
    do: fail with the error of the byte source and leave the buffer as
    it was, or run both loops on the bytes of the source. *)
Lemma combineWith_inv (this Other : PartialVal Val) FirstDef FirstNotDef
    LoadSize error ok error' this' Other' :
  isEmpty this && (FirstDef =? 0)
    && (u64 (FirstNotDef - FirstDef) =? LoadSize) = false ->
  combineWith this Other FirstDef FirstNotDef LoadSize error
    = Some (ok, error', this', Other') ->
  let this1 := if isEmpty this then initByteArray this LoadSize else this in
  let n := Z.to_nat (u64 (FirstNotDef - FirstDef)) in
  isByteArray this1 = true /\
  ((ok = false /\ this' = this1
    /\ byteSource Other n = Some (inl (error', Other')))
   \/
   (ok = true /\ error' = error /\
    exists valid buf tempBuf buf' valid' fin,
      byteSource Other n = Some (inr (Other', tempBuf)) /\
      partialValidBuf this1 = Some valid /\
      partialBuf this1 = Some buf /\
      FirstDef < partialBufBytes this1 /\
      FirstNotDef <= partialBufBytes this1 /\
      copyLoop n 0 FirstDef valid tempBuf buf = Some buf' /\
      validLoop (Z.to_nat LoadSize) 0 FirstDef FirstNotDef LoadSize valid true
        = Some (valid', fin) /\
      this' = mkPV (type this1) (TotalIV this1) (TotalIVType this1) (C this1)
                   (ReadOffset this1) (Some buf') (Some valid')
                   (partialBufBytes this1) fin)).
Proof.
  intros Hna Hrun this1 n. unfold combineWith in Hrun. rewrite Hna in Hrun.
  fold this1 n in Hrun.
  destruct (isByteArray this1) eqn:Hba; simpl in Hrun; [|discriminate].
  split; [reflexivity|].
  destruct (byteSource Other n) as [[[e O1]|[O1 tempBuf]]|] eqn:HS;
    [| |discriminate].
  { injection Hrun as <- <- <- <-. left. repeat split. }
  destruct (FirstDef <? partialBufBytes this1) eqn:H1; simpl in Hrun;
    [|discriminate].
  destruct (FirstNotDef <=? partialBufBytes this1) eqn:H2; simpl in Hrun;
    [|discriminate].
  apply Z.ltb_lt in H1. apply Z.leb_le in H2.
  destruct (partialValidBuf this1) as [valid|] eqn:Hv; simpl in Hrun;
    [|discriminate].
  destruct (partialBuf this1) as [buf|] eqn:Hb; simpl in Hrun;
    [|discriminate].
  destruct (copyLoop _ _ _ _ _ _) as [buf'|] eqn:Hc; simpl in Hrun;
    [|discriminate].
  destruct (validLoop _ _ _ _ _ _ _) as [[valid' fin]|] eqn:Hl; simpl in Hrun;
    [|discriminate].
  injection Hrun as <- <- <- <-. right.
  split; [reflexivity|]. split; [reflexivity|].
  exists valid, buf, tempBuf, buf', valid', fin. repeat split; auto.
Qed.

Lemma isByteArray_not_isEmpty (pv : PartialVal Val) :
  isByteArray pv = true -> isEmpty pv = false.
Proof. unfold isByteArray, isEmpty. destruct (type pv); congruence. Qed.

(** C3: on a [PartialVal] in byte-array form, [combineWith] keeps
    every byte that was marked defined before the call; a byte can only
    change inside [[FirstDef, FirstNotDef)] and only where it was not
    yet marked defined; a failing call leaves [this] untouched; and a
    total [Other] whose value is not a constant makes the call return
    [false] with an error, having written nothing. *)
Theorem combineWith_first_writer_wins (this Other : PartialVal Val)
    (FirstDef FirstNotDef LoadSize : Z) (error : string) :
  isByteArray this = true ->
  (isTotal Other = true -> dyn_cast_Constant (V (TotalIV Other)) = None ->
   combineWith this Other FirstDef FirstNotDef LoadSize error
     = Some (false, "PP2"%string, this, Other)) /\
  (forall ok error' this' Other',
     combineWith this Other FirstDef FirstNotDef LoadSize error
       = Some (ok, error', this', Other') ->
     (ok = false -> this' = this) /\
     (forall j, validAt this j = Some true -> byteAt this' j = byteAt this j) /\
     (0 <= FirstDef <= FirstNotDef -> FirstNotDef < 2 ^ 64 ->
      forall j, byteAt this' j <> byteAt this j ->
        FirstDef <= Z.of_nat j < FirstNotDef /\ validAt this j = Some false)).
Proof.
  intros Hba. pose proof (isByteArray_not_isEmpty _ Hba) as Hne. split.
  - intros HT HC. unfold combineWith, byteSource.
    rewrite Hne, Hba, HT, HC. reflexivity.
  - intros ok error' this' Other' Hrun.
    apply combineWith_inv in Hrun; [|rewrite Hne; reflexivity].
    rewrite Hne in Hrun. destruct Hrun as [_ [(-> & -> & _)|Hok]].
    { split; [reflexivity|]. split; [reflexivity|].
      intros _ _ j Hj. contradiction. }
    destruct Hok as (-> & -> & valid & buf & tempBuf & buf' & valid' & fin
                     & _ & Hv & Hb & H1 & H2 & Hc & Hl & ->).
    split; [discriminate|]. unfold byteAt, validAt. simpl. rewrite Hv, Hb.
    simpl. split.
    + intros j Hj. apply (copyLoop_keeps_valid _ _ _ _ _ _ _ Hc). exact Hj.
    + intros Hr Hlt j Hj.
      assert (Hn : u64 (FirstNotDef - FirstDef) = FirstNotDef - FirstDef)
        by (apply u64_id; unfold is_uint64; lia).
      rewrite Hn in Hc.
      assert (Hw : FirstDef + Z.of_nat (0 + Z.to_nat (FirstNotDef - FirstDef))
                   <= 2 ^ 64) by lia.
      rewrite (copyLoop_spec _ _ _ _ _ _ _ (proj1 Hr) Hw Hc j) in Hj.
      destruct decide as [Hin|]; [|contradiction].
      destruct (valid !! j) as [[]|] eqn:Hvj; try contradiction.
      split; [lia|reflexivity].
Qed.

Lemma PV_assign_fields (this Other this' : PartialVal Val) :
  PV_assign this Other = Some this' ->
  type this' = type Other /\
  loadFinished this' = loadFinished Other /\
  partialBufBytes this' = partialBufBytes Other /\
  (forall j, (j < Z.to_nat (partialBufBytes Other))%nat ->
     validAt this' j = validAt Other j /\ byteAt this' j = byteAt Other j) /\
  (is_Some (partialBuf Other) -> is_Some (partialBuf this')).
Proof.
  unfold PV_assign. intros Hrun.
  destruct (match partialBuf Other with Some _ => _ | None => _ end)
    as [pb|] eqn:Hpb; simpl in Hrun; [|discriminate].
  destruct (match partialValidBuf Other with Some _ => _ | None => _ end)
    as [pv|] eqn:Hpv; simpl in Hrun; [|discriminate].
  injection Hrun as <-. simpl. repeat split; unfold validAt, byteAt; simpl.
  - destruct (partialValidBuf Other) as [ov|]; [|injection Hpv as <-; done].
    unfold memcpy in Hpv. destruct decide; [|discriminate].
    injection Hpv as <-. simpl.
    rewrite lookup_app_l by (rewrite length_take; lia).
    apply lookup_take_lt. lia.
  - destruct (partialBuf Other) as [ob|]; [|injection Hpb as <-; done].
    unfold memcpy in Hpb. destruct decide; [|discriminate].
    injection Hpb as <-. simpl.
    rewrite lookup_app_l by (rewrite length_take; lia).
    apply lookup_take_lt. lia.
  - intros [ob Hob]. rewrite Hob in Hpb.
    destruct (memcpy _ ob _); [|discriminate]. injection Hpb as <-. eauto.
Qed.

(** C8: [isComplete] holds for the two lightweight forms, and for a
    byte array it is the flag [loadFinished], which every successful
    [combineWith] sets so that it holds exactly when every byte of the
    requested range [[0, LoadSize)] is marked defined in the validity
    mask.  (An empty value that adopts [Other] whole takes over its
    form, its flag and its mask.)  Hence the invariant of the byte
    arrays that the code builds for a load of at least one byte, from
    the constructor on and through any calls of [combineWith]: such a
    value is complete exactly when every byte of the load is marked
    defined. *)
Theorem isComplete_exactly_when_defined :
  (forall pv : PartialVal Val,
     isTotal pv = true \/ isPartial pv = true -> isComplete pv = true) /\
  (forall pv : PartialVal Val,
     isByteArray pv = true -> isComplete pv = loadFinished pv) /\
  (forall (this Other : PartialVal Val) FirstDef FirstNotDef LoadSize
          error error' this' Other',
     0 <= LoadSize ->
     combineWith this Other FirstDef FirstNotDef LoadSize error
       = Some (true, error', this', Other') ->
     if isEmpty this && (FirstDef =? 0)
        && (u64 (FirstNotDef - FirstDef) =? LoadSize)
     then
       type this' = type Other /\ isComplete this' = isComplete Other /\
       forall j, (j < Z.to_nat (partialBufBytes Other))%nat ->
         validAt this' j = validAt Other j
     else
       isByteArray this' = true /\
       (isComplete this' = true <->
        forall j : nat, Z.of_nat j < LoadSize -> validAt this' j = Some true)) /\
  (forall (N : Z) (pv : PartialVal Val),
     0 < N -> assembled N pv ->
     isByteArray pv = true /\ partialBufBytes pv = N /\
     (isComplete pv = true <->
      forall j : nat, Z.of_nat j < N -> validAt pv j = Some true)).
Proof.
  assert (P3 : forall (this Other : PartialVal Val) FirstDef FirstNotDef
                      LoadSize error error' this' Other',
     0 <= LoadSize ->
     combineWith this Other FirstDef FirstNotDef LoadSize error
       = Some (true, error', this', Other') ->
     if isEmpty this && (FirstDef =? 0)
        && (u64 (FirstNotDef - FirstDef) =? LoadSize)
     then
       type this' = type Other /\ isComplete this' = isComplete Other /\
       forall j, (j < Z.to_nat (partialBufBytes Other))%nat ->
         validAt this' j = validAt Other j
     else
       isByteArray this' = true /\
       (isComplete this' = true <->
        forall j : nat, Z.of_nat j < LoadSize ->
          validAt this' j = Some true)).
  { intros this Other FirstDef FirstNotDef LoadSize error error' this' Other'
           HLS Hrun.
    destruct (isEmpty this && (FirstDef =? 0)
              && (u64 (FirstNotDef - FirstDef) =? LoadSize)) eqn:Had.
    + unfold combineWith in Hrun. rewrite Had in Hrun.
      destruct (PV_assign this Other) as [t|] eqn:Ha; simpl in Hrun;
        [|discriminate].
      injection Hrun as <- <- <-.
      apply PV_assign_fields in Ha as (Hty & Hlf & _ & Hbufs & _).
      split; [exact Hty|]. split.
      * unfold isComplete, isTotal, isPartial. rewrite Hty, Hlf. reflexivity.
      * intros j Hj. apply Hbufs. exact Hj.
    + apply combineWith_inv in Hrun; [|exact Had].
      destruct Hrun as [Hba [(Hf & _)|Hok]]; [discriminate|].
      destruct Hok as (_ & _ & valid & buf & tempBuf & buf' & valid' & fin
                       & _ & Hv & Hb & H1 & H2 & Hc & Hl & ->).
      split; [exact Hba|].
      unfold isComplete, isTotal, isPartial, isByteArray, validAt in *. simpl.
      destruct (type (if isEmpty this then _ else _)); try discriminate.
      simpl.
      apply validLoop_spec in Hl as (_ & Hlook & Hfin); [|lia|lia].
      rewrite Hfin. split.
      * intros [_ Hall] j Hj. rewrite Hlook.
        destruct decide; [reflexivity|]. apply Hall; lia.
      * intros Hall. split; [reflexivity|]. intros j Hj Hnw.
        specialize (Hall j ltac:(lia)). rewrite Hlook in Hall.
        destruct decide; [lia|exact Hall]. }
  split; [|split; [|split; [exact P3|]]].
  - intros pv [Hpv|Hpv]; unfold isComplete; rewrite Hpv;
      [reflexivity|destruct (isTotal pv); reflexivity].
  - intros pv Hpv. unfold isComplete, isTotal, isPartial, isByteArray in *.
    destruct (type pv); try discriminate. reflexivity.
  - intros N pv HN Hasm.
    induction Hasm as [|this Other FirstDef FirstNotDef error ok error'
                        this' Other' Hprev IH Hrun].
    + split; [reflexivity|]. split; [reflexivity|]. split.
      * discriminate.
      * intros Hall. specialize (Hall 0%nat ltac:(lia)).
        unfold validAt, PartialVal_new, initByteArray in Hall.
        simpl in Hall. rewrite lookup_replicate_2 in Hall by lia.
        discriminate.
    + destruct IH as (Hba & Hbytes & Hiff).
      assert (Hne : isEmpty this = false).
      { unfold isEmpty, isByteArray in *. destruct (type this);
          try discriminate; reflexivity. }
      assert (Had : isEmpty this && (FirstDef =? 0)
                    && (u64 (FirstNotDef - FirstDef) =? N) = false)
        by (rewrite Hne; reflexivity).
      destruct ok.
      * pose proof (P3 this Other FirstDef FirstNotDef N error error' this'
                       Other' ltac:(lia) Hrun) as H3.
        rewrite Had in H3. destruct H3 as [Hba' Hiff'].
        split; [exact Hba'|]. split; [|exact Hiff'].
        apply combineWith_inv in Hrun; [|exact Had].
        rewrite Hne in Hrun.
        destruct Hrun as [_ [(Hf & _)|Hok]]; [discriminate|].
        destruct Hok as (_ & _ & valid & buf & tempBuf & buf' & valid' & fin
                         & _ & _ & _ & _ & _ & _ & _ & ->).
        exact Hbytes.
      * apply combineWith_inv in Hrun; [|exact Had].
        rewrite Hne in Hrun.
        destruct Hrun as [_ [(_ & -> & _)|(Hf & _)]]; [|discriminate].
        auto.
Qed.

Lemma validLoop_total fuel :
  forall i FirstDef FirstNotDef LoadSize valid fin,
  0 <= i -> Z.of_nat fuel = LoadSize - i ->
  (Z.to_nat LoadSize <= length valid)%nat ->
  exists r, validLoop fuel i FirstDef FirstNotDef LoadSize valid fin = Some r.
Proof.
  induction fuel as [|fuel IH];
    intros i FirstDef FirstNotDef LoadSize valid fin Hi Hf Hlen; simpl.
  - eauto.
  - destruct ((i <? LoadSize) && (fin || (i <? FirstNotDef))); [|eauto].
    destruct ((i >=? FirstDef) && (i <? FirstNotDef)).
    + destruct decide; [|lia].
      apply IH; [lia|lia|rewrite length_insert; exact Hlen].
    + destruct (lookup_lt_is_Some_2 valid (Z.to_nat i)) as [b ->]; [lia|].
      simpl. apply IH; [lia|lia|exact Hlen].
Qed.


















End PartialValFacts.

(** ** The copy-on-write store *)

Section StoreFacts.

Context {Val : Type} `{Countable Val} `{StoreEnv} `{Driver Val}.

Lemma bind_unfold {A B} (c : M Val A) (k : A -> M Val B) (m : Memory Val) :
  (c ≫= k) m = match c m with
               | Some (a, m') => k a m'
               | None => None
               end.
Proof. reflexivity. Qed.

Lemma ret_bind {A B} (a : A) (k : A -> M Val B) (m : Memory Val) :
  (mret a ≫= k) m = k a m.
Proof. reflexivity. Qed.

Lemma bind_Some {A B} (c : M Val A) (k : A -> M Val B) (m : Memory Val) r :
  (c ≫= k) m = Some r <->
  exists a m', c m = Some (a, m') /\ k a m' = Some r.
Proof.
  rewrite bind_unfold. split.
  - destruct (c m) as [[a m']|]; [eauto|discriminate].
  - intros (a & m' & -> & Hk). exact Hk.
Qed.

Lemma readNode_Some a n (m : Memory Val) :
  treeNodes m !! a = Some n -> readNode a m = Some (n, m).
Proof. unfold readNode. intros ->. reflexivity. Qed.

Lemma readStoreMap_Some a sm (m : Memory Val) :
  storeMaps m !! a = Some sm -> readStoreMap a m = Some (sm, m).
Proof. unfold readStoreMap. intros ->. reflexivity. Qed.

Lemma readLocalMap_Some a lm (m : Memory Val) :
  localMaps m !! a = Some lm -> readLocalMap a m = Some (lm, m).
Proof. unfold readLocalMap. intros ->. reflexivity. Qed.

(** A loop over [seq 0 n] that keeps an invariant indexed by the number
    of rounds done runs to its end. *)
Lemma forM_seq_from (P : nat -> Memory Val -> Prop) (f : nat -> M Val unit)
    (n : nat) :
  (forall i m, (i < n)%nat -> P i m ->
     exists m', f i m = Some (tt, m') /\ P (S i) m') ->
  forall k s m, (s + k = n)%nat -> P s m ->
    exists m', forM_ (seq s k) f m = Some (tt, m') /\ P n m'.
Proof.
  intros Hstep k. induction k as [|k IH]; intros s m Hs HP; simpl.
  - replace n with s by lia. eauto.
  - rewrite bind_unfold.
    destruct (Hstep s m ltac:(lia) HP) as (m1 & -> & HP1).
    apply IH; [lia|exact HP1].
Qed.

Lemma forM_seq_inv (P : nat -> Memory Val -> Prop) (f : nat -> M Val unit)
    (n : nat) :
  (forall i m, (i < n)%nat -> P i m ->
     exists m', f i m = Some (tt, m') /\ P (S i) m') ->
  forall m, P 0%nat m ->
    exists m', forM_ (seq 0 n) f m = Some (tt, m') /\ P n m'.
Proof.
  intros Hstep m HP. apply (forM_seq_from P f n Hstep n 0%nat m); auto.
Qed.

(** A loop over a list that keeps an invariant indexed by the prefix
    already visited runs to its end. *)
Lemma forM_prefix_from {A} (P : list A -> Memory Val -> Prop)
    (f : A -> M Val unit) (l : list A) :
  (forall pre x post m, l = pre ++ x :: post -> P pre m ->
     exists m', f x m = Some (tt, m') /\ P (pre ++ [x]) m') ->
  forall post pre m, l = pre ++ post -> P pre m ->
    exists m', forM_ post f m = Some (tt, m') /\ P l m'.
Proof.
  intros Hstep post. induction post as [|x post IH]; intros pre m Hl HP; simpl.
  - rewrite app_nil_r in Hl. subst. eauto.
  - rewrite bind_unfold.
    destruct (Hstep pre x post m Hl HP) as (m1 & -> & HP1).
    apply (IH (pre ++ [x])); [rewrite <- app_assoc; exact Hl|exact HP1].
Qed.

Lemma forM_prefix_inv {A} (P : list A -> Memory Val -> Prop)
    (f : A -> M Val unit) (l : list A) :
  (forall pre x post m, l = pre ++ x :: post -> P pre m ->
     exists m', f x m = Some (tt, m') /\ P (pre ++ [x]) m') ->
  forall m, P [] m ->
    exists m', forM_ l f m = Some (tt, m') /\ P l m'.
Proof.
  intros Hstep m HP. apply (forM_prefix_from P f l Hstep l [] m); auto.
Qed.

Lemma slotsHolding_S (ch : gmap nat addr) (c : addr) (k : nat) :
  slotsHolding ch c (S k) =
    (slotsHolding ch c k + if decide (ch !! k = Some c) then 1 else 0)%nat.
Proof.
  unfold slotsHolding. rewrite seq_S, filter_app, length_app. simpl.
  rewrite filter_cons, filter_nil. destruct decide; reflexivity.
Qed.

(** Reading a store cell through the tree only looks at the children
    arrays: if every node keeps its children, every read finds the same
    cell. *)
Lemma getReadableStoreFor_same_children (m m' : Memory Val) :
  (forall a na, treeNodes m !! a = Some na ->
     exists na', treeNodes m' !! a = Some na' /\ children na' = children na) ->
  forall h a idx r,
    fst <$> SharedTreeNode_getReadableStoreFor h a idx m = Some r ->
    fst <$> SharedTreeNode_getReadableStoreFor h a idx m' = Some r.
Proof.
  intros Hkeep h. induction h as [|h IH]; intros a idx r; simpl;
    rewrite !bind_unfold; unfold readNode;
    destruct (treeNodes m !! a) as [na|] eqn:Ha; simpl; try discriminate;
    destruct (Hkeep a na Ha) as (na' & Hna' & Hch); rewrite Hna'; simpl;
    rewrite Hch.
  - destruct (children na !! nextChild idx 0); auto.
  - destruct (children na !! nextChild idx (S h)) as [c|]; auto.
Qed.

(** C1: [getWritableNode] returns the node itself when its reference
    count is 1.  When the count is greater than 1 it returns a node
    that was not allocated before, with count 1, and takes exactly one
    reference off the old node.  At the leaf level the children of the
    new node are readable copies of the old children, taken slot by
    slot; above, the new node shares the children and each shared
    child gains one reference per slot that holds it.  Every node that
    existed keeps its children, so a read through the old node finds
    the same cell as before. *)
Theorem getWritableNode_copy_on_write (m : Memory Val) (this : addr)
    (height : nat) (n : SharedTreeNode) :
  treeNodes m !! this = Some n ->
  (refCount n = 1 -> getWritableNode this height m = Some (this, m)) /\
  (1 < refCount n ->
   (height <> 0%nat -> forall i c,
      (i < HEAPTREEORDER)%nat -> children n !! i = Some c ->
      c <> this /\ is_Some (treeNodes m !! c)) ->
   exists newNode m' nn,
     getWritableNode this height m = Some (newNode, m') /\
     treeNodes m !! newNode = None /\
     treeNodes m' !! newNode = Some nn /\ refCount nn = 1 /\
     treeNodes m' !! this = Some (mkSTN (children n) (refCount n - 1)) /\
     (forall a na, treeNodes m !! a = Some na ->
        exists na', treeNodes m' !! a = Some na'
                    /\ children na' = children na) /\
     (forall h a idx r,
        fst <$> SharedTreeNode_getReadableStoreFor h a idx m = Some r ->
        fst <$> SharedTreeNode_getReadableStoreFor h a idx m' = Some r) /\
     storeMaps m' = storeMaps m /\ localMaps m' = localMaps m /\
     baseStores m' = baseStores m /\ freedNodes m' = freedNodes m /\
     match height with
     | O =>
         (children nn, valSets m') = copyLeaves (children n) (valSets m) /\
         forall a, a <> this -> a <> newNode ->
           treeNodes m' !! a = treeNodes m !! a
     | S _ =>
         valSets m' = valSets m /\
         (forall i, children nn !! i =
                      if decide (i < HEAPTREEORDER)%nat
                      then children n !! i else None) /\
         forall a, a <> this -> a <> newNode ->
           treeNodes m' !! a =
             (fun na => mkSTN (children na)
                          (refCount na
                           + Z.of_nat (slotsHolding (children n) a
                                                    HEAPTREEORDER)))
               <$> treeNodes m !! a
     end).
Proof.
  intros Hthis. split.
  - intros Hrc. unfold getWritableNode. rewrite bind_unfold.
    rewrite (readNode_Some _ _ _ Hthis), Hrc. reflexivity.
  - intros Hrc Hch.
    destruct m as [T SM LM BS VH FN FS]. simpl in *.
    set (newNode := fresh (dom T)).
    assert (Hfresh : T !! newNode = None).
    { apply not_elem_of_dom. apply is_fresh. }
    assert (Hne : newNode <> this) by (intros ->; congruence).
    unfold getWritableNode. rewrite bind_unfold. unfold readNode at 1.
    simpl. rewrite Hthis. simpl.
    destruct (Z.eqb_spec (refCount n) 1) as [|_]; [lia|].
    rewrite bind_unfold. unfold new_SharedTreeNode, allocNode.
    unfold set_treeNodes.
    cbn [treeNodes storeMaps localMaps baseStores valSets freedNodes
         freedStoreMaps].
    fold newNode. rewrite bind_unfold.
    destruct height as [|h].
    + (* the children are value-sets: copy each *)
      set (acc := fun k => foldl (copyLeafStep (children n)) (∅, VH)
                                 (seq 0 k)).
      destruct (forM_seq_inv
        (fun k mk => mk = mkMem (<[newNode := mkSTN (fst (acc k)) 1]> T)
                                SM LM BS (snd (acc k)) FN FS)
        (fun i : nat =>
           n0 ← readNode this;
           match children n0 !! i with
           | Some c =>
               c' ← call_getReadableCopy c;
               nn ← readNode newNode;
               writeNode newNode (mkSTN (<[i := c']> (children nn))
                                        (refCount nn))
           | None => mret tt
           end) HEAPTREEORDER) with
        (mkMem (<[newNode := mkSTN ∅ 1]> T) SM LM BS VH FN FS)
        as (m1 & Hloop & ->).
      { intros i mk Hi ->. rewrite bind_unfold. unfold readNode at 1. simpl.
        rewrite lookup_insert_ne by exact Hne. rewrite Hthis. simpl.
        unfold acc at 3 4. rewrite seq_S, foldl_app. simpl. fold (acc i).
        unfold copyLeafStep.
        destruct (children n !! i) as [c|]; [|eauto].
        rewrite bind_unfold. unfold call_getReadableCopy. simpl.
        destruct (ivs_getReadableCopy c (snd (acc i))) as [c' vh'].
        rewrite bind_unfold. unfold readNode, writeNode. simpl.
        rewrite lookup_insert_eq. simpl.
        eexists. split; [reflexivity|].
        unfold set_treeNodes. simpl. rewrite insert_insert_eq. reflexivity. }
      { reflexivity. }
      rewrite Hloop. rewrite bind_unfold. unfold readNode at 1. simpl.
      rewrite lookup_insert_ne by exact Hne. rewrite Hthis. simpl.
      exists newNode. eexists. exists (mkSTN (fst (acc HEAPTREEORDER)) 1).
      split; [reflexivity|]. simpl.
      assert (Hkeep : forall a na, T !! a = Some na ->
                exists na',
                  <[this := mkSTN (children n) (refCount n - 1)]>
                    (<[newNode := mkSTN (fst (acc HEAPTREEORDER)) 1]> T) !! a
                  = Some na' /\ children na' = children na).
      { intros a na Ha. destruct (decide (a = this)) as [->|Hat].
        - rewrite lookup_insert_eq. rewrite Hthis in Ha. injection Ha as <-.
          eauto.
        - rewrite lookup_insert_ne by auto.
          rewrite lookup_insert_ne by (intros <-; congruence). eauto. }
      repeat split; auto.
      * rewrite lookup_insert_ne by auto. apply lookup_insert_eq.
      * apply lookup_insert_eq.
      * apply (getReadableStoreFor_same_children
                 (mkMem T SM LM BS VH FN FS)). exact Hkeep.
      * unfold copyLeaves. fold (acc HEAPTREEORDER).
        destruct (acc HEAPTREEORDER). reflexivity.
      * intros a Ha1 Ha2. rewrite !lookup_insert_ne by auto. reflexivity.
    + (* the children are nodes: share each and count the reference *)
      specialize (Hch ltac:(lia)).
      destruct (forM_seq_inv
        (fun k mk => exists Tk chk,
           mk = mkMem Tk SM LM BS VH FN FS /\
           Tk !! this = Some n /\
           Tk !! newNode = Some (mkSTN chk 1) /\
           (forall i, chk !! i = if decide (i < k)%nat then children n !! i
                                 else None) /\
           forall a, a <> this -> a <> newNode ->
             Tk !! a =
               (fun na => mkSTN (children na)
                            (refCount na
                             + Z.of_nat (slotsHolding (children n) a k)))
                 <$> T !! a)
        (fun i : nat =>
           n0 ← readNode this;
           match children n0 !! i with
           | Some c =>
               cn ← readNode c;
               writeNode c (mkSTN (children cn) (refCount cn + 1));;
               nn ← readNode newNode;
               writeNode newNode (mkSTN (<[i := c]> (children nn))
                                        (refCount nn))
           | None => mret tt
           end) HEAPTREEORDER) with
        (mkMem (<[newNode := mkSTN ∅ 1]> T) SM LM BS VH FN FS)
        as (m1 & Hloop & (Tk & chk & -> & HTthis & HTnew & Hchk & HTo)).
      { intros i mk Hi (Tk & chk & -> & HTthis & HTnew & Hchk & HTo).
        rewrite bind_unfold. unfold readNode at 1. simpl.
        rewrite HTthis. simpl.
        destruct (children n !! i) as [c|] eqn:Hci.
        - destruct (Hch i c Hi Hci) as [Hcthis [nc Hnc]].
          assert (Hcnew : c <> newNode) by (intros ->; congruence).
          rewrite bind_unfold. unfold readNode at 1. simpl.
          rewrite (HTo c Hcthis Hcnew), Hnc. simpl.
          rewrite bind_unfold. unfold writeNode at 1. simpl.
          rewrite bind_unfold. unfold readNode at 1. simpl.
          rewrite lookup_insert_ne by auto. rewrite HTnew. simpl.
          unfold writeNode, set_treeNodes. simpl.
          eexists. split; [reflexivity|].
          eexists _, (<[i := c]> chk). split; [reflexivity|].
          split; [|split; [|split]].
          + rewrite !lookup_insert_ne by auto. exact HTthis.
          + apply lookup_insert_eq.
          + intros j. destruct (decide (j = i)) as [->|Hji].
            * rewrite lookup_insert_eq. destruct decide; [auto|lia].
            * rewrite lookup_insert_ne by auto. rewrite Hchk.
              repeat destruct decide; try lia; reflexivity.
          + intros a Ha1 Ha2. rewrite lookup_insert_ne by auto.
            rewrite slotsHolding_S, Hci.
            destruct (decide (a = c)) as [->|Hac].
            * rewrite lookup_insert_eq, Hnc. simpl.
              destruct decide; [|congruence]. do 2 f_equal. lia.
            * rewrite lookup_insert_ne by auto. rewrite (HTo a Ha1 Ha2).
              destruct decide as [He|]; [congruence|].
              destruct (T !! a); simpl; [|reflexivity].
              do 2 f_equal. lia.
        - eexists. split; [reflexivity|].
          exists Tk, chk. split; [reflexivity|].
          split; [exact HTthis|]. split; [exact HTnew|]. split.
          + intros j. rewrite Hchk.
            repeat destruct decide; try lia; try reflexivity.
            assert (j = i) as -> by lia. auto.
          + intros a Ha1 Ha2. rewrite (HTo a Ha1 Ha2), slotsHolding_S, Hci.
            destruct decide; [congruence|].
            destruct (T !! a); simpl; [|reflexivity]. do 2 f_equal. lia. }
      { exists (<[newNode := mkSTN ∅ 1]> T), ∅. split; [reflexivity|].
        split; [rewrite lookup_insert_ne by auto; exact Hthis|].
        split; [apply lookup_insert_eq|]. split.
        - intros i. destruct decide; [lia|apply lookup_empty].
        - intros a Ha1 Ha2. rewrite lookup_insert_ne by auto.
          unfold slotsHolding. simpl.
          destruct (T !! a) as [[]|]; simpl; [|reflexivity].
          do 2 f_equal. lia. }
      rewrite Hloop. rewrite bind_unfold. unfold readNode at 1. simpl.
      rewrite HTthis. simpl.
      exists newNode. eexists. exists (mkSTN chk 1).
      split; [reflexivity|]. simpl.
      assert (Hkeep : forall a na, T !! a = Some na ->
                exists na',
                  <[this := mkSTN (children n) (refCount n - 1)]> Tk !! a
                  = Some na' /\ children na' = children na).
      { intros a na Ha. destruct (decide (a = this)) as [->|Hat].
        - rewrite lookup_insert_eq. rewrite Hthis in Ha. injection Ha as <-.
          eauto.
        - rewrite lookup_insert_ne by auto.
          rewrite (HTo a Hat) by (intros ->; congruence). rewrite Ha. simpl.
          eauto. }
      repeat split; auto.
      * rewrite lookup_insert_ne by auto. exact HTnew.
      * apply lookup_insert_eq.
      * apply (getReadableStoreFor_same_children
                 (mkMem T SM LM BS VH FN FS)). exact Hkeep.
      * intros a Ha1 Ha2. rewrite lookup_insert_ne by auto.
        apply HTo; auto.
Qed.

(** *** Dropping a tree *)

Lemma same_shape_refl (m : Memory Val) : same_shape m m.
Proof. intros a. reflexivity. Qed.

Lemma same_shape_trans (m1 m2 m3 : Memory Val) :
  same_shape m1 m2 -> same_shape m2 m3 -> same_shape m1 m3.
Proof. intros H12 H23 a. rewrite H12. apply H23. Qed.

Lemma wf_tree_shape (m m' : Memory Val) h :
  same_shape m m' -> forall a, wf_tree m h a -> wf_tree m' h a.
Proof.
  intros Hs. induction h as [|h IH]; intros a (n & Hn & Hc); simpl.
  - pose proof (Hs a) as Ha. rewrite Hn in Ha. simpl in Ha.
    destruct (treeNodes m' !! a) as [n'|]; [eauto|discriminate].
  - pose proof (Hs a) as Ha. rewrite Hn in Ha. simpl in Ha.
    destruct (treeNodes m' !! a) as [n'|]; [|discriminate].
    injection Ha as Ha. exists n'. split; [reflexivity|].
    intros i c Hi Hic. rewrite <- Ha in Hic. eauto.
Qed.

Lemma tree_only_refl (m : Memory Val) : tree_only m m.
Proof. repeat split. Qed.

Lemma tree_only_trans (m1 m2 m3 : Memory Val) :
  tree_only m1 m2 -> tree_only m2 m3 -> tree_only m1 m3.
Proof.
  intros (S1 & A1 & B1 & C1 & D1) (S2 & A2 & B2 & C2 & D2).
  split; [eapply same_shape_trans; eauto|repeat split; congruence].
Qed.

(** [SharedTreeNode::dropReference] runs to its end on a well-formed
    tree, and touches nothing but counts, value-sets and the record of
    freed nodes. *)
Lemma SharedTreeNode_dropReference_total h :
  forall (m : Memory Val) a, wf_tree m h a ->
    exists m', SharedTreeNode_dropReference h a m = Some (tt, m')
               /\ tree_only m m'.
Proof.
  induction h as [|h IH]; intros m a Hwf.
  - destruct Hwf as (n & Hn & _). simpl.
    rewrite bind_unfold, (readNode_Some _ _ _ Hn). rewrite bind_unfold.
    unfold writeNode at 1.
    set (m1 := set_treeNodes _ m).
    assert (Hm1 : tree_only m m1).
    { repeat split. intros b. unfold m1, set_treeNodes. simpl.
      destruct (decide (b = a)) as [->|]; [|rewrite lookup_insert_ne; auto].
      rewrite lookup_insert_eq, Hn. reflexivity. }
    destruct (refCount n - 1 =? 0); [|exists m1; auto].
    rewrite bind_unfold.
    destruct (forM_seq_inv (fun _ mk => tree_only m mk)
      (fun i : nat =>
         n0 ← readNode a;
         match children n0 !! i with
         | Some c => call_dropReference c
         | None => mret tt
         end) HEAPTREEORDER) with m1 as (m2 & -> & Hm2); [|exact Hm1|].
    + intros i mk _ Hk. rewrite bind_unfold.
      pose proof (proj1 Hk a) as Ha. rewrite Hn in Ha. simpl in Ha.
      unfold readNode. destruct (treeNodes mk !! a) as [n'|]; [|discriminate].
      simpl. destruct (children n' !! i); [|eauto].
      eexists. split; [reflexivity|].
      eapply tree_only_trans; [exact Hk|]. repeat split.
    + eexists. split; [reflexivity|].
      eapply tree_only_trans; [exact Hm2|]. repeat split.
  - destruct Hwf as (n & Hn & Hch). simpl.
    rewrite bind_unfold, (readNode_Some _ _ _ Hn). rewrite bind_unfold.
    unfold writeNode at 1.
    set (m1 := set_treeNodes _ m).
    assert (Hm1 : tree_only m m1).
    { repeat split. intros b. unfold m1, set_treeNodes. simpl.
      destruct (decide (b = a)) as [->|]; [|rewrite lookup_insert_ne; auto].
      rewrite lookup_insert_eq, Hn. reflexivity. }
    destruct (refCount n - 1 =? 0); [|exists m1; auto].
    rewrite bind_unfold.
    destruct (forM_seq_inv (fun _ mk => tree_only m mk)
      (fun i : nat =>
         n0 ← readNode a;
         match children n0 !! i with
         | Some c => SharedTreeNode_dropReference h c
         | None => mret tt
         end) HEAPTREEORDER) with m1 as (m2 & -> & Hm2); [|exact Hm1|].
    + intros i mk Hi Hk. rewrite bind_unfold.
      pose proof (proj1 Hk a) as Ha. rewrite Hn in Ha. simpl in Ha.
      unfold readNode. destruct (treeNodes mk !! a) as [n'|]; [|discriminate].
      injection Ha as Ha. simpl. rewrite <- Ha.
      destruct (children n !! i) as [c|] eqn:Hc; [|eauto].
      destruct (IH mk c) as (m' & -> & Hm').
      { eapply wf_tree_shape; [exact (proj1 Hk)|]. eauto. }
      eexists. split; [reflexivity|]. eapply tree_only_trans; eauto.
    + eexists. split; [reflexivity|].
      eapply tree_only_trans; [exact Hm2|]. repeat split.
Qed.

End StoreFacts.

(** ** Writes through an unknown pointer *)

Section ClobberFacts.

Context {Val : Type} `{Countable Val} `{StoreEnv} `{Driver Val}
        `{ConstEnv Val} `{!StoreCalls Val}.

Lemma maps_kept_refl (m : Memory Val) : maps_kept m m.
Proof. intros a sm Ha. eauto. Qed.

Lemma maps_kept_trans (m1 m2 m3 : Memory Val) :
  maps_kept m1 m2 -> maps_kept m2 m3 -> maps_kept m1 m3.
Proof.
  intros H12 H23 a sm Ha. destruct (H12 a sm Ha) as (sm2 & Ha2 & He2).
  destruct (H23 a sm2 Ha2) as (sm3 & Ha3 & He3). eauto.
Qed.

Lemma maps_kept_same (m m' : Memory Val) :
  storeMaps m' = storeMaps m -> maps_kept m m'.
Proof. intros E a sm Ha. rewrite E. eauto. Qed.

Lemma forM_dropReference {A} (g : A -> addr) (l : list A) (m : Memory Val) :
  exists vh, forM_ l (fun kv => call_dropReference (g kv)) m
             = Some (tt, set_valSets (fun _ => vh) m).
Proof.
  revert m. induction l as [|x l IH]; intros m; simpl.
  - exists (valSets m). destruct m; reflexivity.
  - rewrite bind_unfold. unfold call_dropReference at 1.
    destruct (IH (set_valSets (ivs_dropReference (g x)) m)) as (vh & ->).
    exists vh. reflexivity.
Qed.

(** [SharedStoreMap::getEmptyMap] returns a map with an empty store,
    keeps every other map, and keeps the empty ones empty. *)
Lemma SharedStoreMap_getEmptyMap_total (f : addr) sm (m : Memory Val) :
  storeMaps m !! f = Some sm ->
  exists f' m' sm', SharedStoreMap_getEmptyMap f m = Some (f', m')
    /\ storeMaps m' !! f' = Some sm' /\ store sm' = ∅
    /\ maps_kept m m' /\ localMaps m' = localMaps m.
Proof.
  intros Hf. unfold SharedStoreMap_getEmptyMap.
  rewrite bind_unfold, (readStoreMap_Some _ _ _ Hf).
  destruct (bool_decide (store sm = ∅)) eqn:He.
  - apply bool_decide_eq_true in He. exists f, m, sm.
    repeat split; auto using maps_kept_refl.
  - destruct (ssm_refCount sm =? 1) eqn:Hrc.
    + apply Z.eqb_eq in Hrc. rewrite bind_unfold. unfold SharedStoreMap_clear.
      rewrite bind_unfold, (readStoreMap_Some _ _ _ Hf).
      replace (ssm_refCount sm <=? 1) with true
        by (symmetry; apply Z.leb_le; lia).
      cbn [negb]. rewrite bind_unfold.
      destruct (forM_dropReference snd (map_to_list (store sm)) m)
        as (vh & ->).
      rewrite bind_unfold, (readStoreMap_Some f sm) by exact Hf.
      unfold writeStoreMap.
      eexists f, _, _. split; [reflexivity|]. simpl.
      rewrite lookup_insert_eq. repeat split.
      intros a sma Ha. simpl. destruct (decide (a = f)) as [->|Hne].
      * rewrite lookup_insert_eq. eauto.
      * rewrite lookup_insert_ne by auto. eauto.
    + apply Z.eqb_neq in Hrc.
      rewrite bind_unfold. unfold SharedStoreMap_dropReference.
      rewrite bind_unfold, (readStoreMap_Some _ _ _ Hf).
      rewrite bind_unfold. unfold writeStoreMap at 1.
      apply bool_decide_eq_false in He.
      replace (ssm_refCount sm - 1 =? 0) with false
        by (symmetry; apply Z.eqb_neq; lia).
      unfold new_SharedStoreMap, allocStoreMap.
      eexists _, _, _. split; [reflexivity|]. simpl.
      rewrite lookup_insert_eq. repeat split.
      intros a sma Ha. simpl.
      set (SM := <[f:=_]> (storeMaps m)).
      assert (Ha' : exists sma', SM !! a = Some sma'
                                 /\ (store sma = ∅ -> store sma' = ∅)).
      { unfold SM. destruct (decide (a = f)) as [->|Hne].
        - rewrite lookup_insert_eq. rewrite Hf in Ha. injection Ha as <-.
          eauto.
        - rewrite lookup_insert_ne by auto. eauto. }
      destruct Ha' as (sma' & Hsma' & Hemp).
      assert (Hfr : SM !! fresh (dom SM) = None)
        by (apply not_elem_of_dom, is_fresh).
      rewrite lookup_insert_ne by congruence. eauto.
Qed.

(** [SharedTreeRoot::clear] on a well-formed heap *)
Lemma SharedTreeRoot_clear_total (hp : SharedTreeRoot) (m : Memory Val) :
  (height hp <> 0%nat ->
   exists r, root hp = Some r /\ wf_tree m (height hp - 1) r) ->
  exists hp' m', SharedTreeRoot_clear hp m = Some (hp', m')
    /\ height hp' = 0%nat /\ tree_only m m'.
Proof.
  intros Hwf. unfold SharedTreeRoot_clear.
  destruct (Nat.eqb (height hp) 0) eqn:Hh.
  - apply Nat.eqb_eq in Hh. exists hp, m. auto using tree_only_refl.
  - apply Nat.eqb_neq in Hh. destruct (Hwf Hh) as (r & -> & Hr).
    rewrite bind_unfold.
    destruct (SharedTreeNode_dropReference_total _ _ _ Hr) as (m' & -> & Hm').
    exists (mkSTR None 0), m'. auto.
Qed.

Lemma clearing_done this n rc flag (m : Memory Val) :
  clearing this n rc flag n m ->
  exists lm, localMaps m !! this = Some lm /\ empty_snapshot m lm
             /\ length (frames lm) = n /\ lsm_refCount lm = rc
             /\ allOthersClobbered lm = flag.
Proof.
  intros (lm & Hlm & Hlen & Hh & Hrc & Hfl & Hlow & _).
  exists lm. repeat split; auto.
  apply Forall_lookup. intros j f Hj.
  destruct (Hlow j) as (a & sm & Hja & Ha & He).
  { rewrite <- Hlen. eapply lookup_lt_Some; eauto. }
  rewrite Hja in Hj. injection Hj as <-. eauto.
Qed.

(** [LocalStoreMap::clear] on a well-formed snapshot *)
Lemma LocalStoreMap_clear_total (this : addr) lm (m : Memory Val) :
  localMaps m !! this = Some lm -> wf_snapshot m lm ->
  exists m' lm', LocalStoreMap_clear this m = Some (tt, m')
    /\ localMaps m' !! this = Some lm' /\ empty_snapshot m' lm'
    /\ length (frames lm') = length (frames lm)
    /\ lsm_refCount lm' = lsm_refCount lm
    /\ allOthersClobbered lm' = allOthersClobbered lm.
Proof.
  intros Hlm (Hfr & Hheap). unfold LocalStoreMap_clear.
  rewrite bind_unfold, (readLocalMap_Some _ _ _ Hlm). rewrite bind_unfold.
  destruct (SharedTreeRoot_clear_total (heap lm) m Hheap)
    as (hp' & m1 & -> & Hh' & Ht).
  assert (Hlm1 : localMaps m1 !! this = Some lm).
  { destruct Ht as (_ & _ & -> & _). exact Hlm. }
  rewrite bind_unfold, (readLocalMap_Some _ _ _ Hlm1).
  rewrite bind_unfold. unfold writeLocalMap at 1.
  set (m2 := set_localMaps _ m1).
  match goal with
  | |- context [forM_ (seq 0 ?n) ?F m2] =>
      destruct (forM_seq_inv
                  (clearing this n (lsm_refCount lm) (allOthersClobbered lm))
                  F n) with m2 as (m3 & -> & Hinv)
  end.
  - intros i mk Hi (lmk & Hk & Hlen & Hhk & Hrc & Hfl & Hlow & Hhigh).
    rewrite bind_unfold, (readLocalMap_Some _ _ _ Hk).
    rewrite bind_unfold. unfold frameAt.
    destruct (Hhigh i) as (a & Hia & [sm Ha]); [lia|]. rewrite Hia.
    unfold mret at 1, M_ret at 1. rewrite bind_unfold.
    destruct (SharedStoreMap_getEmptyMap_total a sm mk Ha)
      as (f' & m' & sm' & -> & Hf' & He' & Hkept & Hloc).
    assert (Hk' : localMaps m' !! this = Some lmk) by (rewrite Hloc; exact Hk).
    rewrite bind_unfold, (readLocalMap_Some _ _ _ Hk').
    unfold writeLocalMap. eexists. split; [reflexivity|].
    eexists. simpl. rewrite lookup_insert_eq. split; [reflexivity|]. simpl.
    rewrite length_insert. repeat split; auto.
    + intros j Hj. destruct (decide (j = i)) as [->|Hne].
      * rewrite list_lookup_insert_eq by lia. eauto.
      * rewrite list_lookup_insert_ne by auto.
        destruct (Hlow j) as (b & smb & Hjb & Hb & Heb); [lia|].
        destruct (Hkept b smb Hb) as (smb' & Hb' & Heb'). eauto 10.
    + intros j Hj. rewrite list_lookup_insert_ne by lia.
      destruct (Hhigh j) as (b & Hjb & [smb Hb]); [lia|].
      destruct (Hkept b smb Hb) as (smb' & Hb' & _). eauto.
  - eexists. unfold m2. simpl. rewrite lookup_insert_eq.
    split; [reflexivity|]. simpl. repeat split; auto; [intros j Hj; lia|].
    intros j Hj. destruct (lookup_lt_is_Some_2 (frames lm) j) as [f Hf]; [lia|].
    destruct (proj1 (Forall_lookup _ _) Hfr j f Hf) as (a & -> & [sm Ha]).
    exists a. split; [exact Hf|].
    destruct Ht as (_ & -> & _). eauto.
  - destruct (clearing_done _ _ _ _ _ Hinv) as (lm' & ? & ? & ? & ? & ?).
    exists m3, lm'. auto 10.
Qed.

(** [LocalStoreMap::empty] on a well-formed snapshot *)
Lemma LocalStoreMap_empty_loop_total (fs : list (option addr))
    (m : Memory Val) :
  Forall (fun f => exists a, f = Some a /\ is_Some (storeMaps m !! a)) fs ->
  exists b : bool, LocalStoreMap_empty_loop fs m = Some (b, m)
    /\ (b = true ->
        Forall (fun f => exists a sm, f = Some a
                  /\ storeMaps m !! a = Some sm /\ store sm = ∅) fs).
Proof.
  induction 1 as [|f fs (a & -> & [sm Ha]) _ (b & IH & IHe)]; simpl.
  - exists true. auto.
  - rewrite bind_unfold, (readStoreMap_Some _ _ _ Ha).
    destruct (bool_decide (store sm = ∅)) eqn:He.
    + apply bool_decide_eq_true in He. exists b. split; [exact IH|].
      intros Hb. constructor; eauto.
    + exists false. split; [reflexivity|discriminate].
Qed.

Lemma createEmptyFrames_total (this : addr) lm (m : Memory Val) :
  localMaps m !! this = Some lm ->
  height (heap lm) = 0%nat -> lsm_refCount lm = 1 ->
  allOthersClobbered lm = false ->
  exists m' lm', createEmptyFrames this m = Some (tt, m')
    /\ localMaps m' !! this = Some lm' /\ empty_snapshot m' lm'
    /\ length (frames lm') = length (frames lm)
    /\ lsm_refCount lm' = 1 /\ allOthersClobbered lm' = false
    /\ (forall p, p <> this -> localMaps m' !! p = localMaps m !! p).
Proof.
  intros Hlm Hh Hrc Hfl. unfold createEmptyFrames.
  rewrite bind_unfold, (readLocalMap_Some _ _ _ Hlm).
  destruct (forM_seq_inv
    (fun k (mk : Memory Val) => creating this (length (frames lm)) k mk
                 /\ forall p, p <> this ->
                      localMaps mk !! p = localMaps m !! p)
    (fun i : nat =>
       f ← new_SharedStoreMap;
       lm0 ← readLocalMap this;
       writeLocalMap this
         (mkLSM (<[i:=Some f]> (frames lm0)) (heap lm0)
                (allOthersClobbered lm0) (lsm_refCount lm0)))
    (length (frames lm))) with m as (m3 & -> & Hinv & Hoth).
  - intros i mk Hi ((lmk & Hk & Hlen & Hhk & Hrck & Hflk & Hlow) & Hoth).
    rewrite bind_unfold. unfold new_SharedStoreMap, allocStoreMap.
    rewrite bind_unfold. unfold readLocalMap. simpl. rewrite Hk. simpl.
    unfold writeLocalMap. eexists. split; [reflexivity|]. simpl. split.
    + eexists. simpl. rewrite lookup_insert_eq. split; [reflexivity|]. simpl.
      rewrite length_insert. repeat split; auto.
      intros j Hj. destruct (decide (j = i)) as [->|Hne].
      * rewrite list_lookup_insert_eq by lia.
        eexists _, _. rewrite lookup_insert_eq. eauto.
      * rewrite list_lookup_insert_ne by auto.
        destruct (Hlow j) as (b & smb & Hjb & Hb & Heb); [lia|].
        exists b, smb. repeat split; auto.
        assert (Hfr : storeMaps mk !! fresh (dom (storeMaps mk)) = None)
          by (apply not_elem_of_dom, is_fresh).
        rewrite lookup_insert_ne by congruence. exact Hb.
    + intros p Hp. simpl. rewrite lookup_insert_ne by auto. auto.
  - split; [|auto]. exists lm. repeat split; auto. intros j Hj. lia.
  - destruct Hinv as (lm' & Hlm' & Hlen & Hh' & Hrc' & Hfl' & Hlow).
    exists m3, lm'. repeat split; auto.
    apply Forall_lookup. intros j f Hj.
    destruct (Hlow j) as (a & sm & Hja & Ha & He).
    { rewrite <- Hlen. eapply lookup_lt_Some; eauto. }
    rewrite Hja in Hj. injection Hj as <-. eauto.
Qed.

(** [LocalStoreMap::getEmptyMap] on a well-formed snapshot: the map it
    returns gives no location and has as many frames. *)
Lemma LocalStoreMap_getEmptyMap_total (this : addr) lm (m : Memory Val) :
  localMaps m !! this = Some lm -> wf_snapshot m lm ->
  exists p m' lm', LocalStoreMap_getEmptyMap this m = Some (p, m')
    /\ localMaps m' !! p = Some lm' /\ empty_snapshot m' lm'
    /\ length (frames lm') = length (frames lm).
Proof.
  intros Hlm Hwf. unfold LocalStoreMap_getEmptyMap, LocalStoreMap_empty.
  rewrite !bind_unfold, (readLocalMap_Some _ _ _ Hlm).
  assert (Hstep : forall e : bool,
    (e = true -> empty_snapshot m lm) ->
    exists p m' lm',
      (if e then mret this
       else
         lm0 ← readLocalMap this;
         if lsm_refCount lm0 =? 1
         then LocalStoreMap_clear this;; mret this
         else
           writeLocalMap this
             (mkLSM (frames lm0) (heap lm0) (allOthersClobbered lm0)
                    (lsm_refCount lm0 - 1));;
           newMap ← new_LocalStoreMap (length (frames lm0));
           createEmptyFrames newMap;; mret newMap) m = Some (p, m')
      /\ localMaps m' !! p = Some lm' /\ empty_snapshot m' lm'
      /\ length (frames lm') = length (frames lm)).
  { intros [|] He.
    - exists this, m, lm. auto.
    - rewrite bind_unfold, (readLocalMap_Some _ _ _ Hlm).
      destruct (lsm_refCount lm =? 1).
      + rewrite bind_unfold.
        destruct (LocalStoreMap_clear_total _ _ _ Hlm Hwf)
          as (m' & lm' & -> & ? & ? & ? & _).
        exists this, m', lm'. auto.
      + rewrite bind_unfold. unfold writeLocalMap at 1.
        rewrite bind_unfold. unfold new_LocalStoreMap, allocLocalMap.
        cbn [localMaps set_localMaps].
        set (LM := <[this:=_]> (localMaps m)).
        set (p := fresh (dom LM)).
        set (m1 := set_localMaps _ (set_localMaps _ m)).
        rewrite bind_unfold.
        destruct (createEmptyFrames_total p
                    (mkLSM (replicate (length (frames lm)) None)
                           (mkSTR None 0) false 1) m1)
          as (m' & lm' & -> & ? & ? & Hlen & _); auto.
        { unfold m1. simpl. apply lookup_insert_eq. }
        exists p, m', lm'. do 3 (split; [auto|]).
        rewrite Hlen. simpl. apply length_replicate. }
  destruct (negb (Nat.eqb (height (heap lm)) 0)) eqn:Hh.
  - refine (Hstep false _). discriminate.
  - apply negb_false_iff, Nat.eqb_eq in Hh.
    destruct (LocalStoreMap_empty_loop_total (frames lm) m (proj1 Hwf))
      as (b & -> & Hb).
    refine (Hstep b _). intros ->. split; auto.
Qed.

(** A snapshot that gives no location has no store for any object. *)
Lemma getReadableStoreFor_empty (bb : ShadowBB) lm (m : Memory Val)
    (v : ShadowValue Val) :
  localMaps m !! localStore bb = Some lm -> empty_snapshot m lm ->
  getFrameNo v = -1
  \/ 0 <= getFrameNo v < Z.of_nat (length (frames lm)) ->
  ShadowBB_getReadableStoreFor bb v m = Some (None, m).
Proof.
  intros Hlm (Hh & Hfr) Hv. unfold ShadowBB_getReadableStoreFor.
  rewrite bind_unfold, (readLocalMap_Some _ _ _ Hlm).
  destruct (getFrameNo v =? -1) eqn:Hno.
  - unfold SharedTreeRoot_getReadableStoreFor. rewrite Hh. reflexivity.
  - apply Z.eqb_neq in Hno. destruct Hv as [|Hv]; [contradiction|].
    replace (getFrameNo v <? 0) with false by (symmetry; apply Z.ltb_ge; lia).
    rewrite bind_unfold. unfold frameAt.
    destruct (lookup_lt_is_Some_2 (frames lm) (Z.to_nat (getFrameNo v)))
      as [f Hf]; [lia|]. rewrite Hf.
    destruct (proj1 (Forall_lookup _ _) Hfr _ f Hf) as (a & sm & -> & Ha & He).
    unfold mret at 1, M_ret at 1.
    rewrite bind_unfold, (readStoreMap_Some _ _ _ Ha), He.
    rewrite lookup_empty. reflexivity.
Qed.

(** A read of an object the local map has no store for, with the flag
    set, gives the overdefined set. *)
Lemma readValRange_clobbered (bb : ShadowBB) lm (m : Memory Val)
    (v : ShadowValue Val) (Offset0 Size : Z)
    (Result : ImprovedValSetSingle Val) (error : string) :
  localMaps m !! localStore bb = Some lm ->
  allOthersClobbered lm = true ->
  ShadowBB_getReadableStoreFor bb v m = Some (None, m) ->
  readValRange v Offset0 Size bb Result error m
  = Some ((setOverdef Result, error), m).
Proof.
  intros Hlm Hfl Hnone. unfold readValRange.
  rewrite bind_unfold, Hnone.
  rewrite bind_unfold, (readLocalMap_Some _ _ _ Hlm), Hfl. reflexivity.
Qed.

(** C2.  A write through an overdefined pointer set, on a block whose
    snapshot is well-formed, returns, and leaves [ValPB] overdefined if
    it was not initialised.  The block's local store map is then a map
    that gives no location at all (the heap is empty, the store of every
    frame is empty, the frames are as many as before) and whose
    [allOthersClobbered] is set; so it has no store for any object, and
    a read through the block gives the overdefined set without looking
    at the base store.  The last part is the rule for reads in any
    state: with the flag set, a read of an object the local map has no
    store for gives the overdefined set. *)
Theorem executeWriteInst_overdef_clobbers_everything
    (PtrSet ValPB : ImprovedValSetSingle Val) (PtrSize : Z)
    (StoreBB : ShadowBB) (lm : LocalStoreMap) (m : Memory Val) :
  Overdef PtrSet = true ->
  localMaps m !! localStore StoreBB = Some lm ->
  wf_snapshot m lm ->
  (exists bb' m' lm',
    executeWriteInst PtrSet ValPB PtrSize StoreBB m
    = Some ((bb', if isInitialised ValPB then ValPB else setOverdef ValPB),
            m')
    /\ localMaps m' !! localStore bb' = Some lm'
    /\ allOthersClobbered lm' = true
    /\ empty_snapshot m' lm'
    /\ length (frames lm') = length (frames lm)
    /\ forall v Offset0 Size Result error,
         getFrameNo v = -1
         \/ 0 <= getFrameNo v < Z.of_nat (length (frames lm)) ->
         ShadowBB_getReadableStoreFor bb' v m' = Some (None, m')
         /\ readValRange v Offset0 Size bb' Result error m'
            = Some ((setOverdef Result, error), m'))
  /\ (forall bb2 lm2 m2 v Offset0 Size Result error,
        localMaps m2 !! localStore bb2 = Some lm2 ->
        allOthersClobbered lm2 = true ->
        ShadowBB_getReadableStoreFor bb2 v m2 = Some (None, m2) ->
        readValRange v Offset0 Size bb2 Result error m2
        = Some ((setOverdef Result, error), m2)).
Proof.
  intros Hod Hlm Hwf. split.
  - unfold executeWriteInst. rewrite Hod. rewrite bind_unfold.
    destruct (LocalStoreMap_getEmptyMap_total _ _ _ Hlm Hwf)
      as (p & m1 & lm1 & -> & Hp & (Hh & Hfr) & Hlen).
    rewrite bind_unfold, (readLocalMap_Some _ _ _ Hp).
    rewrite bind_unfold. unfold writeLocalMap.
    set (lm' := mkLSM (frames lm1) (heap lm1) true (lsm_refCount lm1)).
    set (m' := set_localMaps _ m1).
    assert (Hp' : localMaps m' !! localStore (mkBB p) = Some lm').
    { unfold m'. simpl. apply lookup_insert_eq. }
    assert (He' : empty_snapshot m' lm') by (split; assumption).
    exists (mkBB p), m', lm'. do 4 (split; [auto|]). split; [exact Hlen|].
    intros v Offset0 Size Result error Hv.
    assert (Hnone : ShadowBB_getReadableStoreFor (mkBB p) v m'
                    = Some (None, m')).
    { eapply getReadableStoreFor_empty; eauto.
      unfold lm'. simpl. rewrite Hlen. exact Hv. }
    split; [exact Hnone|].
    eapply readValRange_clobbered; eauto.
  - intros. eapply readValRange_clobbered; eauto.
Qed.

(** *** Writes and copies through null *)

Lemma executeWriteInst_loop_null (vals : list (ImprovedVal Val))
    (ValPB : ImprovedValSetSingle Val) (PtrSize : Z) (bb : ShadowBB)
    (m : Memory Val) :
  (forall iv, In iv vals -> val_is_null (V iv) = true) ->
  executeWriteInst_loop vals ValPB PtrSize bb m = Some ((bb, ValPB), m).
Proof.
  induction vals as [|iv vals IH]; intros Hnull; simpl.
  - reflexivity.
  - rewrite (Hnull iv) by (left; reflexivity).
    apply IH. intros iv' Hin. apply Hnull. right. exact Hin.
Qed.

(** C10.  A write through a pointer set that is not overdefined and
    whose candidates are all the null pointer returns the block it was
    given and leaves the memory as it was ([ValPB] is set overdefined
    if it was not initialised, as on every path).  A copy returns the
    block it was given and leaves the memory as it was in two cases.
    When the destination set is not overdefined and its one candidate
    is the null pointer, this holds for every size and every source
    set: the copy is either skipped or turned into a write through the
    null pointer.  When the one candidate of the source set is the null
    pointer, it holds if the size is known and both sets are not
    overdefined and have one candidate each; otherwise the copy is a
    write of an overdefined value through the destination set. *)
Theorem null_candidates_leave_the_store_unchanged
    (PtrSet SrcPtrSet ValPB : ImprovedValSetSingle Val) (PtrSize Size : Z)
    (BB : ShadowBB) (m : Memory Val) :
  (Overdef PtrSet = false ->
   (forall iv, In iv (Values PtrSet) -> val_is_null (V iv) = true) ->
   executeWriteInst PtrSet ValPB PtrSize BB m
   = Some ((BB, if isInitialised ValPB then ValPB else setOverdef ValPB), m))
  /\ (forall dst,
        Overdef PtrSet = false -> Values PtrSet = [dst] ->
        val_is_null (V dst) = true ->
        executeCopyInst PtrSet SrcPtrSet Size BB m = Some (BB, m))
  /\ (forall src dst,
        Size <> ULONG_MAX ->
        Overdef PtrSet = false -> Overdef SrcPtrSet = false ->
        Values PtrSet = [dst] -> Values SrcPtrSet = [src] ->
        val_is_null (V src) = true ->
        executeCopyInst PtrSet SrcPtrSet Size BB m = Some (BB, m)).
Proof.
  assert (Hwrite : forall VPB PSize,
            Overdef PtrSet = false ->
            (forall iv, In iv (Values PtrSet) -> val_is_null (V iv) = true) ->
            executeWriteInst PtrSet VPB PSize BB m
            = Some ((BB, if isInitialised VPB then VPB else setOverdef VPB),
                    m)).
  { intros VPB PSize Hod Hnull. unfold executeWriteInst. rewrite Hod.
    destruct (Values PtrSet) as [|iv [|iv' rest]] eqn:Hvals.
    + reflexivity.
    + destruct (negb (Offset iv =? LLONG_MAX)).
      * rewrite (Hnull iv) by (left; reflexivity). reflexivity.
      * apply executeWriteInst_loop_null. exact Hnull.
    + apply executeWriteInst_loop_null. exact Hnull. }
  split; [apply Hwrite|]. split.
  - intros dst Hod Hdst Hnull. unfold executeCopyInst.
    destruct ((Size =? ULONG_MAX) || Overdef PtrSet
              || negb (Nat.eqb (length (Values PtrSet)) 1)
              || Overdef SrcPtrSet
              || negb (Nat.eqb (length (Values SrcPtrSet)) 1)) eqn:Hguard.
    + rewrite bind_unfold, Hwrite; [reflexivity|exact Hod|].
      rewrite Hdst. intros iv [<-|[]]. exact Hnull.
    + apply orb_false_iff in Hguard as [_ Hlen].
      apply negb_false_iff, Nat.eqb_eq in Hlen.
      destruct (Values SrcPtrSet) as [|src [|src' rest]];
        try discriminate.
      rewrite Hdst. simpl. rewrite Hnull.
      destruct (val_is_null (V src)); reflexivity.
  - intros src dst Hsize Hod Hsod Hdst Hsrc Hnull. unfold executeCopyInst.
    rewrite Hod, Hsod, Hdst, Hsrc.
    replace (Size =? ULONG_MAX) with false
      by (symmetry; apply Z.eqb_neq; exact Hsize).
    simpl. rewrite Hnull. reflexivity.
Qed.

End ClobberFacts.

(** ** Merging stack frames *)

Section MergeFacts.

Context {Val : Type} `{Countable Val} `{StoreEnv} `{Driver Val}
        `{ConstEnv Val} `{!StoreCalls Val}.


Lemma mapM_M_total {A B} (P : Memory Val -> Prop) (f : A -> M Val B)
    (l : list A) :
  (forall x m, x ∈ l -> P m ->
     exists y m', f x m = Some (y, m') /\ P m') ->
  forall m, P m -> exists ys m', mapM_M f l m = Some (ys, m') /\ P m'.
Proof.
  induction l as [|x l IH]; intros Hstep m HP; simpl.
  - eauto.
  - rewrite bind_unfold.
    destruct (Hstep x m) as (y & m1 & -> & HP1); [left|exact HP|].
    rewrite bind_unfold.
    destruct (IH (fun y mk Hy => Hstep y mk (list_elem_of_further _ _ _ Hy))
                 m1 HP1) as (ys & m2 & -> & HP2).
    eauto.
Qed.


(** *** The flag loop *)



(** *** Sorting and removing neighbours that repeat *)








(** *** The copy-on-write break of the target frame *)

Lemma elem_of_fst_map_to_list {A} (M : gmap (ShadowValue Val) A)
    (k : ShadowValue Val) :
  k ∈ (map_to_list M).*1 <-> is_Some (M !! k).
Proof.
  rewrite list_elem_of_fmap. split.
  - intros ([k' v] & -> & Hin). apply elem_of_map_to_list in Hin. eauto.
  - intros [v Hv]. exists (k, v). split; [reflexivity|].
    apply elem_of_map_to_list. exact Hv.
Qed.



Lemma getWritableStoreMap_spec (fa : addr) sm (m : Memory Val) :
  storeMaps m !! fa = Some sm ->
  exists a m' sm', getWritableStoreMap fa m = Some (a, m')
    /\ storeMaps m' !! a = Some sm'
    /\ (forall k, is_Some (store sm' !! k) <-> is_Some (store sm !! k))
    /\ (forall b smb, storeMaps m !! b = Some smb ->
          exists smb', storeMaps m' !! b = Some smb'
                       /\ store smb' = store smb)
    /\ (a = fa \/ storeMaps m !! a = None)
    /\ localMaps m' = localMaps m /\ baseStores m' = baseStores m.
Proof.
  intros Hfa. unfold getWritableStoreMap.
  rewrite bind_unfold, (readStoreMap_Some _ _ _ Hfa).
  destruct (ssm_refCount sm =? 1).
  { exists fa, m, sm. repeat split; eauto. }
  rewrite bind_unfold. unfold new_SharedStoreMap, allocStoreMap.
  set (a := fresh (dom (storeMaps m))).
  assert (Hfresh : storeMaps m !! a = None)
    by (apply not_elem_of_dom, is_fresh).
  assert (Hne : fa <> a) by congruence.
  set (m1 := set_storeMaps _ m).
  rewrite bind_unfold.
  match goal with
  | |- context [forM_ ?l ?F m1] =>
      destruct (forM_prefix_inv
        (fun pre mk =>
           exists nm, storeMaps mk !! a = Some nm
             /\ (forall k, is_Some (store nm !! k) <-> k ∈ pre.*1)
             /\ (forall b, b <> a -> storeMaps mk !! b = storeMaps m !! b)
             /\ localMaps mk = localMaps m /\ baseStores mk = baseStores m)
        F l) with m1 as (m2 & -> & (nm & Hnm & Hkeys & Hoth & Hl & Hb))
  end.
  - intros pre [k p] post mk _ (nm & Hnm & Hkeys & Hoth & Hl & Hb).
    rewrite bind_unfold. unfold call_getReadableCopy.
    destruct (ivs_getReadableCopy (snd (k, p)) (valSets mk)) as [c vh].
    rewrite bind_unfold. unfold readStoreMap. simpl. rewrite Hnm. simpl.
    unfold writeStoreMap. eexists. split; [reflexivity|]. simpl.
    eexists. rewrite lookup_insert_eq. split; [reflexivity|]. simpl.
    repeat split; auto.
    + intros [v Hv]. rewrite fmap_app, elem_of_app. simpl.
      destruct (decide (k0 = k)) as [->|Hk]; [right; left|].
      left. apply Hkeys. rewrite lookup_insert_ne in Hv by auto. eauto.
    + rewrite fmap_app, elem_of_app. simpl. intros [Hpre|Hk].
      * destruct (decide (k0 = k)) as [->|Hk].
        -- rewrite lookup_insert_eq. eauto.
        -- rewrite lookup_insert_ne by auto. apply Hkeys. exact Hpre.
      * apply list_elem_of_singleton in Hk. subst k0.
        rewrite lookup_insert_eq. eauto.
    + intros b Hb'. rewrite lookup_insert_ne by auto. auto.
  - exists (mkSSM ∅ 1). unfold m1. simpl. rewrite lookup_insert_eq.
    repeat split; auto.
    + simpl. rewrite lookup_empty. intros [? ?]. discriminate.
    + simpl. intros Hin. apply elem_of_nil in Hin. contradiction.
    + intros b Hb'. rewrite lookup_insert_ne by auto. reflexivity.
  - rewrite bind_unfold.
    assert (Hfa2 : storeMaps m2 !! fa = Some sm) by (rewrite Hoth; auto).
    rewrite (readStoreMap_Some _ _ _ Hfa2). rewrite bind_unfold.
    unfold writeStoreMap.
    eexists a, _, nm. split; [reflexivity|]. simpl.
    rewrite lookup_insert_ne by auto. split; [exact Hnm|]. repeat split; auto.
    + intros Hk. apply elem_of_fst_map_to_list, Hkeys, Hk.
    + intros Hk. apply Hkeys, elem_of_fst_map_to_list, Hk.
    + intros b smb Hb'. destruct (decide (b = fa)) as [->|Hbf].
      * rewrite lookup_insert_eq. rewrite Hfa in Hb'. injection Hb' as <-.
        eauto.
      * rewrite lookup_insert_ne by auto. rewrite Hoth by congruence. eauto.
Qed.

(** *** The two branches of the first loop *)










(** *** The first loop *)


(** *** The second loop keeps the locations *)


(** *** The whole merge of one frame *)







End MergeFacts.

(** ** Constant decomposition on particular constants *)

Section ConstFacts.

Context `{DataLayout} `{ConstEnv Constant}.

(** The branch of [getConstSubVals] for a range that runs past the
    constant: after the extents of the part in bounds comes one
    overdefined extent whose pair is the store size and the number of
    bytes past the end. *)
Lemma getConstSubVals_past_the_end (fuel : nat) (FromC : Constant)
    (Offset TargetSize OffsetAbove : Z)
    (Dest Dest1 : list (IVSRange Constant)) :
  let FromSize := getTypeStoreSize (Constant_getType FromC) in
  (Offset =? 0) && (TargetSize =? FromSize) = false ->
  FromSize < u64 (Offset + TargetSize) ->
  getConstSubVals fuel FromC Offset (u64 (FromSize - Offset)) OffsetAbove Dest
  = Some Dest1 ->
  getConstSubVals (S fuel) FromC Offset TargetSize OffsetAbove Dest
  = Some (Dest1 ++ [IVSR FromSize (u64 (u64 (Offset + TargetSize) - FromSize))
                         getOverdef]).
Proof.
  intros FromSize Hwhole Hpast Hrec. simpl. fold FromSize.
  rewrite Hwhole.
  replace (u64 (Offset + TargetSize) >? FromSize) with true
    by (symmetry; apply Z.gtb_lt; exact Hpast).
  rewrite Hrec. reflexivity.
Qed.

End ConstFacts.

Section ConstExamples.

#[local] Existing Instance ex_DataLayout.
#[local] Existing Instance ex_ConstEnvC.

(** C6.  On the struct [{i32, i8}], whose store size is 8, the four
    bytes from offset 4 are in bounds, and reading them off the constant
    gives the byte of the second member and three zero bytes.
    [getConstSubVals] describes them by the second member and an
    overdefined extent for the padding after it, so [valsToConst]
    returns null: [getSubConst] gives no constant.  On an array of four
    pointers, the sixteen bytes from offset 8 come back as a constant
    array of the type of the whole array, whose store size is 32, with
    the two elements as operands. *)
Theorem getSubConst_differs_from_the_bytes (fuel : nat) :
  getTypeStoreSize (Constant_getType ex_struct) = 8
  /\ ReadDataFromGlobal ex_struct 4 (replicate 4 0) = Some [5; 0; 0; 0]
  /\ getConstSubVals (3 + fuel) ex_struct 4 4 (s64 (- 4)) []
     = Some [IVSR 0 1 (ex_const_set ex_i8); IVSR 1 3 getOverdef]
  /\ getSubConst (3 + fuel) ex_struct 4 4 None = Some None
  /\ getSubConst (3 + fuel) ex_array 8 16 None
     = Some (Some (ConstantArray (ArrayTy 4 PointerTy)
                                 [ex_ptr 11; ex_ptr 12]))
  /\ getTypeStoreSize (ArrayTy 4 PointerTy) = 32.
Proof. repeat split; reflexivity. Qed.

(** C7.  On a 32-bit integer, whose store size is 4, the eight bytes
    from offset 0 run four bytes past the end.  [getConstSubVals]
    describes bytes 0 to 4 by the constant and appends one overdefined
    extent, whose pair is (4, 4): the store size and the number of bytes
    past the end, not the range from 4 to 8.  With [OffsetAbove] 16 the
    extent of the constant is moved to (16, 20) and the overdefined one
    is still (4, 4). *)
Theorem getConstSubVals_remainder_extent (fuel : nat) :
  getTypeStoreSize (Constant_getType ex_i32) = 4
  /\ getConstSubVals (2 + fuel) ex_i32 0 8 0 []
     = Some [IVSR 0 4 (ex_const_set ex_i32); IVSR 4 4 getOverdef]
  /\ getConstSubVals (2 + fuel) ex_i32 0 8 16 []
     = Some [IVSR 16 20 (ex_const_set ex_i32); IVSR 4 4 getOverdef].
Proof. repeat split; reflexivity. Qed.

End ConstExamples.

(** ** The theorems on particular inputs *)

Section ExampleFacts.

#[local] Existing Instance ex_Driver.
#[local] Existing Instance ex_ConstEnv.
#[local] Existing Instance ex_StoreEnv.
#[local] Existing Instance ex_StoreCalls.

(** A leaf shared by two snapshots: the writable copy is a new node and
    the old one is left with one holder. *)
Lemma getWritableNode_copy_on_write_witness :
  treeNodes ex_mem_tree !! 0%nat = Some ex_shared_leaf
  /\ exists newNode m',
       getWritableNode 0%nat 0%nat ex_mem_tree = Some (newNode, m')
       /\ treeNodes m' !! 0%nat = Some (mkSTN (children ex_shared_leaf) 1).
Proof.
  assert (Hn : treeNodes ex_mem_tree !! 0%nat = Some ex_shared_leaf)
    by reflexivity.
  split; [exact Hn|].
  destruct (proj2 (getWritableNode_copy_on_write ex_mem_tree 0%nat 0%nat
                     ex_shared_leaf Hn))
    as (newNode & m' & nn & Hrun & _ & _ & _ & Hold & _).
  - simpl. lia.
  - intros Hh. exfalso. apply Hh. reflexivity.
  - exists newNode, m'. split; [exact Hrun|exact Hold].
Defined.

(** A write through an overdefined set on the snapshot with one frame. *)
Lemma executeWriteInst_overdef_clobbers_everything_witness :
  Overdef (@getOverdef nat) = true
  /\ localMaps ex_mem_frame !! localStore (mkBB 0%nat) = Some ex_snapshot
  /\ wf_snapshot ex_mem_frame ex_snapshot
  /\ exists bb' m' lm',
       executeWriteInst getOverdef ex_pb_0 8 (mkBB 0%nat) ex_mem_frame
       = Some ((bb', ex_pb_0), m')
       /\ localMaps m' !! localStore bb' = Some lm'
       /\ allOthersClobbered lm' = true
       /\ empty_snapshot m' lm'.
Proof.
  assert (Hlm : localMaps ex_mem_frame !! localStore (mkBB 0%nat)
                = Some ex_snapshot) by reflexivity.
  assert (Hwf : wf_snapshot ex_mem_frame ex_snapshot).
  { split.
    - repeat constructor. exists 0%nat. split; [reflexivity|].
      eexists. reflexivity.
    - intros Hh. exfalso. apply Hh. reflexivity. }
  split; [reflexivity|]. split; [exact Hlm|]. split; [exact Hwf|].
  destruct (proj1 (executeWriteInst_overdef_clobbers_everything
                     getOverdef ex_pb_0 8 (mkBB 0%nat) ex_snapshot
                     ex_mem_frame eq_refl Hlm Hwf))
    as (bb' & m' & lm' & Hrun & Hlm' & Hfl & Hemp & _).
  exists bb', m', lm'. repeat split; auto; apply Hemp.
Defined.

(** Four bytes with two defined, combined with an instruction (an
    error) and with a constant (the two defined bytes stay). *)
Lemma combineWith_first_writer_wins_witness :
  isByteArray ex_bytes_pv = true
  /\ combineWith ex_bytes_pv ex_inst_pv 2 4 4 EmptyString
     = Some (false, "PP2"%string, ex_bytes_pv, ex_inst_pv)
  /\ forall j, validAt ex_bytes_pv j = Some true ->
       byteAt ex_bytes_done j = byteAt ex_bytes_pv j.
Proof.
  split; [reflexivity|]. split.
  - apply (proj1 (combineWith_first_writer_wins ex_bytes_pv ex_inst_pv
                    2 4 4 EmptyString eq_refl)); reflexivity.
  - apply (proj2 (combineWith_first_writer_wins ex_bytes_pv ex_const_pv
                    0 4 4 EmptyString eq_refl)
             true EmptyString ex_bytes_done ex_const_partial).
    reflexivity.
Defined.





(** Global 1 at offsets 0 and 4, eight bytes each. *)
Lemma tryResolve_overlap_not_NoAlias_witness :
  In ex_gv_0 (Values ex_pb_0) /\ In ex_gv_4 (Values ex_pb_4)
  /\ basesAlias (V ex_gv_0) (V ex_gv_4) = Some true
  /\ rangesOverlap (Offset ex_gv_0) 8 (Offset ex_gv_4) 8
  /\ tryResolveImprovedValSetSingles ex_pb_0 8 ex_pb_4 8 <> Some SVNoAlias.
Proof.
  assert (Hov : rangesOverlap (Offset ex_gv_0) 8 (Offset ex_gv_4) 8)
    by (unfold rangesOverlap; simpl; lia).
  split; [left; reflexivity|]. split; [left; reflexivity|].
  split; [reflexivity|]. split; [exact Hov|].
  apply (tryResolve_overlap_not_NoAlias ex_pb_0 ex_pb_4 8 8 ex_gv_0 ex_gv_4);
    try (left; reflexivity); try reflexivity; try exact Hov;
    try (unfold is_int64; simpl; lia); try lia; intros _; simpl; lia.
Defined.

(** Without the bound on [Offset + Size] the property of alias queries
    fails: the ranges of global 1 from offset 0, of 8 bytes and of
    [2 ^ 63] bytes, intersect, and the answer is [SVNoAlias], because
    [Offset + Size] is compared as a signed number. *)
Lemma overlap_excludes_NoAlias_counterexample :
  ~ overlap_excludes_NoAlias ex_pb_0 8 ex_pb_0 (2 ^ 63) ex_gv_0 ex_gv_0.
Proof.
  intros Hc. apply Hc.
  - left. reflexivity.
  - left. reflexivity.
  - reflexivity.
  - unfold rangesOverlap. simpl. lia.
  - reflexivity.
Qed.

(** The constant fills the whole range of four bytes: the value is
    complete and every byte is marked defined.  The same holds of the
    array that the constructor makes for four bytes, once the constant
    is combined into it. *)
Lemma isComplete_exactly_when_defined_witness :
  0 <= 4
  /\ combineWith ex_bytes_pv ex_const_pv 0 4 4 EmptyString
     = Some (true, EmptyString, ex_bytes_done, ex_const_partial)
  /\ isByteArray ex_bytes_done = true
  /\ (isComplete ex_bytes_done = true <->
      forall j : nat, Z.of_nat j < 4 -> validAt ex_bytes_done j = Some true)
  /\ exists pv,
       combineWith (PartialVal_new 4) ex_const_pv 0 4 4 EmptyString
       = Some (true, EmptyString, pv, ex_const_partial)
       /\ assembled 4 pv
       /\ isByteArray pv = true /\ partialBufBytes pv = 4
       /\ (isComplete pv = true <->
           forall j : nat, Z.of_nat j < 4 -> validAt pv j = Some true).
Proof.
  assert (Hpos : 0 <= 4) by lia.
  assert (Hrun : combineWith ex_bytes_pv ex_const_pv 0 4 4 EmptyString
                 = Some (true, EmptyString, ex_bytes_done, ex_const_partial))
    by reflexivity.
  split; [exact Hpos|]. split; [exact Hrun|].
  destruct (proj1 (proj2 (proj2 isComplete_exactly_when_defined))
              ex_bytes_pv ex_const_pv 0 4 4 EmptyString EmptyString
              ex_bytes_done ex_const_partial Hpos Hrun) as [Hba Hiff].
  split; [exact Hba|]. split; [exact Hiff|].
  eexists. split; [reflexivity|].
  match goal with
  | |- assembled 4 ?pv /\ _ =>
      assert (Hasm : assembled 4 pv)
        by (eapply (assembled_combine 4 (PartialVal_new 4) ex_const_pv
                      0 4 EmptyString);
            [apply assembled_new|reflexivity])
  end.
  split; [exact Hasm|].
  apply (proj2 (proj2 (proj2 isComplete_exactly_when_defined)) 4 _
               ltac:(lia) Hasm).
Defined.

(** Read literally the property of [isComplete] fails for the array
    that the constructor makes for a load of no bytes: every byte of the
    empty range is marked defined, the value is in neither lightweight
    form, and [isComplete] is false, since [loadFinished] is.  It fails
    too for a byte array whose one byte is marked defined while the
    flag is not set, which is not a value that the constructor and
    [combineWith] build. *)
Lemma complete_iff_all_defined_counterexample :
  ~ complete_iff_all_defined (PartialVal_new 0)
  /\ ~ complete_iff_all_defined ex_unfinished_pv.
Proof.
  split.
  - intros [_ Hc].
    assert (Hfalse : isComplete (PartialVal_new 0 : PartialVal nat) = false)
      by reflexivity.
    rewrite Hc in Hfalse; [discriminate|].
    left. intros j Hj. simpl in Hj. lia.
  - intros [_ Hc].
    assert (Hfalse : isComplete ex_unfinished_pv = false) by reflexivity.
    rewrite Hc in Hfalse; [discriminate|].
    left. intros j Hj. simpl in Hj.
    destruct j as [|j]; [reflexivity|lia].
Qed.


(** A write through the null pointer, a copy from it to global 1, and
    a copy of unknown size from an overdefined set to it. *)
Lemma null_candidates_leave_the_store_unchanged_witness :
  Overdef ex_pb_null = false
  /\ (forall iv, In iv (Values ex_pb_null) -> val_is_null (V iv) = true)
  /\ executeWriteInst ex_pb_null ex_pb_0 8 (mkBB 0%nat) ex_mem_frame
     = Some ((mkBB 0%nat, ex_pb_0), ex_mem_frame)
  /\ executeCopyInst ex_pb_0 ex_pb_null 8 (mkBB 0%nat) ex_mem_frame
     = Some (mkBB 0%nat, ex_mem_frame)
  /\ executeCopyInst ex_pb_null getOverdef ULONG_MAX (mkBB 0%nat)
                     ex_mem_frame
     = Some (mkBB 0%nat, ex_mem_frame).
Proof.
  assert (Hnull : forall iv, In iv (Values ex_pb_null) ->
                    val_is_null (V iv) = true).
  { intros iv [<-|[]]. reflexivity. }
  split; [reflexivity|]. split; [exact Hnull|]. split; [|split].
  - exact (proj1 (null_candidates_leave_the_store_unchanged
                    ex_pb_null ex_pb_null ex_pb_0 8 8 (mkBB 0%nat)
                    ex_mem_frame) eq_refl Hnull).
  - apply (proj2 (proj2 (null_candidates_leave_the_store_unchanged
                           ex_pb_0 ex_pb_null ex_pb_0 8 8 (mkBB 0%nat)
                           ex_mem_frame)) ex_null ex_gv_0);
      try reflexivity.
    unfold ULONG_MAX. lia.
  - apply (proj1 (proj2 (null_candidates_leave_the_store_unchanged
                           ex_pb_null getOverdef ex_pb_0 8 ULONG_MAX
                           (mkBB 0%nat) ex_mem_frame)) ex_null);
      reflexivity.
Defined.

(** Read literally the property of copies fails: with the null pointer
    as the only source candidate and an overdefined destination set, the
    copy is a write through the overdefined set, which sets the flag of
    the block's snapshot and empties its frame.  The same happens when
    the set written or copied to holds the null pointer and has its
    flag [Overdef] set. *)
Lemma null_copy_changes_nothing_counterexample :
  ~ null_copy_changes_nothing getOverdef ex_pb_null 8 (mkBB 0%nat)
      ex_mem_frame
  /\ ~ null_copy_changes_nothing ex_pb_null_overdef ex_pb_0 8 (mkBB 0%nat)
        ex_mem_frame
  /\ ~ null_write_changes_nothing ex_pb_null_overdef ex_pb_0 8 (mkBB 0%nat)
        ex_mem_frame.
Proof.
  assert (Hflag : flagOf ex_mem_frame 0%nat = false) by reflexivity.
  split; [|split].
  - intros Hc. destruct Hc as [BB' Hrun].
    { left. exists ex_null. split; reflexivity. }
    assert (Hnew : forall BB'' m',
              executeCopyInst getOverdef ex_pb_null 8 (mkBB 0%nat)
                              ex_mem_frame
              = Some (BB'', m') -> flagOf m' 0%nat = true).
    { intros BB'' m' Heq. vm_compute in Heq. injection Heq as _ <-.
      reflexivity. }
    rewrite (Hnew _ _ Hrun) in Hflag. discriminate.
  - intros Hc. destruct Hc as [BB' Hrun].
    { right. exists ex_null. split; reflexivity. }
    assert (Hnew : forall BB'' m',
              executeCopyInst ex_pb_null_overdef ex_pb_0 8 (mkBB 0%nat)
                              ex_mem_frame
              = Some (BB'', m') -> flagOf m' 0%nat = true).
    { intros BB'' m' Heq. vm_compute in Heq. injection Heq as _ <-.
      reflexivity. }
    rewrite (Hnew _ _ Hrun) in Hflag. discriminate.
  - intros Hc. destruct Hc as [r Hrun].
    { discriminate. }
    { intros iv [<-|[]]. reflexivity. }
    assert (Hnew : forall r' m',
              executeWriteInst ex_pb_null_overdef ex_pb_0 8 (mkBB 0%nat)
                               ex_mem_frame
              = Some (r', m') -> flagOf m' 0%nat = true).
    { intros r' m' Heq. vm_compute in Heq. injection Heq as _ <-.
      reflexivity. }
    rewrite (Hnew _ _ Hrun) in Hflag. discriminate.
Qed.

End ExampleFacts.

(** ** Where the refusal fails *)

Section BigExampleFacts.

#[local] Existing Instance ex_ConstEnv_big.





End BigExampleFacts.

(** * More properties of the code *)

(** ** Alias resolution, continued *)

Section MoreAliasFacts.

Context {Val : Type} `{EqDecision Val} `{Driver Val}.

Lemma ctxContains_self (ctx : IntegrationAttempt) :
  ctxContains ctx (ia_self ctx) = true.
Proof. destruct ctx; simpl; rewrite Nat.eqb_refl; reflexivity. Qed.

Lemma basesAlias_refl (v : ShadowValue Val) :
  v <> SHADOWVAL_INVAL -> basesAlias v v = Some true.
Proof.
  destruct v; simpl; intros Hv; try congruence.
  - rewrite Nat.eqb_refl. reflexivity.
  - rewrite Nat.eqb_refl, ctxContains_self. reflexivity.
  - rewrite Nat.eqb_refl. reflexivity.
  - rewrite bool_decide_eq_true_2 by reflexivity. reflexivity.
Qed.

Lemma basesAlias_sym (v1 v2 : ShadowValue Val) :
  v1 <> SHADOWVAL_INVAL -> v2 <> SHADOWVAL_INVAL ->
  basesAlias v1 v2 = basesAlias v2 v1.
Proof.
  destruct v1, v2; simpl; intros Hv1 Hv2; try congruence.
  - rewrite Nat.eqb_sym. reflexivity.
  - rewrite (Nat.eqb_sym (inst_invar I0)).
    destruct (Nat.eqb (inst_invar I) (inst_invar I0)); [|reflexivity].
    rewrite orb_comm. reflexivity.
  - rewrite Nat.eqb_sym. reflexivity.
  - f_equal. apply bool_decide_ext. split; congruence.
Qed.

Lemma basesAlias_defined (v1 v2 : ShadowValue Val) :
  v1 <> SHADOWVAL_INVAL -> exists b, basesAlias v1 v2 = Some b.
Proof.
  destruct v1; intros Hv; try congruence; destruct v2; simpl; eauto.
  destruct (Nat.eqb _ _); eauto.
Qed.

(** X1.  [basesAlias] relates every value other than the invalid one to
    itself, and gives the same answer whichever way round two such
    values are passed.  For an instruction this rests on every context
    containing itself. *)
Theorem basesAlias_reflexive_and_symmetric (V1 V2 : ShadowValue Val) :
  V1 <> SHADOWVAL_INVAL -> V2 <> SHADOWVAL_INVAL ->
  basesAlias V1 V1 = Some true
  /\ basesAlias V1 V2 = basesAlias V2 V1.
Proof.
  intros Hv1 Hv2. split.
  - apply basesAlias_refl, Hv1.
  - apply basesAlias_sym; assumption.
Qed.

(** The loop body gives the same verdict for a pair and for the pair
    the other way round, with the sizes exchanged. *)
Lemma aliasStep_sym V1Size V2Size (IV1 IV2 : ImprovedVal Val) :
  V IV1 <> SHADOWVAL_INVAL -> V IV2 <> SHADOWVAL_INVAL ->
  aliasStep V1Size V2Size IV1 IV2 = aliasStep V2Size V1Size IV2 IV1.
Proof.
  intros Hv1 Hv2. unfold aliasStep.
  rewrite (basesAlias_sym (V IV1) (V IV2)) by assumption.
  destruct (basesAlias (V IV2) (V IV1)) as [[]|]; try reflexivity.
  rewrite (orb_comm (Offset IV1 =? LLONG_MAX)).
  destruct ((Offset IV2 =? LLONG_MAX) || (Offset IV1 =? LLONG_MAX));
    [reflexivity|].
  rewrite (orb_comm (negb (V2Size =? UnknownSize) && _)).
  rewrite !Z.geb_leb. reflexivity.
Qed.

Lemma aliasStep_result V1Size V2Size (IV1 IV2 : ImprovedVal Val) r :
  aliasStep V1Size V2Size IV1 IV2 = Some (Some r) -> r = SVPartialAlias.
Proof.
  unfold aliasStep.
  destruct (basesAlias (V IV1) (V IV2)) as [[]|]; try discriminate.
  repeat match goal with
         | |- (if ?c then _ else _) = _ -> _ => destruct c
         end; congruence.
Qed.

Lemma aliasStep_defined V1Size V2Size (IV1 IV2 : ImprovedVal Val) :
  V IV1 <> SHADOWVAL_INVAL -> aliasStep V1Size V2Size IV1 IV2 <> None.
Proof.
  intros Hv. unfold aliasStep.
  destruct (basesAlias_defined (V IV1) (V IV2) Hv) as [b ->].
  destruct b; [|discriminate].
  repeat match goal with
         | |- (if ?c then _ else _) <> _ => destruct c
         end; discriminate.
Qed.

(** What the inner and the outer loop compute when no base is the
    invalid value: they stop with [SVPartialAlias] at some pair, or run
    to the end because the body passes over every pair. *)
Lemma aliasInner_spec V1Size V2Size (IV1 : ImprovedVal Val) vals2 :
  V IV1 <> SHADOWVAL_INVAL ->
  (aliasInner V1Size V2Size IV1 vals2 = Some (Some SVPartialAlias)
   /\ exists IV2, In IV2 vals2
        /\ aliasStep V1Size V2Size IV1 IV2 = Some (Some SVPartialAlias))
  \/ (aliasInner V1Size V2Size IV1 vals2 = Some None
      /\ forall IV2, In IV2 vals2 ->
           aliasStep V1Size V2Size IV1 IV2 = Some None).
Proof.
  intros Hv. induction vals2 as [|x rest IH]; simpl.
  - right. split; [reflexivity|]. intros ? [].
  - destruct (aliasStep V1Size V2Size IV1 x) as [[r|]|] eqn:Hx.
    + pose proof (aliasStep_result _ _ _ _ _ Hx) as ->.
      left. split; [reflexivity|]. exists x. auto.
    + destruct IH as [[Hr (y & Hy & Hs)]|[Hr Hall]].
      * left. split; [exact Hr|]. exists y. auto.
      * right. split; [exact Hr|]. intros y [<-|Hy]; auto.
    + exfalso. exact (aliasStep_defined _ _ _ _ Hv Hx).
Qed.

Lemma aliasOuter_spec V1Size V2Size (vals1 vals2 : list (ImprovedVal Val)) :
  (forall IV1, In IV1 vals1 -> V IV1 <> SHADOWVAL_INVAL) ->
  (aliasOuter V1Size V2Size vals1 vals2 = Some (Some SVPartialAlias)
   /\ exists IV1 IV2, In IV1 vals1 /\ In IV2 vals2
        /\ aliasStep V1Size V2Size IV1 IV2 = Some (Some SVPartialAlias))
  \/ (aliasOuter V1Size V2Size vals1 vals2 = Some None
      /\ forall IV1 IV2, In IV1 vals1 -> In IV2 vals2 ->
           aliasStep V1Size V2Size IV1 IV2 = Some None).
Proof.
  intros Hv. induction vals1 as [|x rest IH]; simpl.
  - right. split; [reflexivity|]. intros ? ? [].
  - destruct (aliasInner_spec V1Size V2Size x vals2)
      as [[Hr (y & Hy & Hs)]|[Hr Hall]]; [apply Hv; left; reflexivity|..].
    + rewrite Hr. left. split; [reflexivity|]. exists x, y. simpl. auto.
    + rewrite Hr.
      destruct IH as [[Hr' (a & b & Ha & Hb & Hs)]|[Hr' Hall']].
      * intros ? ?. apply Hv. right. assumption.
      * left. split; [exact Hr'|]. exists a, b. simpl. auto.
      * right. split; [exact Hr'|]. intros a b [<-|Ha] Hb; auto.
Qed.

(** The unique non-null candidate in terms of the list of non-null
    candidates. *)
Lemma getUniqueNonNullIV_from_spec (vals : list (ImprovedVal Val)) u :
  getUniqueNonNullIV_from vals u
  = match nonNulls vals with
    | [] => u
    | [iv] => match u with None => Some iv | Some _ => None end
    | _ => None
    end.
Proof.
  revert u. induction vals as [|x rest IH]; intros u; [reflexivity|].
  unfold nonNulls in *. simpl. rewrite filter_cons.
  destruct (val_is_null (V x)) eqn:Hx.
  - rewrite decide_False by discriminate. apply IH.
  - rewrite decide_True by reflexivity.
    destruct u as [u|].
    + destruct (filter _ rest); reflexivity.
    + rewrite IH. destruct (filter _ rest) as [|y [|z l]]; reflexivity.
Qed.

Lemma getUniqueNonNullIV_spec (PB : ImprovedValSetSingle Val) iv :
  getUniqueNonNullIV PB = Some iv <-> nonNulls (Values PB) = [iv].
Proof.
  unfold getUniqueNonNullIV. rewrite getUniqueNonNullIV_from_spec.
  destruct (nonNulls (Values PB)) as [|y [|z l]]; split; congruence.
Qed.

Lemma PBsMustAlias_spec (PB1 PB2 : ImprovedValSetSingle Val) :
  PBsMustAliasIfStoredAndLoaded PB1 PB2 = true <->
  exists IV1 IV2, nonNulls (Values PB1) = [IV1]
    /\ nonNulls (Values PB2) = [IV2]
    /\ Offset IV1 <> LLONG_MAX /\ Offset IV1 = Offset IV2
    /\ V IV1 = V IV2.
Proof.
  unfold PBsMustAliasIfStoredAndLoaded. split.
  - destruct (getUniqueNonNullIV PB1) as [IV1|] eqn:H1; [|discriminate].
    destruct (getUniqueNonNullIV PB2) as [IV2|] eqn:H2; [|discriminate].
    intros Hc. apply andb_prop in Hc as [Hc Hv].
    apply andb_prop in Hc as [Hn He].
    exists IV1, IV2. rewrite <- !getUniqueNonNullIV_spec.
    repeat split; auto.
    + intros Heq. rewrite Heq, Z.eqb_refl in Hn. discriminate.
    + apply Z.eqb_eq, He.
    + apply bool_decide_eq_true_1 in Hv. exact Hv.
  - intros (IV1 & IV2 & H1 & H2 & Hn & He & Hv).
    apply getUniqueNonNullIV_spec in H1, H2. rewrite H1, H2.
    rewrite (proj2 (Z.eqb_neq _ _) Hn), (proj2 (Z.eqb_eq _ _) He).
    rewrite bool_decide_eq_true_2 by exact Hv. reflexivity.
Qed.

Lemma aliasInner_result V1Size V2Size (IV1 : ImprovedVal Val) vals2 r :
  aliasInner V1Size V2Size IV1 vals2 = Some (Some r) -> r = SVPartialAlias.
Proof.
  induction vals2 as [|y l2 IH]; simpl; [discriminate|].
  destruct (aliasStep V1Size V2Size IV1 y) as [[r'|]|] eqn:Hs;
    try discriminate; [|exact IH].
  intros Heq. injection Heq as ->. eapply aliasStep_result; eauto.
Qed.

Lemma aliasOuter_result V1Size V2Size (vals1 vals2 : list (ImprovedVal Val)) r :
  aliasOuter V1Size V2Size vals1 vals2 = Some (Some r) -> r = SVPartialAlias.
Proof.
  induction vals1 as [|x l1 IH]; simpl; [discriminate|].
  destruct (aliasInner V1Size V2Size x vals2) as [[r'|]|] eqn:Hi;
    try discriminate; [|exact IH].
  intros Heq. injection Heq as ->. eapply aliasInner_result; eauto.
Qed.

(** X2.  The query answers [SVMustAlias] exactly when the two access
    sizes are equal and each set has exactly one candidate that is not
    the null pointer, the two being the same value at the same offset,
    which is not the vague one.  Null candidates on either side do not
    matter. *)
Theorem tryResolve_MustAlias_iff
    (PB1 PB2 : ImprovedValSetSingle Val) (V1Size V2Size : Z) :
  tryResolveImprovedValSetSingles PB1 V1Size PB2 V2Size = Some SVMustAlias
  <-> V1Size = V2Size
      /\ exists IV1 IV2, nonNulls (Values PB1) = [IV1]
           /\ nonNulls (Values PB2) = [IV2]
           /\ Offset IV1 <> LLONG_MAX /\ Offset IV1 = Offset IV2
           /\ V IV1 = V IV2.
Proof.
  rewrite <- PBsMustAlias_spec.
  unfold tryResolveImprovedValSetSingles. split.
  - destruct ((V1Size =? V2Size) && PBsMustAliasIfStoredAndLoaded PB1 PB2)
      eqn:Hc.
    + intros _. apply andb_prop in Hc as [He Hm].
      split; [apply Z.eqb_eq, He|exact Hm].
    + destruct (aliasOuter V1Size V2Size (Values PB1) (Values PB2))
        as [[r|]|] eqn:Hrun; try discriminate.
      apply aliasOuter_result in Hrun. subst r. discriminate.
  - intros [-> Hm]. rewrite Z.eqb_refl, Hm. reflexivity.
Qed.

(** X3.  The query is symmetric: exchanging the two sets together with
    their sizes gives the same answer, when no candidate is the invalid
    value (on which [basesAlias] asserts). *)
Theorem tryResolve_symmetric
    (PB1 PB2 : ImprovedValSetSingle Val) (V1Size V2Size : Z) :
  (forall IV, In IV (Values PB1) -> V IV <> SHADOWVAL_INVAL) ->
  (forall IV, In IV (Values PB2) -> V IV <> SHADOWVAL_INVAL) ->
  tryResolveImprovedValSetSingles PB1 V1Size PB2 V2Size
  = tryResolveImprovedValSetSingles PB2 V2Size PB1 V1Size.
Proof.
  intros Hv1 Hv2. unfold tryResolveImprovedValSetSingles.
  assert (Hm : (V1Size =? V2Size) && PBsMustAliasIfStoredAndLoaded PB1 PB2
               = (V2Size =? V1Size) && PBsMustAliasIfStoredAndLoaded PB2 PB1).
  { rewrite (Z.eqb_sym V1Size). f_equal.
    apply eq_true_iff_eq. rewrite !PBsMustAlias_spec.
    split; intros (a & b & Ha & Hb & Hn & He & Hv); exists b, a;
      repeat split; auto; congruence. }
  rewrite Hm.
  destruct ((V2Size =? V1Size) && PBsMustAliasIfStoredAndLoaded PB2 PB1);
    [reflexivity|].
  destruct (aliasOuter_spec V1Size V2Size (Values PB1) (Values PB2) Hv1)
    as [[Hr (a & b & Ha & Hb & Hs)]|[Hr Hall]];
  destruct (aliasOuter_spec V2Size V1Size (Values PB2) (Values PB1) Hv2)
    as [[Hr' (a' & b' & Ha' & Hb' & Hs')]|[Hr' Hall']];
  rewrite Hr, Hr'; try reflexivity; exfalso.
  - specialize (Hall' b a Hb Ha).
    rewrite <- aliasStep_sym in Hall' by auto. congruence.
  - specialize (Hall b' a' Hb' Ha').
    rewrite aliasStep_sym in Hall by auto. congruence.
Qed.

Lemma nonNulls_In (vals : list (ImprovedVal Val)) iv :
  nonNulls vals = [iv] -> In iv vals.
Proof.
  intros Hn. apply list_elem_of_In.
  assert (Hin : iv ∈ nonNulls vals) by (rewrite Hn; apply list_elem_of_here).
  unfold nonNulls in Hin. apply list_elem_of_filter in Hin. tauto.
Qed.

(** X4.  The query answers [SVNoAlias] whenever every pair of
    candidates on aliasing bases has two known offsets and ranges that
    lie apart, the lower one having a known size whose end [Offset +
    Size] is within the signed 64-bit range.  The sizes are not zero and
    no candidate of the first set is the invalid value. *)
Theorem tryResolve_disjoint_NoAlias
    (PB1 PB2 : ImprovedValSetSingle Val) (V1Size V2Size : Z) :
  (forall IV, In IV (Values PB1) -> V IV <> SHADOWVAL_INVAL) ->
  0 < V1Size -> 0 < V2Size ->
  (forall IV1 IV2, In IV1 (Values PB1) -> In IV2 (Values PB2) ->
     basesAlias (V IV1) (V IV2) = Some true ->
     Offset IV1 <> LLONG_MAX /\ Offset IV2 <> LLONG_MAX
     /\ ((V2Size <> UnknownSize /\ is_int64 (Offset IV2 + V2Size)
          /\ Offset IV2 + V2Size <= Offset IV1)
         \/ (V1Size <> UnknownSize /\ is_int64 (Offset IV1 + V1Size)
             /\ Offset IV1 + V1Size <= Offset IV2))) ->
  tryResolveImprovedValSetSingles PB1 V1Size PB2 V2Size = Some SVNoAlias.
Proof.
  intros Hv Hs1 Hs2 Hapart. unfold tryResolveImprovedValSetSingles.
  destruct ((V1Size =? V2Size) && PBsMustAliasIfStoredAndLoaded PB1 PB2)
    eqn:Hc.
  - exfalso. apply andb_prop in Hc as [_ Hm].
    apply PBsMustAlias_spec in Hm
      as (IV1 & IV2 & Hn1 & Hn2 & _ & He & Hveq).
    apply nonNulls_In in Hn1, Hn2.
    destruct (Hapart IV1 IV2 Hn1 Hn2) as (_ & _ & Hd).
    { rewrite <- Hveq. apply basesAlias_refl, Hv, Hn1. }
    lia.
  - destruct (aliasOuter_spec V1Size V2Size (Values PB1) (Values PB2) Hv)
      as [[Hr (a & b & Ha & Hb & Hs)]|[Hr Hall]]; rewrite Hr;
      [exfalso|reflexivity].
    unfold aliasStep in Hs.
    destruct (basesAlias (V a) (V b)) as [[]|] eqn:Hb'; try discriminate.
    destruct (Hapart a b Ha Hb Hb') as (Hn1 & Hn2 & Hd).
    rewrite (proj2 (Z.eqb_neq _ _) Hn1), (proj2 (Z.eqb_neq _ _) Hn2) in Hs.
    simpl in Hs.
    destruct Hd as [(Hk & Hi & Hle)|(Hk & Hi & Hle)].
    + rewrite (proj2 (Z.eqb_neq _ _) Hk), (s64_id _ Hi) in Hs.
      rewrite Z.geb_leb, (proj2 (Z.leb_le _ _) Hle) in Hs.
      simpl in Hs. discriminate.
    + rewrite (proj2 (Z.eqb_neq _ _) Hk), (s64_id _ Hi) in Hs.
      rewrite (proj2 (Z.leb_le _ _) Hle), orb_true_r in Hs.
      simpl in Hs. discriminate.
Qed.

Lemma shouldMultiload_loop_spec (vals : list (ImprovedVal Val)) (n : Z) :
  0 <= n -> n + Z.of_nat (length vals) < 2 ^ 32 ->
  shouldMultiload_loop vals n
  = if bool_decide (Forall (fun iv => Offset iv <> LLONG_MAX) (nonNulls vals))
    then Some (n + Z.of_nat (length (nonNulls vals)))
    else None.
Proof.
  revert n. induction vals as [|x rest IH]; intros n Hn Hlen.
  - unfold nonNulls. rewrite filter_nil.
    rewrite bool_decide_eq_true_2 by constructor.
    simpl. f_equal. lia.
  - simpl in Hlen. unfold nonNulls in *. cbn [shouldMultiload_loop].
    rewrite filter_cons.
    destruct (val_is_null (V x)) eqn:Hx.
    + rewrite decide_False by discriminate. apply IH; lia.
    + rewrite decide_True by reflexivity.
      destruct (Z.eqb_spec (Offset x) LLONG_MAX) as [He|Hne].
      * rewrite bool_decide_eq_false_2; [reflexivity|].
        intros Hall. inversion Hall. contradiction.
      * rewrite Z.mod_small by lia. rewrite IH by lia.
        assert (Hlen' : (length (filter (fun iv : ImprovedVal Val =>
                            val_is_null (V iv) = false) rest)
                         <= length rest)%nat) by apply length_filter.
        destruct (bool_decide (Forall _ (filter _ rest))) eqn:Hd.
        -- apply bool_decide_eq_true_1 in Hd.
           rewrite bool_decide_eq_true_2 by (constructor; assumption).
           f_equal. simpl. lia.
        -- apply bool_decide_eq_false_1 in Hd.
           rewrite bool_decide_eq_false_2; [reflexivity|].
           intros Hall. inversion Hall. contradiction.
Qed.

(** X5.  [shouldMultiload] accepts a set exactly when it is not
    overdefined, is a set of pointers, has a candidate other than the
    null pointer, and none of those has the vague offset.  The set has
    fewer than [2 ^ 32] candidates, the range of the loop counter. *)
Theorem shouldMultiload_iff (PB : ImprovedValSetSingle Val) :
  Z.of_nat (length (Values PB)) < 2 ^ 32 ->
  shouldMultiload PB = true
  <-> Overdef PB = false /\ SetType PB = ValSetTypePB
      /\ nonNulls (Values PB) <> []
      /\ forall iv, In iv (Values PB) -> val_is_null (V iv) = false ->
           Offset iv <> LLONG_MAX.
Proof.
  intros Hlen. unfold shouldMultiload.
  rewrite shouldMultiload_loop_spec by lia.
  assert (Hall : Forall (fun iv : ImprovedVal Val => Offset iv <> LLONG_MAX)
                        (nonNulls (Values PB))
                 <-> forall iv, In iv (Values PB) ->
                       val_is_null (V iv) = false -> Offset iv <> LLONG_MAX).
  { rewrite Forall_forall. unfold nonNulls. split.
    - intros Hf iv Hin Hnn. apply Hf, list_elem_of_filter.
      split; [exact Hnn|apply list_elem_of_In, Hin].
    - intros Hf iv Hin. apply list_elem_of_filter in Hin as [Hnn Hin].
      apply Hf; [apply list_elem_of_In, Hin|exact Hnn]. }
  destruct (Overdef PB); simpl; [split; [discriminate|intros [? _]; discriminate]|].
  destruct (Values PB) as [|x rest] eqn:Hvals; simpl Nat.eqb; cbv iota.
  { split; [discriminate|]. intros (_ & _ & Hne & _). contradiction. }
  destruct (decide (SetType PB = ValSetTypePB)) as [Ht|Ht].
  2:{ rewrite bool_decide_eq_false_2 by exact Ht. simpl.
      split; [discriminate|]. intros (_ & ? & _). contradiction. }
  rewrite bool_decide_eq_true_2 by exact Ht. simpl negb. cbv iota.
  destruct (bool_decide (Forall _ (nonNulls (x :: rest)))) eqn:Hd.
  - apply bool_decide_eq_true_1 in Hd.
    rewrite Z.geb_leb, Z.leb_le. split.
    + intros Hcount. repeat split; auto.
      * intros Hnil. rewrite Hnil in Hcount. simpl in Hcount. lia.
      * apply Hall, Hd.
    + intros (_ & _ & Hne & _).
      destruct (nonNulls (x :: rest)); [contradiction|]. simpl. lia.
  - apply bool_decide_eq_false_1 in Hd.
    split; [discriminate|]. intros (_ & _ & _ & Hf).
    exfalso. apply Hd, Hall, Hf.
Qed.

End MoreAliasFacts.

(** ** Building a value from pieces *)

Section MorePartialValFacts.

Context {Val : Type} `{ConstEnv Val} `{SplatEnv Val}.

Lemma newBuf_length (N : Z) :
  0 <= N -> N + 7 < 2 ^ 64 ->
  (Z.to_nat N <= length (newBuf (u64 (N + 7) / 8)))%nat.
Proof.
  intros HN Hsz. unfold newBuf. rewrite length_map, length_seq.
  rewrite u64_id by (unfold is_uint64; lia).
  pose proof (Z.mod_pos_bound (N + 7) 8 ltac:(lia)).
  pose proof (Z.div_mod (N + 7) 8 ltac:(lia)). lia.
Qed.

Lemma PartialVal_new_shape (N : Z) :
  0 <= N -> N + 7 < 2 ^ 64 ->
  pv_shape N (PartialVal_new N)
  /\ forall j, (j < Z.to_nat N)%nat ->
       validAt (PartialVal_new N) j = Some false.
Proof.
  intros HN Hsz. split.
  - split; [reflexivity|]. split; [reflexivity|].
    eexists _, _. split; [reflexivity|]. split; [reflexivity|].
    split; [apply length_replicate|apply newBuf_length; assumption].
  - intros j Hj. unfold validAt. simpl.
    apply lookup_replicate_2. exact Hj.
Qed.

Lemma splatLoop_spec n : forall i v buffer validBuf,
  (i + n <= length buffer)%nat -> (i + n <= length validBuf)%nat ->
  exists buffer' validBuf',
    splatLoop n i v buffer validBuf = Some (buffer', validBuf')
    /\ length buffer' = length buffer
    /\ forall j, (i <= j < i + n)%nat -> buffer' !! j = Some v.
Proof.
  induction n as [|n IH]; intros i v buffer validBuf Hb Hv; simpl.
  - eexists _, _. split; [reflexivity|]. split; [reflexivity|]. lia.
  - destruct decide as [_|Hno]; [|exfalso; lia].
    destruct (IH (S i) v (<[i := v]> buffer) (<[i := true]> validBuf))
      as (b' & v' & Hrun & Hlen & Hall);
      try (rewrite length_insert; lia).
    exists b', v'. split; [exact Hrun|]. rewrite length_insert in Hlen.
    split; [exact Hlen|]. intros j Hj.
    destruct (decide (j = i)) as [->|Hne]; [|apply Hall; lia].
    clear -Hrun Hb. revert Hrun.
    assert (Hi : (<[i := v]> buffer) !! i = Some v)
      by (apply list_lookup_insert_eq; lia).
    revert Hi. generalize (<[i := v]> buffer) (<[i := true]> validBuf).
    assert (Hlt : (i < S i)%nat) by lia. revert Hlt.
    generalize (S i). clear. induction n as [|n IH]; simpl.
    + intros k _ b0 v0 Hi Heq. injection Heq as <- _. exact Hi.
    + intros k Hk b0 v0 Hi. destruct decide; [|discriminate].
      apply IH; [lia|]. rewrite list_lookup_insert_ne by lia. exact Hi.
Qed.

(** One successful [combineWith] on a byte array of [N] bytes, for a
    source that offers the bytes [tempBuf]. *)
Lemma combineWith_piece_step (this NewPV Other' : PartialVal Val)
    (tempBuf : list Z) (N FD Size : Z) (error : string) :
  pv_shape N this ->
  byteSource NewPV (Z.to_nat Size) = Some (inr (Other', tempBuf)) ->
  (Z.to_nat Size <= length tempBuf)%nat ->
  0 <= FD -> 0 < Size -> FD + Size <= N -> N < 2 ^ 64 ->
  exists this',
    combineWith this NewPV FD (u64 (FD + Size)) N error
      = Some (true, error, this', Other')
    /\ pv_shape N this'
    /\ (forall j : nat, Z.of_nat j < N ->
          validAt this' j
          = if decide (FD <= Z.of_nat j < FD + Size) then Some true
            else validAt this j)
    /\ (forall j : nat, Z.of_nat j < N ->
          byteAt this' j
          = if decide (FD <= Z.of_nat j < FD + Size
                       /\ validAt this j = Some false)
            then tempBuf !! (j - Z.to_nat FD)%nat
            else byteAt this j)
    /\ (loadFinished this' = true
        <-> forall j : nat, Z.of_nat j < N -> validAt this' j = Some true).
Proof.
  intros (Hty & HN & valid & buf & Hv & Hb & Hlv & Hlb) Hsrc Htl
         HFD HSz Hfit HN64.
  assert (Hu1 : u64 (FD + Size) = FD + Size)
    by (apply u64_id; unfold is_uint64; lia).
  assert (Hu2 : u64 (FD + Size - FD) = Size)
    by (replace (FD + Size - FD) with Size by lia;
        apply u64_id; unfold is_uint64; lia).
  destruct (copyLoop_total (Z.to_nat Size) 0 FD valid tempBuf buf)
    as [buf' Hcp]; try lia.
  destruct (validLoop_total (Z.to_nat N) 0 FD (FD + Size) N valid true)
    as [[valid' fin] Hvl]; try lia.
  exists (mkPV (type this) (TotalIV this) (TotalIVType this) (C this)
               (ReadOffset this) (Some buf') (Some valid')
               (partialBufBytes this) fin).
  pose proof (copyLoop_keeps_valid _ _ _ _ _ _ _ Hcp) as [Hlen' _].
  pose proof (copyLoop_spec (Z.to_nat Size) 0 FD valid tempBuf buf buf' HFD
                ltac:(lia) Hcp) as Hbytes.
  apply validLoop_spec in Hvl as Hspec; [|lia|lia].
  destruct Hspec as (Hvlen & Hlook & Hfin).
  split; [|split; [|split; [|split]]].
  - unfold combineWith, isEmpty, isByteArray. rewrite Hty. simpl.
    rewrite Hty. simpl. rewrite Hu1, Hu2, Hsrc, HN.
    destruct (Z.ltb_spec FD N); [|lia].
    destruct (Z.leb_spec (FD + Size) N); [|lia]. simpl.
    rewrite Hv, Hb. simpl. rewrite Hcp. simpl. rewrite Hvl. simpl.
    reflexivity.
  - split; [exact Hty|]. split; [exact HN|].
    exists valid', buf'. simpl. repeat split; auto; lia.
  - intros j Hj. unfold validAt. simpl. rewrite Hv. simpl.
    rewrite Hlook. repeat destruct decide; try reflexivity; lia.
  - intros j Hj. unfold byteAt, validAt. simpl. rewrite Hv, Hb. simpl.
    rewrite Hbytes.
    destruct (decide (Z.to_nat FD + 0 <= j < Z.to_nat FD + 0 + Z.to_nat Size)%nat)
      as [Hin|Hout].
    + destruct (valid !! j) as [[]|] eqn:Hvj.
      * rewrite decide_False; [reflexivity|]. intros [_ Hx]. discriminate.
      * rewrite decide_True; [reflexivity|]. split; [lia|reflexivity].
      * rewrite decide_False; [reflexivity|]. intros [_ Hx]. discriminate.
    + rewrite decide_False; [reflexivity|]. intros [Hx _]. lia.
  - simpl. rewrite Hfin. unfold validAt. simpl. split.
    + intros [_ Hall] j Hj. rewrite Hlook.
      destruct decide; [reflexivity|]. apply Hall; lia.
    + intros Hall. split; [reflexivity|]. intros j Hj Hnw.
      specialize (Hall j ltac:(lia)). rewrite Hlook in Hall.
      destruct decide; [lia|exact Hall].
Qed.

(** Adding one piece that fits. *)
Lemma addIVSToPartialVal_fits (this : PartialVal Val) (p : Piece Val)
    (N : Z) (error : string) (bytes : list Z) :
  pv_shape N this -> fits N p -> pieceBytes p = Some bytes ->
  N + 7 < 2 ^ 64 ->
  exists this',
    addIVSToPartialVal (pIVS p) (pIVSOffset p) (pPVOffset p) (pSize p)
                       this error = Some (true, error, this')
    /\ pv_shape N this'
    /\ (forall j : nat, Z.of_nat j < N ->
          validAt this' j
          = if covers j p then Some true else validAt this j)
    /\ (forall j : nat, Z.of_nat j < N ->
          byteAt this' j
          = if decide (covers j p = true /\ validAt this j = Some false)
            then bytes !! (j - Z.to_nat (pPVOffset p))%nat
            else byteAt this j)
    /\ (loadFinished this' = true
        <-> forall j : nat, Z.of_nat j < N -> validAt this' j = Some true).
Proof.
  intros Hshape (_ & HFD & HSz & Hfit) Hbytes HN.
  assert (Hcov : forall j : nat,
            covers j p = true
            <-> pPVOffset p <= Z.of_nat j < pPVOffset p + pSize p).
  { intros j. unfold covers. rewrite andb_true_iff, Z.leb_le, Z.ltb_lt.
    reflexivity. }
  assert (Hsrc : exists NewPV Other' tempBuf,
            (iv0 ← Values (pIVS p) !! 0%nat;
             DefC ← dyn_cast_Constant (V iv0);
             (if bool_decide (SetType (pIVS p) = ValSetTypeScalar)
              then Some (getPartial DefC (pIVSOffset p))
              else
                lv ← getLimitedValue DefC;
                let SplatVal := lv mod 2 ^ 8 in
                let NewPV := PartialVal_getByteArray (pSize p) in
                buffer ← partialBuf NewPV;
                validBuf ← partialValidBuf NewPV;
                '(buffer', validBuf') ←
                  splatLoop (Z.to_nat (pSize p)) 0 SplatVal buffer validBuf;
                Some (mkPV (type NewPV) (TotalIV NewPV) (TotalIVType NewPV)
                           (C NewPV) (ReadOffset NewPV) (Some buffer')
                           (Some validBuf') (partialBufBytes NewPV) true)))
            = Some NewPV
            /\ Overdef (pIVS p) = false
            /\ length (Values (pIVS p)) = 1%nat
            /\ (SetType (pIVS p) = ValSetTypeScalar
                \/ SetType (pIVS p) = ValSetTypeScalarSplat)
            /\ byteSource NewPV (Z.to_nat (pSize p))
               = Some (inr (Other', tempBuf))
            /\ (Z.to_nat (pSize p) <= length tempBuf)%nat
            /\ forall k, (k < Z.to_nat (pSize p))%nat ->
                 tempBuf !! k = bytes !! k).
  { unfold pieceBytes in Hbytes.
    destruct (Values (pIVS p)) as [|iv0 [|]] eqn:Hvals; try discriminate.
    destruct (Overdef (pIVS p)) eqn:Hov; [discriminate|].
    simpl. destruct (dyn_cast_Constant (V iv0)) as [DefC|] eqn:HC;
      [|discriminate].
    simpl in Hbytes |- *.
    destruct (SetType (pIVS p)) eqn:Hst; try discriminate.
    - (* a scalar *)
      rewrite bool_decide_eq_true_2 by reflexivity.
      destruct (ReadDataFromGlobal DefC (pIVSOffset p) _) as [bs|] eqn:HR;
        [|discriminate].
      simpl in Hbytes. injection Hbytes as <-.
      eexists _, _, _. split; [reflexivity|].
      do 3 (split; [auto|]). split.
      { unfold byteSource. simpl. rewrite HR. reflexivity. }
      split; [rewrite length_resize; lia|]. reflexivity.
    - (* a splat *)
      rewrite bool_decide_eq_false_2 by discriminate.
      destruct (getLimitedValue DefC) as [lv|] eqn:Hlv; [|discriminate].
      simpl in Hbytes |- *. injection Hbytes as <-.
      destruct (splatLoop_spec (Z.to_nat (pSize p)) 0 (lv mod 2 ^ 8)
                  (newBuf (u64 (pSize p + 7) / 8))
                  (replicate (Z.to_nat (pSize p)) false))
        as (b' & v' & Hrun & Hlen & Hall).
      { simpl. apply newBuf_length; lia. }
      { rewrite length_replicate. simpl. lia. }
      rewrite Hrun. simpl.
      eexists _, _, _. split; [reflexivity|].
      do 3 (split; [auto|]). split; [reflexivity|]. simpl.
      split.
      { rewrite Hlen. apply newBuf_length; lia. }
      intros k Hk. rewrite Hall by lia.
      symmetry. apply lookup_replicate_2. exact Hk. }
  destruct Hsrc as (NewPV & Other' & tempBuf & HNew & Hov & Hone & Hst
                    & Hbs & Htl & Hsame).
  destruct (combineWith_piece_step this NewPV Other' tempBuf N (pPVOffset p)
              (pSize p) error Hshape Hbs Htl HFD HSz Hfit ltac:(lia))
    as (this' & Hrun & Hshape' & Hvalid & Hbyte & Hfin).
  exists this'. split; [|split; [exact Hshape'|split; [|split; [|exact Hfin]]]].
  - unfold addIVSToPartialVal.
    destruct Hshape as (Hty & HNb & _).
    unfold isByteArray. rewrite Hty. simpl. rewrite Hov, Hone. simpl.
    replace (negb (bool_decide (SetType (pIVS p) = ValSetTypeScalar))
             && negb (bool_decide (SetType (pIVS p) = ValSetTypeScalarSplat)))
      with false.
    2:{ destruct Hst as [-> | ->]; reflexivity. }
    change (Values (pIVS p) !! 0%nat ≫= _) with
      (iv0 ← Values (pIVS p) !! 0%nat;
       DefC ← dyn_cast_Constant (V iv0);
       NewPV0 ←
         (if bool_decide (SetType (pIVS p) = ValSetTypeScalar)
          then Some (getPartial DefC (pIVSOffset p))
          else
            lv ← getLimitedValue DefC;
            let SplatVal := lv mod 2 ^ 8 in
            let NewPV := PartialVal_getByteArray (pSize p) in
            buffer ← partialBuf NewPV;
            validBuf ← partialValidBuf NewPV;
            '(buffer', validBuf') ←
              splatLoop (Z.to_nat (pSize p)) 0 SplatVal buffer validBuf;
            Some (mkPV (type NewPV) (TotalIV NewPV) (TotalIVType NewPV)
                       (C NewPV) (ReadOffset NewPV) (Some buffer')
                       (Some validBuf') (partialBufBytes NewPV) true));
       '(ok, error', PV', _) ←
         combineWith this NewPV0 (pPVOffset p)
                     (u64 (pPVOffset p + pSize p)) (partialBufBytes this)
                     error;
       Some (ok, error', PV')).
    revert HNew.
    destruct (Values (pIVS p) !! 0%nat) as [iv0|]; simpl; [|discriminate].
    destruct (dyn_cast_Constant (V iv0)) as [DefC|]; simpl; [|discriminate].
    intros ->. simpl. rewrite HNb, Hrun. reflexivity.
  - intros j Hj. rewrite (Hvalid j Hj).
    destruct (covers j p) eqn:Hc.
    + apply Hcov in Hc. rewrite decide_True by exact Hc. reflexivity.
    + rewrite decide_False; [reflexivity|].
      intros Hin. apply Hcov in Hin. congruence.
  - intros j Hj. rewrite (Hbyte j Hj).
    destruct (covers j p) eqn:Hc.
    + apply Hcov in Hc.
      destruct (decide (validAt this j = Some false)) as [Hf|Hf].
      * rewrite !decide_True by auto. apply Hsame. lia.
      * rewrite !decide_False by tauto. reflexivity.
    + rewrite !decide_False; [reflexivity|intros [? _]; discriminate|].
      intros [Hin _]. apply Hcov in Hin. congruence.
Qed.

(** The loop from any byte array on. *)
Lemma addPieces_from (pieces : list (Piece Val)) (N : Z) :
  N + 7 < 2 ^ 64 -> Forall (fits N) pieces ->
  forall (this : PartialVal Val) (error : string), pv_shape N this ->
  exists pv,
    addPieces pieces this error = Some (Some pv)
    /\ pv_shape N pv
    /\ (forall j : nat, Z.of_nat j < N ->
          validAt pv j
          = (if existsb (covers j) pieces then Some true else validAt this j)
          /\ byteAt pv j
             = if decide (existsb (covers j) pieces = true
                          /\ validAt this j = Some false)
               then firstByte pieces j else byteAt this j)
    /\ (pieces <> [] ->
        (loadFinished pv = true
         <-> forall j : nat, Z.of_nat j < N -> validAt pv j = Some true)).
Proof.
  intros HN Hfits. induction Hfits as [|p rest Hp Hrest IH];
    intros this error Hshape.
  - exists this. split; [reflexivity|]. split; [exact Hshape|].
    split; [|congruence]. intros j Hj. simpl. split; reflexivity.
  - destruct (proj1 Hp) as [bytes Hbytes].
    destruct (addIVSToPartialVal_fits this p N error bytes Hshape Hp Hbytes HN)
      as (this1 & Hrun & Hshape1 & Hvalid1 & Hbyte1 & Hfin1).
    destruct (IH this1 error Hshape1)
      as (pv & Hrest_run & Hshape' & Hlook & Hfin).
    exists pv. split; [|split; [exact Hshape'|split]].
    + simpl. rewrite Hrun. simpl. exact Hrest_run.
    + intros j Hj. destruct (Hlook j Hj) as [Hv Hb].
      rewrite Hv, Hb, (Hvalid1 j Hj), (Hbyte1 j Hj). clear Hv Hb.
      unfold firstByte. cbn [existsb find].
      destruct (covers j p) eqn:Hc; cbn [orb].
      * split; [destruct (existsb _ rest); reflexivity|].
        cbn [mbind option_bind]. rewrite Hbytes. cbn [mbind option_bind].
        repeat destruct decide; try reflexivity;
          exfalso; intuition congruence.
      * split; [reflexivity|].
        repeat destruct decide; try reflexivity;
          exfalso; intuition congruence.
    + intros _. destruct rest as [|q rest'].
      * simpl in Hrest_run. injection Hrest_run as <-. exact Hfin1.
      * apply Hfin. discriminate.
Qed.

(** X6.  A result assembled from pieces.  Starting from the fresh byte
    array of a load of [N] bytes, the calls of [addIVSToPartialVal] for
    a list of pieces that fit (each a scalar constant that can be read,
    or a splat, on a non-empty range inside the load) all succeed.  In
    the result a byte is marked defined exactly when some piece covers
    it, and then it is the byte given by the first piece of the list
    that covers it; a byte that no piece covers is as in the fresh
    array.  After at least one piece the result is complete exactly
    when the pieces cover the whole load. *)
Theorem addPieces_assembles (pieces : list (Piece Val)) (N : Z)
    (error : string) :
  0 < N -> N + 7 < 2 ^ 64 -> Forall (fits N) pieces ->
  exists pv,
    addPieces pieces (PartialVal_new N) error = Some (Some pv)
    /\ (forall j : nat, Z.of_nat j < N ->
          validAt pv j = Some (existsb (covers j) pieces)
          /\ byteAt pv j
             = if existsb (covers j) pieces then firstByte pieces j
               else byteAt (PartialVal_new N) j)
    /\ (pieces <> [] ->
        (isComplete pv = true
         <-> forall j : nat, Z.of_nat j < N ->
               existsb (covers j) pieces = true)).
Proof.
  intros HN0 HN Hfits.
  destruct (PartialVal_new_shape N ltac:(lia) HN) as [Hshape Hfresh].
  destruct (addPieces_from pieces N HN Hfits (PartialVal_new N) error Hshape)
    as (pv & Hrun & Hshape' & Hlook & Hfin).
  exists pv. split; [exact Hrun|].
  assert (Hvalid : forall j : nat, Z.of_nat j < N ->
            validAt pv j = Some (existsb (covers j) pieces)).
  { intros j Hj. destruct (Hlook j Hj) as [Hv _]. rewrite Hv.
    rewrite Hfresh by lia. destruct (existsb _ pieces); reflexivity. }
  split.
  - intros j Hj. split; [apply Hvalid, Hj|].
    destruct (Hlook j Hj) as [_ Hb]. rewrite Hb, Hfresh by lia.
    destruct (existsb (covers j) pieces).
    + rewrite decide_True by auto. reflexivity.
    + rewrite decide_False; [reflexivity|intros [? _]; discriminate].
  - intros Hne. unfold isComplete, isTotal, isPartial.
    destruct Hshape' as (Hty & _). rewrite Hty. simpl.
    rewrite (Hfin Hne). split.
    + intros Hall j Hj. specialize (Hall j Hj).
      rewrite (Hvalid j Hj) in Hall. congruence.
    + intros Hall j Hj. rewrite (Hvalid j Hj), (Hall j Hj). reflexivity.
Qed.

End MorePartialValFacts.

(** ** Sub-constants *)

Section MoreConstFacts.

Context `{DataLayout} `{ConstEnv Constant}.

Lemma AddIVSConst_fields (OffsetAbove x y : Z) (z : Constant) :
  AddIVSConst OffsetAbove x y z
  = IVSR (u64 (x + OffsetAbove)) (u64 (x + y + OffsetAbove))
         (IVS_get (snd (getValPB z)) (fst (getValPB z))).
Proof. unfold AddIVSConst. destruct (getValPB z). reflexivity. Qed.

Lemma valsToConst_single (OffsetAbove x y : Z) (z : Constant)
    (TargetSize : Z) (targetType : option Ty) :
  valsToConst [AddIVSConst OffsetAbove x y z] TargetSize targetType
  = (c ← dyn_cast_Constant (V (snd (getValPB z))); Some (Some c)).
Proof. rewrite AddIVSConst_fields. reflexivity. Qed.

Lemma valsToConst_overdef (subVals : list (IVSRange Constant)) (x y : Z)
    (TargetSize : Z) (targetType : option Ty) :
  valsToConst (subVals ++ [IVSR x y getOverdef]) TargetSize targetType
  = Some None.
Proof.
  unfold valsToConst.
  destruct (subVals ++ [IVSR x y getOverdef]) as [|r0 l] eqn:Hl;
    [reflexivity|].
  rewrite <- Hl, existsb_app. simpl. rewrite orb_true_r. reflexivity.
Qed.

(** X7.  Reading one element of a constant array gives what stands
    for that element.  For an array of fewer than [2 ^ 64] bytes whose
    element type takes [ESize > 0] bytes, and an index [i] below
    [2 ^ 32], the sub-constant of [ESize] bytes at offset [i * ESize]
    is the value of the candidate that [getValPB] makes of the operand
    [i], cast to a constant (the call stops if that value is not a
    constant), whatever the target type; the read is inside the array
    and is not the whole of it.  So the sub-constant is the
    operand [i] itself exactly where [getValPB] gives a constant as its
    own candidate. *)
Theorem getSubConst_array_element (fuel : nat) (n : Z) (EType : Ty)
    (elts : list Constant) (i : Z) (E : Constant) (targetType : option Ty) :
  let ty := ArrayTy n EType in
  let ESize := getTypeAllocSize EType in
  0 < ESize -> 0 <= i < 2 ^ 32 ->
  (i + 1) * ESize <= getTypeStoreSize ty -> getTypeStoreSize ty < 2 ^ 64 ->
  ESize < getTypeStoreSize ty ->
  elts !! Z.to_nat i = Some E ->
  getSubConst (S fuel) (ConstantArray ty elts) (i * ESize) ESize targetType
  = (c ← dyn_cast_Constant (V (snd (getValPB E))); Some (Some c))
  /\ (standsForItself E ->
      getSubConst (S fuel) (ConstantArray ty elts) (i * ESize) ESize
                  targetType
      = Some (Some E)).
Proof.
  intros ty ESize HE Hi Hin H64 Hpart Helt.
  assert (Hgen :
    getSubConst (S fuel) (ConstantArray ty elts) (i * ESize) ESize targetType
    = (c ← dyn_cast_Constant (V (snd (getValPB E))); Some (Some c))).
  2:{ split; [exact Hgen|]. intros Hself. rewrite Hgen.
      unfold standsForItself in Hself. rewrite Hself. reflexivity. }
  assert (Hsum : u64 (i * ESize + ESize) = (i + 1) * ESize)
    by (rewrite u64_id by (unfold is_uint64; nia); lia).
  assert (Hget : getAggregateElement elts i = Some E).
  { unfold getAggregateElement. rewrite Z.mod_small by lia. exact Helt. }
  unfold getSubConst. cbn [getConstSubVals Constant_getType].
  fold ty. fold ESize.
  replace ((i * ESize =? 0) && (ESize =? getTypeStoreSize ty)) with false
    by (symmetry; apply andb_false_iff; right; apply Z.eqb_neq; lia).
  rewrite Hsum.
  replace ((i + 1) * ESize >? getTypeStoreSize ty) with false
    by (symmetry; rewrite Z.gtb_ltb; apply Z.ltb_ge; exact Hin).
  unfold ty at 1. cbn iota. fold ESize.
  replace (ESize =? 0) with false by (symmetry; apply Z.eqb_neq; lia).
  rewrite !Z.mod_mul by lia. rewrite !Z.div_mul by lia. cbn [Z.eqb].
  cbn [mbind option_bind].
  replace (u64 (i + 1 - i)) with 1
    by (replace (i + 1 - i) with 1 by lia; reflexivity).
  cbn [Z.eqb Pos.eqb]. rewrite Hget. cbn [mbind option_bind app].
  apply valsToConst_single.
Qed.

(** X8.  A read that runs past the end of the constant never gives a
    constant.  When the decomposition of the part inside the constant
    returns, [getSubConst] returns null, and [getConstSubVal] without a
    target type leaves an overdefined result. *)
Theorem read_past_the_end_gives_nothing (fuel : nat) (FromC : Constant)
    (Offset TargetSize : Z) (targetType : option Ty)
    (Dest1 : list (IVSRange Constant))
    (Result : ImprovedValSetSingle Constant) :
  let FromSize := getTypeStoreSize (Constant_getType FromC) in
  FromSize < u64 (Offset + TargetSize) ->
  (Offset =? 0) && (TargetSize =? FromSize) = false ->
  getConstSubVals fuel FromC Offset (u64 (FromSize - Offset))
                  (s64 (- Offset)) [] = Some Dest1 ->
  getSubConst (S fuel) FromC Offset TargetSize targetType = Some None
  /\ exists r,
       getConstSubVal (S fuel) FromC Offset TargetSize None Result = Some r
       /\ Overdef r = true.
Proof.
  intros FromSize Hpast Hwhole Hrec.
  assert (Hrun : getConstSubVals (S fuel) FromC Offset TargetSize
                   (s64 (- Offset)) []
                 = Some (Dest1 ++
                         [IVSR FromSize
                               (u64 (u64 (Offset + TargetSize) - FromSize))
                               getOverdef])).
  { cbn [getConstSubVals]. fold FromSize. rewrite Hwhole.
    replace (u64 (Offset + TargetSize) >? FromSize) with true
      by (symmetry; apply Z.gtb_lt; exact Hpast).
    rewrite Hrec. reflexivity. }
  split.
  - unfold getSubConst. rewrite Hrun. cbn [mbind option_bind].
    apply valsToConst_overdef.
  - unfold getConstSubVal. rewrite Hrun. cbn [mbind option_bind].
    rewrite valsToConst_overdef.
    destruct Dest1 as [|r0 [|r1 l]]; simpl; eexists; split; reflexivity.
Qed.

(** X9.  A proper part of a constant that is neither an array nor a
    struct is read bytewise.  When the bytes cannot be read there is no
    sub-constant.  When they can, the integer [SubC] of
    [TargetSize * 8] bits is made of them, and the sub-constant is the
    value of the candidate that [getValPB] makes of [SubC], cast to a
    constant (the call stops if that value is not a constant); the
    target type asked for plays no part.  So the sub-constant is [SubC]
    itself where [getValPB] gives it as its own candidate. *)
Theorem getSubConst_plain_constant (fuel : nat) (FromC : Constant)
    (Offset TargetSize : Z) (targetType : option Ty) :
  let FromSize := getTypeStoreSize (Constant_getType FromC) in
  let n := Z.to_nat TargetSize in
  (forall ty elts, FromC <> ConstantArray ty elts) ->
  (forall ty elts, FromC <> ConstantStruct ty elts) ->
  (Offset =? 0) && (TargetSize =? FromSize) = false ->
  u64 (Offset + TargetSize) <= FromSize ->
  getSubConst (S fuel) FromC Offset TargetSize targetType
  = match ReadDataFromGlobal FromC Offset (replicate n 0) with
    | Some Buffer =>
        let SubC := constFromBytes (resize n 0 Buffer)
                                   (getIntNTy (TargetSize * 8)) in
        c ← dyn_cast_Constant (V (snd (getValPB SubC))); Some (Some c)
    | None => Some None
    end
  /\ (forall Buffer,
        ReadDataFromGlobal FromC Offset (replicate n 0) = Some Buffer ->
        standsForItself (constFromBytes (resize n 0 Buffer)
                                        (getIntNTy (TargetSize * 8))) ->
        getSubConst (S fuel) FromC Offset TargetSize targetType
        = Some (Some (constFromBytes (resize n 0 Buffer)
                                     (getIntNTy (TargetSize * 8))))).
Proof.
  intros FromSize n Harr Hstr Hwhole Hin.
  assert (Hgen :
    getSubConst (S fuel) FromC Offset TargetSize targetType
    = match ReadDataFromGlobal FromC Offset (replicate n 0) with
      | Some Buffer =>
          let SubC := constFromBytes (resize n 0 Buffer)
                                     (getIntNTy (TargetSize * 8)) in
          c ← dyn_cast_Constant (V (snd (getValPB SubC))); Some (Some c)
      | None => Some None
      end).
  2:{ split; [exact Hgen|]. intros Buffer HR Hself. rewrite Hgen, HR.
      unfold standsForItself in Hself. cbv zeta. rewrite Hself.
      reflexivity. }
  unfold getSubConst. cbn [getConstSubVals]. fold FromSize.
  rewrite Hwhole.
  replace (u64 (Offset + TargetSize) >? FromSize) with false
    by (symmetry; rewrite Z.gtb_ltb; apply Z.ltb_ge; exact Hin).
  destruct FromC as [ty elts|ty elts|ty|ty payload];
    try (exfalso; eapply Harr; reflexivity);
    try (exfalso; eapply Hstr; reflexivity);
    fold n;
    (destruct (ReadDataFromGlobal _ Offset (replicate n 0)) as [Buffer|];
     cbn [mbind option_bind app];
     [apply valsToConst_single|apply (valsToConst_overdef [])]).
Qed.

End MoreConstFacts.

(** ** The write path of the heap tree *)

Section MoreStoreFacts.

Context {Val : Type} `{Countable Val} `{StoreEnv} `{Driver Val}.

Lemma getRequiredHeight_loop_S (fuel : nat) (idx : Z) (height : nat) :
  getRequiredHeight_loop (S fuel) idx height
  = if Z.shiftr idx (Z.of_nat HEAPTREEORDERLOG2) =? 0 then Some (S height)
    else getRequiredHeight_loop fuel
           (Z.shiftr idx (Z.of_nat HEAPTREEORDERLOG2)) (S height).
Proof. reflexivity. Qed.

Lemma getRequiredHeight_loop_spec (fuel : nat) :
  (1 <= HEAPTREEORDERLOG2)%nat ->
  forall idx height,
    0 <= idx < 2 ^ (Z.of_nat HEAPTREEORDERLOG2 * Z.of_nat (S fuel)) ->
    exists k : nat,
      (1 <= k <= S fuel)%nat
      /\ getRequiredHeight_loop (S fuel) idx height = Some (height + k)%nat
      /\ idx < 2 ^ (Z.of_nat HEAPTREEORDERLOG2 * Z.of_nat k)
      /\ (k = 1%nat
          \/ 2 ^ (Z.of_nat HEAPTREEORDERLOG2 * (Z.of_nat k - 1)) <= idx).
Proof.
  intros HB. set (B := Z.of_nat HEAPTREEORDERLOG2).
  assert (HB0 : 1 <= B) by (unfold B; lia).
  induction fuel as [|fuel IH]; intros idx height Hidx.
  - exists 1%nat. split; [lia|]. rewrite getRequiredHeight_loop_S. fold B.
    rewrite Z.shiftr_div_pow2 by lia.
    replace (B * Z.of_nat 1) with B in * by lia.
    rewrite Z.div_small by lia. cbn [Z.eqb].
    split; [f_equal; lia|]. split; [lia|]. left. reflexivity.
  - rewrite getRequiredHeight_loop_S. fold B.
    rewrite Z.shiftr_div_pow2 by lia.
    assert (Hpow : 0 < 2 ^ B) by (apply Z.pow_pos_nonneg; lia).
    destruct (Z.eqb_spec (idx / 2 ^ B) 0) as [Hz|Hnz].
    + exists 1%nat. split; [lia|]. split; [f_equal; lia|].
      replace (B * Z.of_nat 1) with B by lia.
      split; [|left; reflexivity].
      pose proof (Z.div_mod idx (2 ^ B) ltac:(lia)).
      pose proof (Z.mod_pos_bound idx (2 ^ B) Hpow). lia.
    + destruct (IH (idx / 2 ^ B) (S height)) as (k & Hk & Hrun & Hlt & Hge).
      { split; [apply Z.div_pos; lia|].
        apply Z.div_lt_upper_bound; [lia|].
        rewrite <- Z.pow_add_r by lia.
        replace (B + B * Z.of_nat (S fuel)) with (B * Z.of_nat (S (S fuel)))
          by lia.
        lia. }
      exists (S k). split; [lia|]. split.
      { rewrite Hrun. f_equal. lia. }
      pose proof (Z.div_mod idx (2 ^ B) ltac:(lia)) as Hdm.
      pose proof (Z.mod_pos_bound idx (2 ^ B) Hpow) as Hmb.
      assert (Hq : 0 <= idx / 2 ^ B) by (apply Z.div_pos; lia).
      split.
      * replace (B * Z.of_nat (S k)) with (B + B * Z.of_nat k) by lia.
        rewrite Z.pow_add_r by lia. nia.
      * right.
        replace (B * (Z.of_nat (S k) - 1)) with (B + B * (Z.of_nat k - 1))
          by lia.
        rewrite Z.pow_add_r by nia.
        destruct Hge as [->|Hge].
        -- replace (B * (Z.of_nat 1 - 1)) with 0 by lia.
           change (2 ^ 0) with 1. nia.
        -- nia.
Qed.

(** X11.  [getRequiredHeight] counts the digits of the index in base
    [2 ^ HEAPTREEORDERLOG2]: it returns the least height, at least 1, of
    a tree that has a slot for the index. *)
Theorem getRequiredHeight_least (idx : Z) :
  (1 <= HEAPTREEORDERLOG2)%nat -> 0 <= idx < 2 ^ 32 ->
  exists h : nat,
    getRequiredHeight idx = Some h
    /\ (1 <= h <= 32)%nat
    /\ idx < 2 ^ (Z.of_nat HEAPTREEORDERLOG2 * Z.of_nat h)
    /\ forall h' : nat, (1 <= h')%nat ->
         idx < 2 ^ (Z.of_nat HEAPTREEORDERLOG2 * Z.of_nat h') ->
         (h <= h')%nat.
Proof.
  intros HB Hidx.
  destruct (getRequiredHeight_loop_spec 31 HB idx 0%nat)
    as (k & Hk & Hrun & Hlt & Hge).
  { split; [lia|]. eapply Z.lt_le_trans; [apply Hidx|].
    apply Z.pow_le_mono_r; lia. }
  exists k. split; [exact Hrun|]. split; [lia|]. split; [exact Hlt|].
  intros h' Hh' Hfit. destruct Hge as [->|Hge]; [lia|].
  destruct (decide (k <= h')%nat) as [|Hno]; [assumption|]. exfalso.
  assert (Hle : 2 ^ (Z.of_nat HEAPTREEORDERLOG2 * Z.of_nat h')
                <= 2 ^ (Z.of_nat HEAPTREEORDERLOG2 * (Z.of_nat k - 1))).
  { apply Z.pow_le_mono_r; [lia|]. nia. }
  lia.
Qed.

(** The capacity [HEAPTREEORDER << ((height - 1) * HEAPTREEORDERLOG2)]
    of a tree when the fan-out is [2 ^ HEAPTREEORDERLOG2]. *)
Lemma mustGrowFor_capacity (this : SharedTreeRoot) (idx : Z) :
  Z.of_nat HEAPTREEORDER = 2 ^ Z.of_nat HEAPTREEORDERLOG2 ->
  (1 <= height this)%nat ->
  (HEAPTREEORDERLOG2 * height this < 32)%nat ->
  mustGrowFor this idx
  = Some (bool_decide
            (2 ^ (Z.of_nat HEAPTREEORDERLOG2 * Z.of_nat (height this))
             <= idx)).
Proof.
  intros HO HH Hsmall. unfold mustGrowFor.
  destruct (height this) as [|h'] eqn:Hh; [lia|].
  cbn [Nat.eqb]. replace (S h' - 1)%nat with h' by lia.
  destruct (Nat.leb_spec 32 (h' * HEAPTREEORDERLOG2)) as [Hbig|_]; [nia|].
  rewrite Z.shiftl_mul_pow2 by lia. rewrite HO.
  rewrite <- Z.pow_add_r by lia.
  replace (Z.of_nat HEAPTREEORDERLOG2 + Z.of_nat (h' * HEAPTREEORDERLOG2))
    with (Z.of_nat HEAPTREEORDERLOG2 * Z.of_nat (S h')) by nia.
  rewrite Z.mod_small.
  2:{ split; [apply Z.pow_nonneg; lia|].
      apply Z.pow_lt_mono_r; lia. }
  f_equal. rewrite Z.geb_leb.
  destruct (Z.leb_spec
              (2 ^ (Z.of_nat HEAPTREEORDERLOG2 * Z.of_nat (S h'))) idx).
  - rewrite bool_decide_eq_true_2 by assumption. reflexivity.
  - rewrite bool_decide_eq_false_2 by lia. reflexivity.
Qed.

(** X12.  With a fan-out of [2 ^ HEAPTREEORDERLOG2] and a capacity that
    fits 32 bits, [mustGrowFor] asks for growth exactly when the index
    needs more levels than the tree has: when [getRequiredHeight] of
    the index is greater than the height. *)
Theorem mustGrowFor_iff_too_low (this : SharedTreeRoot) (idx : Z) :
  (1 <= HEAPTREEORDERLOG2)%nat ->
  Z.of_nat HEAPTREEORDER = 2 ^ Z.of_nat HEAPTREEORDERLOG2 ->
  (1 <= height this)%nat ->
  (HEAPTREEORDERLOG2 * height this < 32)%nat ->
  0 <= idx < 2 ^ 32 ->
  exists h : nat,
    getRequiredHeight idx = Some h
    /\ mustGrowFor this idx = Some (bool_decide (height this < h)%nat).
Proof.
  intros HB HO HH Hsmall Hidx.
  destruct (getRequiredHeight_loop_spec 31 HB idx 0%nat)
    as (k & Hk & Hrun & Hlt & Hge).
  { split; [lia|]. eapply Z.lt_le_trans; [apply Hidx|].
    apply Z.pow_le_mono_r; lia. }
  exists k. split; [exact Hrun|].
  rewrite mustGrowFor_capacity by assumption. f_equal.
  apply bool_decide_ext. split.
  - intros Hcap.
    destruct (decide (height this < k)%nat) as [|Hno]; [assumption|].
    exfalso.
    assert (2 ^ (Z.of_nat HEAPTREEORDERLOG2 * Z.of_nat k)
            <= 2 ^ (Z.of_nat HEAPTREEORDERLOG2 * Z.of_nat (height this)))
      by (apply Z.pow_le_mono_r; [lia|nia]).
    lia.
  - intros Hlow. destruct Hge as [->|Hge]; [lia|].
    eapply Z.le_trans; [|exact Hge].
    apply Z.pow_le_mono_r; [lia|nia].
Qed.

(** What [getWritableNode] returns, in the form the walk down the tree
    needs it: a node with reference count 1 that has the children of
    the old one (copies of them at the leaf level), every other node
    keeping its children and losing no reference. *)
Lemma getWritableNode_shape (m : Memory Val) (this : addr) (h : nat)
    (n : SharedTreeNode) :
  treeNodes m !! this = Some n ->
  (h <> 0%nat -> forall i c,
     (i < HEAPTREEORDER)%nat -> children n !! i = Some c ->
     c <> this /\ is_Some (treeNodes m !! c)) ->
  exists node m' nn,
    getWritableNode this h m = Some (node, m')
    /\ treeNodes m' !! node = Some nn /\ refCount nn = 1
    /\ (forall i, (i < HEAPTREEORDER)%nat ->
          is_Some (children nn !! i) <-> is_Some (children n !! i))
    /\ (h <> 0%nat -> forall i, (i < HEAPTREEORDER)%nat ->
          children nn !! i = children n !! i)
    /\ (h <> 0%nat -> forall i c,
          children nn !! i = Some c -> children n !! i = Some c)
    /\ ((node = this /\ m' = m)
        \/ (refCount n <> 1 /\ treeNodes m !! node = None
            /\ treeNodes m' !! this
               = Some (mkSTN (children n) (refCount n - 1))))
    /\ (forall a na, a <> this -> treeNodes m !! a = Some na ->
          exists na', treeNodes m' !! a = Some na'
                      /\ children na' = children na
                      /\ refCount na <= refCount na')
    /\ (forall a, a <> node -> treeNodes m !! a = None ->
          treeNodes m' !! a = None)
    /\ storeMaps m' = storeMaps m /\ localMaps m' = localMaps m
    /\ baseStores m' = baseStores m.
Proof.
  intros Hthis Hch.
  destruct (Z.eqb_spec (refCount n) 1) as [Hrc|Hrc].
  { exists this, m, n. unfold getWritableNode. rewrite bind_unfold.
    rewrite (readNode_Some _ _ _ Hthis).
    rewrite (proj2 (Z.eqb_eq _ _) Hrc).
    split; [reflexivity|]. split; [exact Hthis|]. split; [exact Hrc|].
    split; [reflexivity|]. split; [reflexivity|]. split; [auto|].
    split; [left; auto|]. split; [eauto with lia|]. auto. }
  destruct m as [T SM LM BS VH FN FS]. simpl in *.
  set (newNode := fresh (dom T)).
  assert (Hfresh : T !! newNode = None).
  { apply not_elem_of_dom. apply is_fresh. }
  assert (Hne : newNode <> this) by (intros ->; congruence).
  unfold getWritableNode. rewrite bind_unfold. unfold readNode at 1.
  simpl. rewrite Hthis. simpl.
  rewrite (proj2 (Z.eqb_neq _ _) Hrc).
  rewrite bind_unfold. unfold new_SharedTreeNode, allocNode.
  unfold set_treeNodes.
  cbn [treeNodes storeMaps localMaps baseStores valSets freedNodes
       freedStoreMaps].
  fold newNode. rewrite bind_unfold.
  destruct h as [|h].
  - (* the children are value-sets *)
    destruct (forM_seq_inv
      (fun k mk => exists chk vh,
         mk = mkMem (<[newNode := mkSTN chk 1]> T) SM LM BS vh FN FS /\
         forall i, is_Some (chk !! i)
                   <-> (i < k)%nat /\ is_Some (children n !! i))
      (fun i : nat =>
         n0 ← readNode this;
         match children n0 !! i with
         | Some c =>
             c' ← call_getReadableCopy c;
             nn ← readNode newNode;
             writeNode newNode (mkSTN (<[i := c']> (children nn))
                                      (refCount nn))
         | None => mret tt
         end) HEAPTREEORDER) with
      (mkMem (<[newNode := mkSTN ∅ 1]> T) SM LM BS VH FN FS)
      as (m1 & Hloop & (chk & vh & -> & Hchk)).
    { intros i mk Hi (chk & vh & -> & Hchk).
      rewrite bind_unfold. unfold readNode at 1. simpl.
      rewrite lookup_insert_ne by exact Hne. rewrite Hthis. simpl.
      destruct (children n !! i) as [c|] eqn:Hci.
      - rewrite bind_unfold. unfold call_getReadableCopy. simpl.
        destruct (ivs_getReadableCopy c vh) as [c' vh'].
        rewrite bind_unfold. unfold readNode, writeNode. simpl.
        rewrite lookup_insert_eq. simpl.
        eexists. split; [reflexivity|].
        unfold set_treeNodes. simpl. rewrite insert_insert_eq.
        eexists _, _. split; [reflexivity|].
        intros j. destruct (decide (j = i)) as [->|Hji].
        + rewrite lookup_insert_eq, Hci. split; eauto with lia.
        + rewrite lookup_insert_ne by auto. rewrite Hchk.
          split; intros [? ?]; split; auto; lia.
      - eexists. split; [reflexivity|].
        eexists _, _. split; [reflexivity|].
        intros j. rewrite Hchk. split; intros [Hj Hs]; split; auto; try lia.
        destruct (decide (j = i)) as [->|]; [|lia].
        rewrite Hci in Hs. destruct Hs. discriminate. }
    { exists ∅, VH. split; [reflexivity|]. intros i.
      rewrite lookup_empty. split; [intros []; discriminate|lia]. }
    rewrite Hloop. rewrite bind_unfold. unfold readNode at 1. simpl.
    rewrite lookup_insert_ne by exact Hne. rewrite Hthis. simpl.
    exists newNode. eexists. exists (mkSTN chk 1).
    split; [reflexivity|]. simpl.
    split; [rewrite lookup_insert_ne by auto; apply lookup_insert_eq|].
    split; [reflexivity|].
    split; [intros i Hi; rewrite Hchk; tauto|].
    split; [congruence|]. split; [congruence|].
    split.
    { right. split; [exact Hrc|]. split; [exact Hfresh|].
      apply lookup_insert_eq. }
    split.
    { intros a na Hat Ha. rewrite lookup_insert_ne by auto.
      rewrite lookup_insert_ne by (intros <-; congruence).
      exists na. split; [exact Ha|]. split; [reflexivity|lia]. }
    split; [|auto].
    intros a Han Ha. destruct (decide (a = this)) as [->|Hat]; [congruence|].
    rewrite !lookup_insert_ne by auto. exact Ha.
  - (* the children are nodes *)
    specialize (Hch ltac:(lia)).
    destruct (forM_seq_inv
      (fun k mk => exists Tk chk,
         mk = mkMem Tk SM LM BS VH FN FS /\
         Tk !! this = Some n /\
         Tk !! newNode = Some (mkSTN chk 1) /\
         (forall i, chk !! i = if decide (i < k)%nat then children n !! i
                               else None) /\
         forall a, a <> this -> a <> newNode ->
           match T !! a with
           | Some na => exists na', Tk !! a = Some na'
                          /\ children na' = children na
                          /\ refCount na <= refCount na'
           | None => Tk !! a = None
           end)
      (fun i : nat =>
         n0 ← readNode this;
         match children n0 !! i with
         | Some c =>
             cn ← readNode c;
             writeNode c (mkSTN (children cn) (refCount cn + 1));;
             nn ← readNode newNode;
             writeNode newNode (mkSTN (<[i := c]> (children nn))
                                      (refCount nn))
         | None => mret tt
         end) HEAPTREEORDER) with
      (mkMem (<[newNode := mkSTN ∅ 1]> T) SM LM BS VH FN FS)
      as (m1 & Hloop & (Tk & chk & -> & HTthis & HTnew & Hchk & HTo)).
    { intros i mk Hi (Tk & chk & -> & HTthis & HTnew & Hchk & HTo).
      rewrite bind_unfold. unfold readNode at 1. simpl.
      rewrite HTthis. simpl.
      destruct (children n !! i) as [c|] eqn:Hci.
      - destruct (Hch i c Hi Hci) as [Hcthis [nc Hnc]].
        assert (Hcnew : c <> newNode) by (intros ->; congruence).
        pose proof (HTo c Hcthis Hcnew) as Hc. rewrite Hnc in Hc.
        destruct Hc as (nc' & Hnc' & Hcch & Hcrc).
        rewrite bind_unfold. unfold readNode at 1. simpl.
        rewrite Hnc'. simpl.
        rewrite bind_unfold. unfold writeNode at 1. simpl.
        rewrite bind_unfold. unfold readNode at 1. simpl.
        rewrite lookup_insert_ne by auto. rewrite HTnew. simpl.
        unfold writeNode, set_treeNodes. simpl.
        eexists. split; [reflexivity|].
        eexists _, (<[i := c]> chk). split; [reflexivity|].
        split; [|split; [|split]].
        + rewrite !lookup_insert_ne by auto. exact HTthis.
        + apply lookup_insert_eq.
        + intros j. destruct (decide (j = i)) as [->|Hji].
          * rewrite lookup_insert_eq. destruct decide; [auto|lia].
          * rewrite lookup_insert_ne by auto. rewrite Hchk.
            repeat destruct decide; try lia; reflexivity.
        + intros a Ha1 Ha2. rewrite lookup_insert_ne by auto.
          destruct (decide (a = c)) as [->|Hac].
          * rewrite lookup_insert_eq, Hnc. eexists. split; [reflexivity|].
            simpl. split; [exact Hcch|lia].
          * rewrite lookup_insert_ne by auto. apply HTo; auto.
      - eexists. split; [reflexivity|].
        exists Tk, chk. split; [reflexivity|].
        split; [exact HTthis|]. split; [exact HTnew|]. split; [|exact HTo].
        intros j. rewrite Hchk.
        repeat destruct decide; try lia; try reflexivity.
        assert (j = i) as -> by lia. auto. }
    { exists (<[newNode := mkSTN ∅ 1]> T), ∅. split; [reflexivity|].
      split; [rewrite lookup_insert_ne by auto; exact Hthis|].
      split; [apply lookup_insert_eq|]. split.
      - intros i. destruct decide; [lia|apply lookup_empty].
      - intros a Ha1 Ha2. rewrite lookup_insert_ne by auto.
        destruct (T !! a) as [na|]; [|reflexivity].
        exists na. split; [reflexivity|]. split; [reflexivity|lia]. }
    rewrite Hloop. rewrite bind_unfold. unfold readNode at 1. simpl.
    rewrite HTthis. simpl.
    exists newNode. eexists. exists (mkSTN chk 1).
    split; [reflexivity|]. simpl.
    split; [rewrite lookup_insert_ne by auto; exact HTnew|].
    split; [reflexivity|].
    split.
    { intros i Hi. rewrite Hchk. destruct decide; [reflexivity|lia]. }
    split.
    { intros _ i Hi. rewrite Hchk. destruct decide; [reflexivity|lia]. }
    split.
    { intros _ i c. rewrite Hchk. destruct decide; [auto|discriminate]. }
    split.
    { right. split; [exact Hrc|]. split; [exact Hfresh|].
      apply lookup_insert_eq. }
    split.
    { intros a na Hat Ha. rewrite lookup_insert_ne by auto.
      assert (Han : a <> newNode) by (intros ->; congruence).
      pose proof (HTo a Hat Han) as Hx. rewrite Ha in Hx. exact Hx. }
    split; [|auto].
    intros a Han Ha. destruct (decide (a = this)) as [->|Hat]; [congruence|].
    rewrite lookup_insert_ne by auto.
    pose proof (HTo a Hat Han) as Hx. rewrite Ha in Hx. exact Hx.
Qed.

Lemma stands_for_refl (m : Memory Val) (lev : addr -> nat) :
  stratified m lev ->
  forall L a, lev a = L -> is_Some (treeNodes m !! a) ->
    stands_for m m lev L a a.
Proof.
  intros Hstr L. induction L as [|L IH]; intros a Hl [n Hn].
  - split; [exact Hl|]. exists n, n. auto.
  - split; [exact Hl|]. exists n, n. split; [exact Hn|].
    split; [exact Hn|]. intros j g Hj Hg. exists g. split; [exact Hg|].
    destruct (Hstr a n L j g Hn Hl Hg) as [Hlg Hex]. apply IH; auto.
Qed.

Lemma stands_for_trans (m1 m2 m3 : Memory Val) (lev2 lev3 : addr -> nat) :
  forall L a b c,
    stands_for m1 m2 lev2 L a b -> stands_for m2 m3 lev3 L b c ->
    stands_for m1 m3 lev3 L a c.
Proof.
  induction L as [|L IH]; intros a b c (Hl1 & n & nb & Hn & Hnb & H12)
                                       (Hl2 & nb' & nc & Hnb' & Hnc & H23);
    rewrite Hnb in Hnb'; injection Hnb' as <-;
    (split; [exact Hl2|]); exists n, nc;
    (split; [exact Hn|]); (split; [exact Hnc|]).
  - intros j Hj Hs. apply H23; [exact Hj|]. apply H12; assumption.
  - intros j g Hj Hg. destruct (H12 j g Hj Hg) as (g' & Hg' & Hs1).
    destruct (H23 j g' Hj Hg') as (g'' & Hg'' & Hs2).
    exists g''. split; [exact Hg''|]. eapply IH; eauto.
Qed.

Lemma stands_for_keep (m m1 : Memory Val) (lev lev1 : addr -> nat) :
  stratified m lev ->
  (forall a, is_Some (treeNodes m !! a) -> lev1 a = lev a) ->
  (forall a na, treeNodes m !! a = Some na ->
     exists na1, treeNodes m1 !! a = Some na1
                 /\ children na1 = children na) ->
  forall L a, lev a = L -> is_Some (treeNodes m !! a) ->
    stands_for m m1 lev1 L a a.
Proof.
  intros Hstr Hlev Hkeep L.
  induction L as [|L IH]; intros a Hl [n Hn];
    destruct (Hkeep a n Hn) as (n1 & Hn1 & Hch);
    (split; [rewrite Hlev; eauto|]); exists n, n1;
    (split; [exact Hn|]); (split; [exact Hn1|]).
  - intros j Hj Hs. rewrite Hch. exact Hs.
  - intros j g Hj Hg. exists g. rewrite Hch. split; [exact Hg|].
    destruct (Hstr a n L j g Hn Hl Hg) as [Hlg Hex]. apply IH; auto.
Qed.

Lemma nextChild_lt (idx : Z) (k : nat) :
  Z.of_nat HEAPTREEORDER = 2 ^ Z.of_nat HEAPTREEORDERLOG2 ->
  (nextChild idx k < HEAPTREEORDER)%nat.
Proof.
  intros HO. unfold nextChild. rewrite HO.
  replace (2 ^ Z.of_nat HEAPTREEORDERLOG2 - 1)
    with (Z.ones (Z.of_nat HEAPTREEORDERLOG2))
    by (rewrite Z.ones_equiv; lia).
  rewrite Z.land_ones by lia.
  assert (Hp : 0 < 2 ^ Z.of_nat HEAPTREEORDERLOG2)
    by (apply Z.pow_pos_nonneg; lia).
  pose proof (Z.mod_pos_bound
                (Z.shiftr idx (Z.of_nat (k * HEAPTREEORDERLOG2)))
                (2 ^ Z.of_nat HEAPTREEORDERLOG2) Hp).
  lia.
Qed.

(** A read that finds a store at a node finds one at every node that
    stands for it. *)
Lemma stands_for_read (m m' : Memory Val) (lev' : addr -> nat) (idx : Z) :
  (forall k, (nextChild idx k < HEAPTREEORDER)%nat) ->
  forall L a a', stands_for m m' lev' L a a' ->
    (exists s, fst <$> SharedTreeNode_getReadableStoreFor L a idx m
               = Some (Some s)) ->
    exists s', fst <$> SharedTreeNode_getReadableStoreFor L a' idx m'
               = Some (Some s').
Proof.
  intros Hlt L.
  induction L as [|L IH];
    intros a a' (Hl & n & n' & Hn & Hn' & Hch) [s Hs]; simpl in *;
    rewrite bind_unfold, (readNode_Some _ _ _ Hn) in Hs;
    rewrite bind_unfold, (readNode_Some _ _ _ Hn').
  - destruct (children n !! nextChild idx 0) as [c|] eqn:Hc;
      [|discriminate].
    destruct (Hch _ (Hlt 0%nat) (ex_intro _ c Hc)) as [c' Hc'].
    rewrite Hc'. eexists. reflexivity.
  - destruct (children n !! nextChild idx (S L)) as [c|] eqn:Hc;
      [|discriminate].
    destruct (Hch _ c (Hlt (S L)) Hc) as (c' & Hc' & Hsf).
    rewrite Hc'. apply (IH c c' Hsf). eauto.
Qed.

(** The walk of [SharedTreeNode::getOrCreateStoreFor] down a tree
    whose nodes are in levels.  It returns a leaf slot to which the walk
    from [this] along the digits of the index leads afterwards; the
    levels and the counts stay in order; and a node other than [this]
    keeps its children if its reference count was not 1 or if it is not
    below the level of [this]. *)
Lemma SharedTreeNode_getOrCreateStoreFor_spec (h : nat) :
  forall (this : addr) (idx : Z) (m : Memory Val) (lev : addr -> nat),
  stratified m lev -> counted m -> lev this = h ->
  is_Some (treeNodes m !! this) ->
  exists slot isNew m' lev',
    SharedTreeNode_getOrCreateStoreFor h this idx m
      = Some ((slot, isNew), m')
    /\ stratified m' lev' /\ counted m'
    /\ (forall a, is_Some (treeNodes m !! a) ->
          lev' a = lev a /\ is_Some (treeNodes m' !! a))
    /\ leads_to m' h this idx slot
    /\ (exists leaf i nl,
          slot = HeapSlot leaf i /\ lev' leaf = 0%nat
          /\ treeNodes m' !! leaf = Some nl
          /\ isNew = bool_decide (children nl !! i = None))
    /\ (forall a na, treeNodes m !! a = Some na -> a <> this ->
          refCount na <> 1 \/ (h <= lev a)%nat ->
          exists na', treeNodes m' !! a = Some na'
                      /\ children na' = children na)
    /\ (forall a, is_Some (treeNodes m !! a) ->
          stands_for m m' lev' (lev a) a a)
    /\ storeMaps m' = storeMaps m /\ localMaps m' = localMaps m
    /\ baseStores m' = baseStores m.
Proof.
  induction h as [|h IH]; intros this idx m lev Hstr Hcnt Hlev [n Hn].
  - exists (HeapSlot this (nextChild idx 0)),
           (bool_decide (children n !! nextChild idx 0 = None)), m, lev.
    split.
    { simpl. rewrite bind_unfold, (readNode_Some _ _ _ Hn). reflexivity. }
    split; [exact Hstr|]. split; [exact Hcnt|]. split; [auto|].
    split; [simpl; eauto|].
    split; [exists this, (nextChild idx 0), n; auto|].
    split; [eauto|].
    split; [intros a Ha; apply stands_for_refl; auto|]. auto.
  - set (i := nextChild idx (S h)).
    assert (HQ : exists child m1 nn,
      (match children n !! i with
       | None => new_SharedTreeNode
       | Some c => getWritableNode c h
       end) m = Some (child, m1)
      /\ treeNodes m1 !! child = Some nn /\ 1 <= refCount nn
      /\ (forall L j d, h = S L -> children nn !! j = Some d ->
            lev d = L /\ is_Some (treeNodes m !! d))
      /\ (is_Some (treeNodes m !! child) ->
            lev child = h
            /\ exists nc, treeNodes m !! child = Some nc /\ refCount nc = 1)
      /\ (forall a na, treeNodes m !! a = Some na ->
            exists na', treeNodes m1 !! a = Some na'
              /\ children na' = children na /\ 1 <= refCount na'
              /\ (refCount na <> 1 -> refCount na' <> 1 \/ lev a = h))
      /\ (forall a, a <> child -> treeNodes m !! a = None ->
            treeNodes m1 !! a = None)
      /\ (forall c, children n !! i = Some c ->
            exists nc, treeNodes m !! c = Some nc
              /\ (forall j, (j < HEAPTREEORDER)%nat ->
                    is_Some (children nc !! j) -> is_Some (children nn !! j))
              /\ (forall L j g, h = S L -> (j < HEAPTREEORDER)%nat ->
                    children nc !! j = Some g -> children nn !! j = Some g))
      /\ storeMaps m1 = storeMaps m /\ localMaps m1 = localMaps m
      /\ baseStores m1 = baseStores m).
    { destruct (children n !! i) as [c|] eqn:Hci.
      - destruct (Hstr this n h i c Hn Hlev Hci) as [Hlc [nc Hnc]].
        destruct (getWritableNode_shape m c h nc Hnc)
          as (child & m1 & nn & Hrun & Hnn & Hrc & Hkeys & Hsame & Hsub
              & Hcase & Hkeep & Hnone & HSM & HLM & HBS).
        { intros Hh0 j d Hj Hd. destruct h as [|h']; [congruence|].
          destruct (Hstr c nc h' j d Hnc Hlc Hd) as [Hld Hex].
          split; [|exact Hex]. intros ->. lia. }
        exists child, m1, nn. split; [exact Hrun|]. split; [exact Hnn|].
        split; [lia|]. split.
        { intros L j d -> Hd. apply Hsub in Hd; [|lia].
          exact (Hstr c nc L j d Hnc Hlc Hd). }
        split.
        { intros Hex. destruct Hcase as [[-> ->]|(Hne1 & Hfr & _)].
          - split; [exact Hlc|]. exists nc. split; [exact Hnc|]. congruence.
          - rewrite Hfr in Hex. destruct Hex. discriminate. }
        split; [|split; [exact Hnone|split; [|auto]]].
        + intros a na Ha. destruct (decide (a = c)) as [->|Hac].
          * rewrite Hnc in Ha. injection Ha as <-.
            pose proof (Hcnt _ _ Hnc) as Hpos.
            destruct Hcase as [[-> ->]|(Hne1 & Hfr & Hthis')].
            -- exists nc. split; [exact Hnc|]. split; [reflexivity|]. auto.
            -- eexists. split; [exact Hthis'|]. simpl.
               split; [reflexivity|]. split; [lia|]. auto.
          * destruct (Hkeep a na Hac Ha) as (na' & Hna' & Hch' & Hle).
            pose proof (Hcnt _ _ Ha) as Hpos.
            exists na'. split; [exact Hna'|]. split; [exact Hch'|].
            split; [lia|]. intros Hne1. left. lia.
        + intros c0 Hc0. injection Hc0 as <-. exists nc.
          split; [exact Hnc|]. split.
          * intros j Hj Hs. apply Hkeys; assumption.
          * intros L j g -> Hj Hg. rewrite Hsame by (auto; lia). exact Hg.
      - set (child := fresh (dom (treeNodes m))).
        assert (Hfresh : treeNodes m !! child = None)
          by (apply not_elem_of_dom, is_fresh).
        exists child, (set_treeNodes <[child := mkSTN ∅ 1]> m), (mkSTN ∅ 1).
        split; [reflexivity|]. simpl.
        split; [apply lookup_insert_eq|]. split; [lia|].
        split; [intros L j d _ Hd; rewrite lookup_empty in Hd; discriminate|].
        split; [rewrite Hfresh; intros []; discriminate|].
        split; [|split; [|split; [discriminate|auto]]].
        + intros a na Ha. exists na.
          rewrite lookup_insert_ne by (intros <-; congruence).
          split; [exact Ha|]. split; [reflexivity|].
          split; [apply (Hcnt _ _ Ha)|auto].
        + intros a Hac Ha. rewrite lookup_insert_ne by auto. exact Ha. }
    destruct HQ as (child & m1 & nn & Hrun1 & Hnn & Hrc & Hnnch & Hold
                    & Hkeep & Hnone & Hcopy & HSM & HLM & HBS).
    assert (Hct : child <> this).
    { intros ->. destruct (Hold (ex_intro _ n Hn)) as [Hl _]. lia. }
    destruct (Hkeep this n Hn) as (n1 & Hn1 & Hn1ch & Hn1rc & _).
    set (m2 := set_treeNodes
                 <[this := mkSTN (<[i := child]> (children n1))
                                 (refCount n1)]> m1).
    set (lev2 := fun a => if decide (a = child) then h else lev a).
    assert (Hlev2 : forall a, is_Some (treeNodes m !! a) -> lev2 a = lev a).
    { intros a Ha. unfold lev2. destruct decide as [->|]; [|reflexivity].
      symmetry. apply Hold. exact Ha. }
    assert (Hin2 : forall a, is_Some (treeNodes m !! a) ->
                     is_Some (treeNodes m2 !! a)).
    { intros a [na Ha]. unfold m2. simpl.
      destruct (decide (a = this)) as [->|Hat];
        [rewrite lookup_insert_eq; eauto|].
      rewrite lookup_insert_ne by auto.
      destruct (Hkeep a na Ha) as (na' & -> & _). eauto. }
    assert (Hstr2 : stratified m2 lev2).
    { intros a na L j d Ha HL Hd. unfold m2 in Ha. simpl in Ha.
      destruct (decide (a = this)) as [->|Hat].
      - rewrite lookup_insert_eq in Ha. injection Ha as <-. simpl in Hd.
        rewrite Hlev2 in HL by eauto.
        assert (L = h) by lia. subst L.
        destruct (decide (j = i)) as [->|Hji].
        + rewrite lookup_insert_eq in Hd. injection Hd as <-. split.
          * unfold lev2. rewrite decide_True; auto.
          * unfold m2. simpl. rewrite lookup_insert_ne by auto. eauto.
        + rewrite lookup_insert_ne in Hd by auto. rewrite Hn1ch in Hd.
          destruct (Hstr this n h j d Hn Hlev Hd) as [Hld Hex].
          split; [rewrite Hlev2; auto|auto].
      - rewrite lookup_insert_ne in Ha by auto.
        destruct (decide (a = child)) as [->|Hac].
        + rewrite Hnn in Ha. injection Ha as <-.
          unfold lev2 in HL. rewrite decide_True in HL by auto.
          destruct (Hnnch L j d HL Hd) as [Hld Hex].
          split; [rewrite Hlev2; auto|auto].
        + destruct (treeNodes m !! a) as [na0|] eqn:Ha0.
          * destruct (Hkeep a na0 Ha0) as (na' & Hna' & Hch' & _).
            rewrite Ha in Hna'. injection Hna' as <-. rewrite Hch' in Hd.
            unfold lev2 in HL. rewrite decide_False in HL by auto.
            destruct (Hstr a na0 L j d Ha0 HL Hd) as [Hld Hex].
            split; [rewrite Hlev2; auto|auto].
          * rewrite (Hnone a Hac Ha0) in Ha. discriminate. }
    assert (Hcnt2 : counted m2).
    { intros a na Ha. unfold m2 in Ha. simpl in Ha.
      destruct (decide (a = this)) as [->|Hat].
      - rewrite lookup_insert_eq in Ha. injection Ha as <-. exact Hn1rc.
      - rewrite lookup_insert_ne in Ha by auto.
        destruct (decide (a = child)) as [->|Hac].
        + rewrite Hnn in Ha. injection Ha as <-. exact Hrc.
        + destruct (treeNodes m !! a) as [na0|] eqn:Ha0.
          * destruct (Hkeep a na0 Ha0) as (na' & Hna' & _ & Hpos & _).
            rewrite Ha in Hna'. injection Hna' as <-. exact Hpos.
          * rewrite (Hnone a Hac Ha0) in Ha. discriminate. }
    assert (Hsim2 : forall L a, lev a = L -> is_Some (treeNodes m !! a) ->
              stands_for m m2 lev2 L a a).
    { intros L. induction L as [L IHL] using lt_wf_ind.
      intros a Hla [na Ha].
      assert (Hl2 : lev2 a = L) by (rewrite Hlev2; eauto).
      assert (Ha2 : exists na2, treeNodes m2 !! a = Some na2
                /\ forall j, children na2 !! j
                     = if decide (a = this /\ j = i) then Some child
                       else children na !! j).
      { unfold m2. simpl. destruct (decide (a = this)) as [->|Hat].
        - rewrite lookup_insert_eq. eexists. split; [reflexivity|].
          intros j. simpl. rewrite Hn in Ha. injection Ha as <-.
          destruct (decide (j = i)) as [->|Hji].
          + rewrite lookup_insert_eq, decide_True by auto. reflexivity.
          + rewrite lookup_insert_ne by auto.
            rewrite decide_False by tauto. rewrite Hn1ch. reflexivity.
        - rewrite lookup_insert_ne by auto.
          destruct (Hkeep a na Ha) as (na1 & Hna1 & Hch1 & _).
          exists na1. split; [exact Hna1|]. intros j.
          rewrite decide_False by tauto. rewrite Hch1. reflexivity. }
      destruct Ha2 as (na2 & Hna2 & Hch2).
      destruct L as [|L']; (split; [exact Hl2|]);
        exists na, na2; (split; [exact Ha|]); (split; [exact Hna2|]).
      - intros j Hj Hs. rewrite Hch2.
        destruct decide as [[-> _]|_]; [lia|exact Hs].
      - intros j g Hj Hg. rewrite Hch2.
        destruct (Hstr a na L' j g Ha Hla Hg) as [Hlg Hexg].
        destruct decide as [[-> ->]|_].
        + exists child. split; [reflexivity|].
          assert (HL' : L' = h) by lia.
          rewrite Hn in Ha. injection Ha as <-.
          destruct (Hcopy g Hg) as (nc & Hnc & Hkeys & Hsame).
          assert (Hlc : lev2 child = h)
            by (unfold lev2; rewrite decide_True; auto).
          assert (Hc2 : treeNodes m2 !! child = Some nn).
          { unfold m2. simpl. rewrite lookup_insert_ne by auto. exact Hnn. }
          assert (Hgen : forall hh, hh = h ->
                    stands_for m m2 lev2 hh g child).
          { intros hh Ehh.
            destruct hh as [|h']; (split; [congruence|]);
              exists nc, nn; (split; [exact Hnc|]); (split; [exact Hc2|]).
            - exact Hkeys.
            - intros j' g2 Hj' Hg2. exists g2.
              split; [apply (Hsame h'); auto|].
              assert (Hlg' : lev g = S h') by congruence.
              destruct (Hstr g nc h' j' g2 Hnc Hlg' Hg2) as [Hl3 Hex3].
              apply (IHL h'); [lia|exact Hl3|exact Hex3]. }
          apply Hgen. exact HL'.
        + exists g. split; [exact Hg|].
          apply (IHL L'); [lia|exact Hlg|exact Hexg]. }
    destruct (IH child idx m2 lev2 Hstr2 Hcnt2)
      as (slot & isNew & m' & lev' & Hrun & Hstr' & Hcnt' & Hlev' & Hpath
          & Hleaf & Hframe & Hsim' & HSM' & HLM' & HBS').
    { unfold lev2. rewrite decide_True; auto. }
    { unfold m2. simpl. rewrite lookup_insert_ne by auto. eauto. }
    exists slot, isNew, m', lev'.
    split.
    { cbn [SharedTreeNode_getOrCreateStoreFor]. fold i.
      rewrite bind_unfold, (readNode_Some _ _ _ Hn).
      rewrite bind_unfold, Hrun1.
      rewrite bind_unfold, (readNode_Some _ _ _ Hn1).
      rewrite bind_unfold. unfold writeNode at 1. exact Hrun. }
    split; [exact Hstr'|]. split; [exact Hcnt'|].
    split.
    { intros a Ha. destruct (Hlev' a (Hin2 a Ha)) as [Hl Hex].
      split; [rewrite Hl; apply Hlev2, Ha|exact Hex]. }
    split.
    { destruct (Hframe this
                  (mkSTN (<[i := child]> (children n1)) (refCount n1)))
        as (n' & Hn' & Hch').
      - unfold m2. simpl. apply lookup_insert_eq.
      - auto.
      - right. rewrite Hlev2 by eauto. lia.
      - cbn [leads_to]. exists n', child. split; [exact Hn'|].
        split; [|exact Hpath].
        fold i. rewrite Hch'. simpl. apply lookup_insert_eq. }
    split; [exact Hleaf|].
    split; [|split;
             [|unfold m2 in HSM', HLM', HBS'; simpl in HSM', HLM', HBS';
               repeat split; congruence]].
    2:{ intros a Ha.
        apply (stands_for_trans m m2 m' lev2 lev' (lev a) a a a).
        - apply Hsim2; auto.
        - rewrite <- (Hlev2 a Ha). apply Hsim', Hin2, Ha. }
    intros a na Ha Hat Hor.
    destruct (Hkeep a na Ha) as (na1 & Hna1 & Hch1 & _ & Hne1).
    assert (Hac : a <> child).
    { intros ->. destruct (Hold (ex_intro _ na Ha)) as [Hl (nc & Hnc & Hone)].
      rewrite Ha in Hnc. injection Hnc as <-. lia. }
    destruct (Hframe a na1) as (na' & Hna' & Hch').
    + unfold m2. simpl. rewrite lookup_insert_ne by auto. exact Hna1.
    + exact Hac.
    + rewrite Hlev2 by eauto. destruct Hor as [Hor|Hor]; [|right; lia].
      destruct (Hne1 Hor) as [|Hl]; [left; assumption|right; lia].
    + exists na'. split; [exact Hna'|]. congruence.
Qed.

(** Where a walk leads, a read arrives: it gives the slot if the slot
    holds a value-set and null if it does not. *)
Lemma leads_to_read (h : nat) :
  forall (m : Memory Val) (a : addr) (idx : Z) (leaf : addr) (i : nat),
  leads_to m h a idx (HeapSlot leaf i) ->
  exists nl, treeNodes m !! leaf = Some nl
    /\ SharedTreeNode_getReadableStoreFor h a idx m
       = Some (match children nl !! i with
               | Some _ => Some (HeapSlot leaf i)
               | None => None
               end, m).
Proof.
  induction h as [|h IH]; intros m a idx leaf i Hpath.
  - destruct Hpath as [Heq [n Hn]]. injection Heq as -> ->.
    exists n. split; [exact Hn|]. simpl.
    rewrite bind_unfold, (readNode_Some _ _ _ Hn).
    destruct (children n !! nextChild idx 0); reflexivity.
  - destruct Hpath as (n & c & Hn & Hc & Hrest).
    destruct (IH m c idx leaf i Hrest) as (nl & Hnl & Hread).
    exists nl. split; [exact Hnl|]. cbn [SharedTreeNode_getReadableStoreFor].
    rewrite bind_unfold, (readNode_Some _ _ _ Hn), Hc. exact Hread.
Qed.

Lemma leads_to_leaf_level (h : nat) :
  forall (m : Memory Val) (lev : addr -> nat) (a : addr) (idx : Z)
         (leaf : addr) (i : nat),
  stratified m lev -> lev a = h ->
  leads_to m h a idx (HeapSlot leaf i) -> lev leaf = 0%nat.
Proof.
  induction h as [|h IH]; intros m lev a idx leaf i Hstr Hlev Hpath.
  - destruct Hpath as [Heq _]. injection Heq as -> ->. exact Hlev.
  - destruct Hpath as (n & c & Hn & Hc & Hrest).
    destruct (Hstr a n h _ c Hn Hlev Hc) as [Hlc _].
    exact (IH m lev c idx leaf i Hstr Hlc Hrest).
Qed.

(** A write into the leaf slot does not move the walk. *)
Lemma leads_to_write (h : nat) :
  forall (m : Memory Val) (lev : addr -> nat) (a : addr) (idx : Z)
         (leaf : addr) (i : nat) (nl' : SharedTreeNode),
  stratified m lev -> lev a = h -> lev leaf = 0%nat ->
  leads_to m h a idx (HeapSlot leaf i) ->
  leads_to (set_treeNodes <[leaf := nl']> m) h a idx (HeapSlot leaf i).
Proof.
  induction h as [|h IH]; intros m lev a idx leaf i nl' Hstr Hlev Hleaf Hpath.
  - destruct Hpath as [Heq _]. injection Heq as -> ->.
    split; [reflexivity|]. simpl. rewrite lookup_insert_eq. eauto.
  - destruct Hpath as (n & c & Hn & Hc & Hrest).
    destruct (Hstr a n h _ c Hn Hlev Hc) as [Hlc _].
    exists n, c. split.
    { simpl. rewrite lookup_insert_ne by (intros <-; lia). exact Hn. }
    split; [exact Hc|].
    exact (IH m lev c idx leaf i nl' Hstr Hlc Hleaf Hrest).
Qed.

(** The digit of an index at a level above its length is 0. *)
Lemma nextChild_above (idx : Z) (h k : nat) :
  0 <= idx < 2 ^ (Z.of_nat HEAPTREEORDERLOG2 * Z.of_nat h) ->
  (h <= k)%nat -> nextChild idx k = 0%nat.
Proof.
  intros Hidx Hk. unfold nextChild.
  rewrite Z.shiftr_div_pow2 by lia.
  rewrite Z.div_small; [reflexivity|].
  split; [lia|]. eapply Z.lt_le_trans; [apply Hidx|].
  apply Z.pow_le_mono_r; [lia|nia].
Qed.

(** The loop of [growToHeight] from a root that is not null: it stacks
    [n] new nodes on the root, each holding the one below as child 0,
    and changes no node that was there. *)
Lemma growToHeight_loop_spec (n : nat) :
  forall (r : addr) (m : Memory Val) (L : nat),
  exists r' m',
    growToHeight_loop n (Some r) m = Some (Some r', m')
    /\ (forall a na, treeNodes m !! a = Some na ->
          treeNodes m' !! a = Some na)
    /\ storeMaps m' = storeMaps m /\ localMaps m' = localMaps m
    /\ baseStores m' = baseStores m /\ valSets m' = valSets m
    /\ (forall idx res,
          (forall k, (L < k <= L + n)%nat -> nextChild idx k = 0%nat) ->
          fst <$> SharedTreeNode_getReadableStoreFor L r idx m = Some res ->
          fst <$> SharedTreeNode_getReadableStoreFor (L + n) r' idx m'
          = Some res)
    /\ (counted m -> counted m')
    /\ ((1 <= n)%nat -> treeNodes m !! r' = None)
    /\ (forall lev, stratified m lev -> lev r = L ->
          is_Some (treeNodes m !! r) ->
          exists lev', stratified m' lev' /\ lev' r' = (L + n)%nat
            /\ is_Some (treeNodes m' !! r')
            /\ forall a, is_Some (treeNodes m !! a) -> lev' a = lev a).
Proof.
  induction n as [|n IH]; intros r m L.
  - exists r, m. split; [reflexivity|]. split; [auto|].
    do 4 (split; [reflexivity|]). split.
    { intros idx res _. rewrite Nat.add_0_r. auto. }
    split; [auto|]. split; [lia|]. intros lev Hstr Hlev Hr. exists lev.
    rewrite Nat.add_0_r. auto.
  - set (newNode := fresh (dom (treeNodes m))).
    assert (Hfresh : treeNodes m !! newNode = None)
      by (apply not_elem_of_dom, is_fresh).
    set (m1 := set_treeNodes <[newNode := mkSTN (<[0%nat := r]> ∅) 1]> m).
    assert (Hkeep1 : forall a na, treeNodes m !! a = Some na ->
                       treeNodes m1 !! a = Some na).
    { intros a na Ha. unfold m1. simpl.
      rewrite lookup_insert_ne by (intros <-; congruence). exact Ha. }
    assert (Hnew1 : treeNodes m1 !! newNode
                    = Some (mkSTN (<[0%nat := r]> ∅) 1))
      by (unfold m1; simpl; apply lookup_insert_eq).
    destruct (IH newNode m1 (S L))
      as (r' & m' & Hrun & Hkeep & HSM & HLM & HBS & HVS & Hread & Hcnt
          & Hnew & Hlevs).
    exists r', m'. split.
    { cbn [growToHeight_loop]. rewrite bind_unfold.
      unfold new_SharedTreeNode, allocNode. fold newNode.
      rewrite bind_unfold. rewrite bind_unfold. unfold readNode at 1.
      cbn [treeNodes set_treeNodes]. rewrite lookup_insert_eq.
      cbn [mbind option_bind]. unfold writeNode.
      unfold set_treeNodes at 1.
      cbn [treeNodes storeMaps localMaps baseStores valSets freedNodes
           freedStoreMaps children refCount set_treeNodes].
      rewrite insert_insert_eq. exact Hrun. }
    split; [auto|]. do 4 (split; [assumption|]). split.
    { intros idx res Hzero Hres.
      replace (L + S n)%nat with (S L + n)%nat by lia.
      apply Hread; [intros k Hk; apply Hzero; lia|].
      cbn [SharedTreeNode_getReadableStoreFor].
      rewrite bind_unfold, (readNode_Some _ _ _ Hnew1).
      cbn [children]. rewrite (Hzero (S L)) by lia.
      rewrite lookup_insert_eq.
      apply (getReadableStoreFor_same_children m m1); [|exact Hres].
      intros a na Ha. exists na. split; [apply Hkeep1, Ha|reflexivity]. }
    split.
    { intros Hc. apply Hcnt. intros a na Ha. unfold m1 in Ha. simpl in Ha.
      destruct (decide (a = newNode)) as [->|Han].
      - rewrite lookup_insert_eq in Ha. injection Ha as <-. simpl. lia.
      - rewrite lookup_insert_ne in Ha by auto. exact (Hc _ _ Ha). }
    split.
    { intros _. destruct n as [|n'].
      - cbn [growToHeight_loop] in Hrun. injection Hrun as <- _.
        exact Hfresh.
      - specialize (Hnew ltac:(lia)).
        destruct (treeNodes m !! r') as [nr|] eqn:Hr'; [|reflexivity].
        rewrite (Hkeep1 _ _ Hr') in Hnew. discriminate. }
    intros lev Hstr Hlev [nr Hr].
    set (lev1 := fun a => if decide (a = newNode) then S L else lev a).
    assert (Hlev1 : forall a, is_Some (treeNodes m !! a) -> lev1 a = lev a).
    { intros a [na Ha]. unfold lev1.
      destruct decide as [->|]; [congruence|reflexivity]. }
    destruct (Hlevs lev1) as (lev' & Hstr' & Hl' & Hr' & Hsame).
    + intros a na L0 j d Ha HL Hd. unfold m1 in Ha. simpl in Ha.
      destruct (decide (a = newNode)) as [->|Han].
      * rewrite lookup_insert_eq in Ha. injection Ha as <-. simpl in Hd.
        unfold lev1 in HL. rewrite decide_True in HL by auto.
        assert (L0 = L) by lia. subst L0.
        destruct (decide (j = 0%nat)) as [->|Hj].
        -- rewrite lookup_insert_eq in Hd. injection Hd as <-.
           split; [rewrite Hlev1; eauto|]. rewrite (Hkeep1 _ _ Hr). eauto.
        -- rewrite lookup_insert_ne in Hd by auto.
           rewrite lookup_empty in Hd. discriminate.
      * rewrite lookup_insert_ne in Ha by auto.
        unfold lev1 in HL. rewrite decide_False in HL by auto.
        destruct (Hstr a na L0 j d Ha HL Hd) as [Hld [nd Hnd]].
        split; [rewrite Hlev1; eauto|]. rewrite (Hkeep1 _ _ Hnd). eauto.
    + unfold lev1. rewrite decide_True; auto.
    + unfold m1. simpl. rewrite lookup_insert_eq. eauto.
    + exists lev'. split; [exact Hstr'|]. split; [rewrite Hl'; lia|].
      split; [exact Hr'|]. intros a Ha. rewrite Hsame.
      * apply Hlev1, Ha.
      * destruct Ha as [na Ha]. rewrite (Hkeep1 _ _ Ha). eauto.
Qed.


(** [getWritableNode] on a node of a tree in levels keeps the levels
    and the counts in order.  A node whose count was not 1 keeps its
    children, is not the node returned, and still has a count other
    than 1 unless it is the node that was copied. *)
Lemma getWritableNode_levels (m : Memory Val) (lev : addr -> nat)
    (c : addr) (h : nat) :
  stratified m lev -> counted m -> lev c = h ->
  is_Some (treeNodes m !! c) ->
  exists child m1 lev1,
    getWritableNode c h m = Some (child, m1)
    /\ stratified m1 lev1 /\ counted m1
    /\ lev1 child = h /\ is_Some (treeNodes m1 !! child)
    /\ (forall a, is_Some (treeNodes m !! a) ->
          lev1 a = lev a /\ is_Some (treeNodes m1 !! a))
    /\ (forall a na, treeNodes m !! a = Some na -> refCount na <> 1 ->
          exists na', treeNodes m1 !! a = Some na'
            /\ children na' = children na /\ a <> child
            /\ (refCount na' <> 1 \/ lev a = h))
    /\ storeMaps m1 = storeMaps m /\ localMaps m1 = localMaps m
    /\ baseStores m1 = baseStores m
    /\ stands_for m m1 lev1 h c child.
Proof.
  intros Hstr Hcnt Hlc [nc Hnc].
  destruct (getWritableNode_shape m c h nc Hnc)
    as (child & m1 & nn & Hrun & Hnn & Hrc & Hkeys & Hsame & Hsub
        & Hcase & Hkeep & Hnone & HSM & HLM & HBS).
  { intros Hh0 j d Hj Hd. destruct h as [|h']; [congruence|].
    destruct (Hstr c nc h' j d Hnc Hlc Hd) as [Hld Hex].
    split; [|exact Hex]. intros ->. lia. }
  destruct Hcase as [[-> ->]|(Hne1 & Hfr & Hc')].
  { exists c, m, lev. split; [exact Hrun|]. split; [exact Hstr|].
    split; [exact Hcnt|]. split; [exact Hlc|]. split; [eauto|].
    split; [auto|].
    split; [|do 3 (split; [reflexivity|]);
             apply stands_for_refl; eauto].
    intros a na Ha Hne1. exists na. split; [exact Ha|].
    split; [reflexivity|]. split; [|auto].
    intros ->. rewrite Hnn in Ha. injection Ha as <-. contradiction. }
  set (lev1 := fun a => if decide (a = child) then h else lev a).
  assert (Hlev1 : forall a, is_Some (treeNodes m !! a) -> lev1 a = lev a).
  { intros a [na Ha]. unfold lev1.
    destruct decide as [->|]; [congruence|reflexivity]. }
  assert (Hall : forall a na, treeNodes m !! a = Some na ->
            exists na', treeNodes m1 !! a = Some na'
              /\ children na' = children na /\ 1 <= refCount na'
              /\ (refCount na <> 1 -> refCount na' <> 1 \/ lev a = h)).
  { intros a na Ha. pose proof (Hcnt _ _ Ha) as Hpos.
    destruct (decide (a = c)) as [->|Hac].
    - rewrite Hnc in Ha. injection Ha as <-.
      eexists. split; [exact Hc'|]. simpl. split; [reflexivity|].
      split; [lia|]. auto.
    - destruct (Hkeep a na Hac Ha) as (na' & Hna' & Hch' & Hle).
      exists na'. split; [exact Hna'|]. split; [exact Hch'|].
      split; [lia|]. intros Hx. left. lia. }
  assert (Hin1 : forall a, is_Some (treeNodes m !! a) ->
                   is_Some (treeNodes m1 !! a)).
  { intros a [na Ha]. destruct (Hall a na Ha) as (na' & -> & _). eauto. }
  assert (Hsf : stands_for m m1 lev1 h c child).
  { assert (Hkp : forall L a, lev a = L -> is_Some (treeNodes m !! a) ->
              stands_for m m1 lev1 L a a).
    { apply (stands_for_keep m m1 lev lev1 Hstr Hlev1).
      intros a na Ha. destruct (Hall a na Ha) as (na' & Hna' & Hch' & _).
      eauto. }
    assert (Hlc1 : lev1 child = h)
      by (unfold lev1; rewrite decide_True; auto).
    assert (Hgen : forall hh, hh = h -> stands_for m m1 lev1 hh c child).
    { intros hh Ehh.
      destruct hh as [|h']; (split; [congruence|]); exists nc, nn;
        (split; [exact Hnc|]); (split; [exact Hnn|]).
      - intros j Hj Hs. apply Hkeys; assumption.
      - intros j g Hj Hg. exists g.
        split; [rewrite (Hsame ltac:(lia) j Hj); exact Hg|].
        assert (Hlc' : lev c = S h') by congruence.
        destruct (Hstr c nc h' j g Hnc Hlc' Hg) as [Hlg Hex].
        apply Hkp; auto. }
    apply Hgen. reflexivity. }
  exists child, m1, lev1. split; [exact Hrun|]. split.
  { intros a na L j d Ha HL Hd.
    destruct (decide (a = child)) as [->|Hac].
    - rewrite Hnn in Ha. injection Ha as <-.
      unfold lev1 in HL. rewrite decide_True in HL by auto.
      apply Hsub in Hd; [|lia].
      destruct (Hstr c nc L j d Hnc ltac:(lia) Hd) as [Hld Hex].
      split; [rewrite Hlev1; auto|auto].
    - destruct (treeNodes m !! a) as [na0|] eqn:Ha0.
      + destruct (Hall a na0 Ha0) as (na' & Hna' & Hch' & _).
        rewrite Ha in Hna'. injection Hna' as <-. rewrite Hch' in Hd.
        unfold lev1 in HL. rewrite decide_False in HL by auto.
        destruct (Hstr a na0 L j d Ha0 HL Hd) as [Hld Hex].
        split; [rewrite Hlev1; auto|auto].
      + rewrite (Hnone a Hac Ha0) in Ha. discriminate. }
  split.
  { intros a na Ha. destruct (decide (a = child)) as [->|Hac].
    - rewrite Hnn in Ha. injection Ha as <-. lia.
    - destruct (treeNodes m !! a) as [na0|] eqn:Ha0.
      + destruct (Hall a na0 Ha0) as (na' & Hna' & _ & Hpos & _).
        rewrite Ha in Hna'. injection Hna' as <-. exact Hpos.
      + rewrite (Hnone a Hac Ha0) in Ha. discriminate. }
  split; [unfold lev1; rewrite decide_True; auto|].
  split; [eauto|]. split; [auto|].
  split; [|do 3 (split; [assumption|]); exact Hsf].
  intros a na Ha Hx. destruct (Hall a na Ha) as (na' & Hna' & Hch' & _ & Hor).
  exists na'. split; [exact Hna'|]. split; [exact Hch'|].
  split; [intros ->; congruence|auto].
Qed.

(** [SharedTreeRoot::getOrCreateStoreFor] on a heap in order, with a
    fan-out of [2 ^ HEAPTREEORDERLOG2]. *)
Lemma SharedTreeRoot_getOrCreateStoreFor_spec (this : SharedTreeRoot)
    (v : ShadowValue Val) (m : Memory Val) (lev : addr -> nat) :
  (1 <= HEAPTREEORDERLOG2)%nat ->
  Z.of_nat HEAPTREEORDER = 2 ^ Z.of_nat HEAPTREEORDERLOG2 ->
  0 <= getHeapKey v < 2 ^ 32 ->
  (HEAPTREEORDERLOG2 * height this < 32)%nat ->
  stratified m lev -> counted m -> rooted m lev this ->
  exists this' r' slot isNew m' lev',
    SharedTreeRoot_getOrCreateStoreFor this v m
      = Some ((this', slot, isNew), m')
    /\ root this' = Some r' /\ (1 <= height this')%nat
    /\ stratified m' lev' /\ counted m'
    /\ lev' r' = (height this' - 1)%nat
    /\ (forall a, is_Some (treeNodes m !! a) ->
          lev' a = lev a /\ is_Some (treeNodes m' !! a))
    /\ leads_to m' (height this' - 1) r' (getHeapKey v) slot
    /\ (exists leaf i nl,
          slot = HeapSlot leaf i /\ lev' leaf = 0%nat
          /\ treeNodes m' !! leaf = Some nl
          /\ isNew = bool_decide (children nl !! i = None))
    /\ (forall a na, treeNodes m !! a = Some na -> refCount na <> 1 ->
          exists na', treeNodes m' !! a = Some na'
                      /\ children na' = children na)
    /\ storeMaps m' = storeMaps m /\ localMaps m' = localMaps m
    /\ baseStores m' = baseStores m
    /\ (forall w,
          0 <= getHeapKey w
            < 2 ^ (Z.of_nat HEAPTREEORDERLOG2 * Z.of_nat (height this)) ->
          (exists s, fst <$> SharedTreeRoot_getReadableStoreFor this w m
                     = Some (Some s)) ->
          exists s', fst <$> SharedTreeRoot_getReadableStoreFor this' w m'
                     = Some (Some s')).
Proof.
  intros HB HO Hidx Hsmall Hstr Hcnt Hroot.
  set (idx := getHeapKey v) in *.
  destruct (getRequiredHeight_loop_spec 31 HB idx 0%nat)
    as (k & Hk & Hreq & Hklt & Hkge).
  { split; [lia|]. eapply Z.lt_le_trans; [apply Hidx|].
    apply Z.pow_le_mono_r; lia. }
  change (getRequiredHeight_loop 32 idx 0) with (getRequiredHeight idx)
    in Hreq.
  simpl in Hreq.
  (* the three ways to a writable root *)
  assert (Hprep : exists this' r' m1 lev1,
    (match root this with
     | None =>
         r ← new_SharedTreeNode;
         match getRequiredHeight idx with
         | None => abort
         | Some h => mret (mkSTR (Some r) h)
         end
     | Some r =>
         match mustGrowFor this idx with
         | None => abort
         | Some true => SharedTreeRoot_grow this idx
         | Some false =>
             r' ← getWritableNode r (height this - 1);
             mret (mkSTR (Some r') (height this))
         end
     end) m = Some (this', m1)
    /\ root this' = Some r' /\ (1 <= height this')%nat
    /\ stratified m1 lev1 /\ counted m1
    /\ lev1 r' = (height this' - 1)%nat /\ is_Some (treeNodes m1 !! r')
    /\ (forall a, is_Some (treeNodes m !! a) ->
          lev1 a = lev a /\ is_Some (treeNodes m1 !! a))
    /\ (forall a na, treeNodes m !! a = Some na -> refCount na <> 1 ->
          exists na', treeNodes m1 !! a = Some na'
            /\ children na' = children na /\ a <> r'
            /\ (refCount na' <> 1 \/ lev a = (height this' - 1)%nat))
    /\ storeMaps m1 = storeMaps m /\ localMaps m1 = localMaps m
    /\ baseStores m1 = baseStores m
    /\ (forall w,
          0 <= getHeapKey w
            < 2 ^ (Z.of_nat HEAPTREEORDERLOG2 * Z.of_nat (height this)) ->
          (exists s, fst <$> SharedTreeRoot_getReadableStoreFor this w m
                     = Some (Some s)) ->
          exists s', fst <$> SharedTreeRoot_getReadableStoreFor this' w m1
                     = Some (Some s'))).
  { unfold rooted in Hroot. destruct (root this) as [r|] eqn:Hr.
    - destruct Hroot as (HH & Hlr & Hex).
      rewrite (mustGrowFor_capacity this idx HO HH Hsmall).
      destruct (bool_decide _) eqn:Hgrow.
      + (* the tree grows *)
        apply bool_decide_eq_true_1 in Hgrow.
        assert (Hhk : (height this < k)%nat).
        { destruct (decide (height this < k)%nat) as [|Hno]; [assumption|].
          exfalso.
          assert (2 ^ (Z.of_nat HEAPTREEORDERLOG2 * Z.of_nat k)
                  <= 2 ^ (Z.of_nat HEAPTREEORDERLOG2
                          * Z.of_nat (height this)))
            by (apply Z.pow_le_mono_r; [lia|nia]).
          lia. }
        destruct (growToHeight_loop_spec (k - height this) r m
                    (height this - 1))
          as (r' & m1 & Hrun & Hkeep & HSM & HLM & HBS & _ & Hread & Hcnt1
              & Hnew & Hlevs).
        destruct (Hlevs lev Hstr Hlr Hex) as (lev1 & Hstr1 & Hl1 & Hr1 & Hsame).
        assert (Hrd : forall w,
                  0 <= getHeapKey w
                    < 2 ^ (Z.of_nat HEAPTREEORDERLOG2
                           * Z.of_nat (height this)) ->
                  (exists s,
                     fst <$> SharedTreeRoot_getReadableStoreFor this w m
                     = Some (Some s)) ->
                  exists s',
                    fst <$> SharedTreeRoot_getReadableStoreFor
                              (mkSTR (Some r') k) w m1
                    = Some (Some s')).
        { intros w Hw [s Hs]. exists s. revert Hs.
          unfold SharedTreeRoot_getReadableStoreFor. simpl.
          destruct (Nat.eqb_spec (height this) 0) as [|_]; [lia|].
          destruct (Nat.eqb_spec k 0) as [|_]; [lia|].
          destruct (Z.ltb_spec (getHeapKey w) 0) as [|_]; [lia|].
          rewrite Hr. intros Hs.
          replace (k - 1)%nat
            with (height this - 1 + (k - height this))%nat by lia.
          apply Hread; [|exact Hs].
          intros j Hj. apply (nextChild_above _ (height this)); [lia|lia]. }
        exists (mkSTR (Some r') k), r', m1, lev1. split.
        { unfold SharedTreeRoot_grow. rewrite Hreq. unfold SharedTreeRoot_growToHeight. rewrite Hr.
          rewrite Z.mod_small by lia.
          replace (Z.to_nat (Z.of_nat k - Z.of_nat (height this)))
            with (k - height this)%nat by lia.
          rewrite bind_unfold, Hrun. reflexivity. }
        simpl. split; [reflexivity|]. split; [lia|].
        split; [exact Hstr1|]. split; [auto|].
        split; [rewrite Hl1; lia|]. split; [exact Hr1|].
        split.
        { intros a Ha. split; [apply Hsame, Ha|].
          destruct Ha as [na Ha]. rewrite (Hkeep _ _ Ha). eauto. }
        split; [|do 3 (split; [assumption|]); exact Hrd].
        intros a na Ha Hx. exists na. split; [apply Hkeep, Ha|].
        split; [reflexivity|]. split; [|auto].
        intros ->. rewrite Hnew in Ha by lia. discriminate.
      + (* the root is made writable *)
        destruct (getWritableNode_levels m lev r (height this - 1)
                    Hstr Hcnt Hlr Hex)
          as (r' & m1 & lev1 & Hrun & Hstr1 & Hcnt1 & Hl1 & Hr1 & Hsame
              & Hiso & HSM & HLM & HBS & Hsf).
        assert (Hrd : forall w,
                  0 <= getHeapKey w
                    < 2 ^ (Z.of_nat HEAPTREEORDERLOG2
                           * Z.of_nat (height this)) ->
                  (exists s,
                     fst <$> SharedTreeRoot_getReadableStoreFor this w m
                     = Some (Some s)) ->
                  exists s',
                    fst <$> SharedTreeRoot_getReadableStoreFor
                              (mkSTR (Some r') (height this)) w m1
                    = Some (Some s')).
        { intros w Hw. unfold SharedTreeRoot_getReadableStoreFor. simpl.
          destruct (Nat.eqb_spec (height this) 0) as [|_]; [lia|].
          destruct (Z.ltb_spec (getHeapKey w) 0) as [|_]; [lia|].
          rewrite Hr.
          apply (stands_for_read m m1 lev1);
            [intros j; apply nextChild_lt, HO|exact Hsf]. }
        exists (mkSTR (Some r') (height this)), r', m1, lev1. split.
        { rewrite bind_unfold, Hrun. reflexivity. }
        simpl. split; [reflexivity|]. split; [lia|].
        do 9 (split; [auto|]). exact Hrd.
    - (* the heap is empty *)
      set (r := fresh (dom (treeNodes m))).
      assert (Hfresh : treeNodes m !! r = None)
        by (apply not_elem_of_dom, is_fresh).
      set (m1 := set_treeNodes <[r := mkSTN ∅ 1]> m).
      set (lev1 := fun a => if decide (a = r) then (k - 1)%nat else lev a).
      assert (Hlev1 : forall a, is_Some (treeNodes m !! a) ->
                lev1 a = lev a).
      { intros a [na Ha]. unfold lev1.
        destruct decide as [->|]; [congruence|reflexivity]. }
      assert (Hkeep1 : forall a na, treeNodes m !! a = Some na ->
                treeNodes m1 !! a = Some na).
      { intros a na Ha. unfold m1. simpl.
        rewrite lookup_insert_ne by (intros <-; congruence). exact Ha. }
      exists (mkSTR (Some r) k), r, m1, lev1. split.
      { rewrite bind_unfold. unfold new_SharedTreeNode, allocNode.
        fold r. fold m1. rewrite Hreq. reflexivity. }
      simpl. split; [reflexivity|]. split; [lia|]. split.
      { intros a na L j d Ha HL Hd. unfold m1 in Ha. simpl in Ha.
        destruct (decide (a = r)) as [->|Har].
        - rewrite lookup_insert_eq in Ha. injection Ha as <-.
          simpl in Hd. rewrite lookup_empty in Hd. discriminate.
        - rewrite lookup_insert_ne in Ha by auto.
          unfold lev1 in HL. rewrite decide_False in HL by auto.
          destruct (Hstr a na L j d Ha HL Hd) as [Hld [nd Hnd]].
          split; [rewrite Hlev1; eauto|]. exists nd. apply Hkeep1, Hnd. }
      split.
      { intros a na Ha. unfold m1 in Ha. simpl in Ha.
        destruct (decide (a = r)) as [->|Har].
        - rewrite lookup_insert_eq in Ha. injection Ha as <-. simpl. lia.
        - rewrite lookup_insert_ne in Ha by auto. exact (Hcnt _ _ Ha). }
      split; [unfold lev1; rewrite decide_True; auto|].
      split; [unfold m1; simpl; rewrite lookup_insert_eq; eauto|].
      split.
      { intros a Ha. split; [apply Hlev1, Ha|].
        destruct Ha as [na Ha]. exists na. apply Hkeep1, Ha. }
      split.
      { intros a na Ha Hx. exists na. split; [apply Hkeep1, Ha|].
        split; [reflexivity|]. split; [intros ->; congruence|auto]. }
      do 3 (split; [reflexivity|]).
      intros w _ [s Hs]. unfold SharedTreeRoot_getReadableStoreFor in Hs.
      rewrite Hroot in Hs. simpl in Hs. discriminate. }
  destruct Hprep as (this' & r' & m1 & lev1 & Hrun1 & Hr' & Hh' & Hstr1
                     & Hcnt1 & Hl1 & Hex1 & Hsame1 & Hiso1 & HSM1 & HLM1
                     & HBS1 & Hrd1).
  destruct (SharedTreeNode_getOrCreateStoreFor_spec (height this' - 1) r'
              idx m1 lev1 Hstr1 Hcnt1 Hl1 Hex1)
    as (slot & isNew & m' & lev' & Hrun & Hstr' & Hcnt' & Hsame' & Hpath
        & Hleaf & Hframe & Hsim' & HSM' & HLM' & HBS').
  exists this', r', slot, isNew, m', lev'. split.
  { unfold SharedTreeRoot_getOrCreateStoreFor. fold idx.
    destruct (Z.ltb_spec idx 0) as [|_]; [lia|].
    rewrite bind_unfold, Hrun1, Hr'. rewrite bind_unfold, Hrun.
    reflexivity. }
  split; [exact Hr'|]. split; [exact Hh'|]. split; [exact Hstr'|].
  split; [exact Hcnt'|]. split.
  { destruct (Hsame' r' Hex1) as [-> _]. exact Hl1. }
  split.
  { intros a Ha. destruct (Hsame1 a Ha) as [Hl Hex].
    destruct (Hsame' a Hex) as [Hl' Hex']. split; [congruence|exact Hex']. }
  split; [exact Hpath|]. split; [exact Hleaf|].
  split; [|do 3 (split; [congruence|])].
  2:{ intros w Hw Hs. destruct (Hrd1 w Hw Hs) as [s1 Hs1]. revert Hs1.
      unfold SharedTreeRoot_getReadableStoreFor.
      destruct (Nat.eqb_spec (height this') 0) as [|_]; [lia|].
      destruct (Z.ltb_spec (getHeapKey w) 0) as [|_]; [lia|].
      rewrite Hr'. intros Hs1.
      apply (stands_for_read m1 m' lev' (getHeapKey w)
               (fun j => nextChild_lt _ j HO) (height this' - 1) r' r');
        [|eauto].
      rewrite <- Hl1. apply Hsim', Hex1. }
  intros a na Ha Hx.
  destruct (Hiso1 a na Ha Hx) as (na1 & Hna1 & Hch1 & Har & Hor).
  destruct (Hframe a na1 Hna1 Har) as (na' & Hna' & Hch').
  { destruct Hor as [Hor|Hor]; [left; exact Hor|right].
    destruct (Hsame1 a (ex_intro _ na Ha)) as [-> _]. lia. }
  exists na'. split; [exact Hna'|]. congruence.
Qed.

(** X14.  A store that was got or created is there to be read.  On a
    heap whose tree is in order, [getOrCreateStoreFor] returns a slot
    such that a read of the same location then arrives at it: the read
    gives null while the slot is empty, which is when [isNewStore] is
    set, and once a value-set is written into the slot the read gives
    the slot, which holds that value-set. *)
Theorem getOrCreateStoreFor_then_read (this : SharedTreeRoot)
    (v : ShadowValue Val) (m : Memory Val) (lev : addr -> nat) :
  (1 <= HEAPTREEORDERLOG2)%nat ->
  Z.of_nat HEAPTREEORDER = 2 ^ Z.of_nat HEAPTREEORDERLOG2 ->
  0 <= getHeapKey v < 2 ^ 32 ->
  (HEAPTREEORDERLOG2 * height this < 32)%nat ->
  stratified m lev -> counted m -> rooted m lev this ->
  exists this' slot isNew m',
    SharedTreeRoot_getOrCreateStoreFor this v m
      = Some ((this', slot, isNew), m')
    /\ SharedTreeRoot_getReadableStoreFor this' v m'
       = Some (if isNew then None else Some slot, m')
    /\ forall p, exists mw,
         writeSlot slot p m' = Some (tt, mw)
         /\ SharedTreeRoot_getReadableStoreFor this' v mw
            = Some (Some slot, mw)
         /\ readSlot slot mw = Some (Some p, mw).
Proof.
  intros HB HO Hidx Hsmall Hstr Hcnt Hroot.
  destruct (SharedTreeRoot_getOrCreateStoreFor_spec this v m lev HB HO Hidx
              Hsmall Hstr Hcnt Hroot)
    as (this' & r' & slot & isNew & m' & lev' & Hrun & Hr' & Hh' & Hstr'
        & Hcnt' & Hl' & _ & Hpath & (leaf & i & nl & -> & Hleaf & Hnl & ->)
        & _).
  exists this', (HeapSlot leaf i), (bool_decide (children nl !! i = None)), m'.
  split; [exact Hrun|].
  assert (Hread : forall mx, SharedTreeRoot_getReadableStoreFor this' v mx
                  = SharedTreeNode_getReadableStoreFor (height this' - 1) r'
                      (getHeapKey v) mx).
  { intros mx. unfold SharedTreeRoot_getReadableStoreFor.
    destruct (Nat.eqb_spec (height this') 0) as [|_]; [lia|].
    destruct (Z.ltb_spec (getHeapKey v) 0) as [|_]; [lia|].
    rewrite Hr'. reflexivity. }
  split.
  - rewrite Hread.
    destruct (leads_to_read _ _ _ _ _ _ Hpath) as (nl0 & Hnl0 & ->).
    rewrite Hnl in Hnl0. injection Hnl0 as <-.
    destruct (children nl !! i) eqn:Hc.
    + rewrite bool_decide_eq_false_2 by discriminate. reflexivity.
    + rewrite bool_decide_eq_true_2 by reflexivity. reflexivity.
  - intros p.
    set (nl' := mkSTN (<[i := p]> (children nl)) (refCount nl)).
    exists (set_treeNodes <[leaf := nl']> m'). split.
    { unfold writeSlot. rewrite bind_unfold, (readNode_Some _ _ _ Hnl).
      reflexivity. }
    assert (Hnl' : treeNodes (set_treeNodes <[leaf := nl']> m') !! leaf
                   = Some nl') by (simpl; apply lookup_insert_eq).
    split.
    + rewrite Hread.
      pose proof (leads_to_write _ _ _ _ _ _ _ nl' Hstr' Hl' Hleaf Hpath)
        as Hpath'.
      destruct (leads_to_read _ _ _ _ _ _ Hpath') as (nl0 & Hnl0 & ->).
      rewrite Hnl' in Hnl0. injection Hnl0 as <-.
      unfold nl'. simpl. rewrite lookup_insert_eq. reflexivity.
    + unfold readSlot. rewrite bind_unfold, (readNode_Some _ _ _ Hnl').
      unfold nl'. simpl. rewrite lookup_insert_eq. reflexivity.
Qed.

(** X15.  [getOrCreateStoreFor] writes no node that is shared.  Every
    node whose reference count is not 1 has the same children after the
    call; frames, snapshots and base stores are as before; and the heap
    is left in order, so that the next call finds what this one
    needs. *)
Theorem getOrCreateStoreFor_spares_shared_nodes (this : SharedTreeRoot)
    (v : ShadowValue Val) (m : Memory Val) (lev : addr -> nat) :
  (1 <= HEAPTREEORDERLOG2)%nat ->
  Z.of_nat HEAPTREEORDER = 2 ^ Z.of_nat HEAPTREEORDERLOG2 ->
  0 <= getHeapKey v < 2 ^ 32 ->
  (HEAPTREEORDERLOG2 * height this < 32)%nat ->
  stratified m lev -> counted m -> rooted m lev this ->
  exists this' slot isNew m',
    SharedTreeRoot_getOrCreateStoreFor this v m
      = Some ((this', slot, isNew), m')
    /\ (forall a na, treeNodes m !! a = Some na -> refCount na <> 1 ->
          exists na', treeNodes m' !! a = Some na'
                      /\ children na' = children na)
    /\ storeMaps m' = storeMaps m /\ localMaps m' = localMaps m
    /\ baseStores m' = baseStores m
    /\ exists lev',
         stratified m' lev' /\ counted m' /\ rooted m' lev' this'
         /\ forall a, is_Some (treeNodes m !! a) -> lev' a = lev a.
Proof.
  intros HB HO Hidx Hsmall Hstr Hcnt Hroot.
  destruct (SharedTreeRoot_getOrCreateStoreFor_spec this v m lev HB HO Hidx
              Hsmall Hstr Hcnt Hroot)
    as (this' & r' & slot & isNew & m' & lev' & Hrun & Hr' & Hh' & Hstr'
        & Hcnt' & Hl' & Hsame & Hpath & _ & Hiso & HSM & HLM & HBS & _).
  exists this', slot, isNew, m'. split; [exact Hrun|].
  split; [exact Hiso|]. do 3 (split; [assumption|]).
  exists lev'. split; [exact Hstr'|]. split; [exact Hcnt'|]. split.
  - unfold rooted. rewrite Hr'. split; [exact Hh'|]. split; [exact Hl'|].
    clear -Hpath. destruct (height this' - 1)%nat as [|h0]; simpl in Hpath.
    + tauto.
    + destruct Hpath as (n0 & _ & Hn0 & _). eauto.
  - intros a Ha. apply Hsame, Ha.
Qed.

(** X21.  [getOrCreateStoreFor] loses no store.  On a heap whose tree
    is in order, a location whose index fits the tree and for which a
    read found a store before the call still has one after it, read
    through the root that the call leaves, whether the tree grew, a
    shared node on the way was copied, or neither. *)
Theorem getOrCreateStoreFor_keeps_stores (this : SharedTreeRoot)
    (v w : ShadowValue Val) (m : Memory Val) (lev : addr -> nat) :
  (1 <= HEAPTREEORDERLOG2)%nat ->
  Z.of_nat HEAPTREEORDER = 2 ^ Z.of_nat HEAPTREEORDERLOG2 ->
  0 <= getHeapKey v < 2 ^ 32 ->
  (HEAPTREEORDERLOG2 * height this < 32)%nat ->
  stratified m lev -> counted m -> rooted m lev this ->
  0 <= getHeapKey w
    < 2 ^ (Z.of_nat HEAPTREEORDERLOG2 * Z.of_nat (height this)) ->
  (exists s, fst <$> SharedTreeRoot_getReadableStoreFor this w m
             = Some (Some s)) ->
  exists this' slot isNew m',
    SharedTreeRoot_getOrCreateStoreFor this v m
      = Some ((this', slot, isNew), m')
    /\ exists s', fst <$> SharedTreeRoot_getReadableStoreFor this' w m'
                  = Some (Some s').
Proof.
  intros HB HO Hidx Hsmall Hstr Hcnt Hroot Hw Hs.
  destruct (SharedTreeRoot_getOrCreateStoreFor_spec this v m lev HB HO Hidx
              Hsmall Hstr Hcnt Hroot)
    as (this' & r' & slot & isNew & m' & lev' & Hrun & _ & _ & _ & _ & _
        & _ & _ & _ & _ & _ & _ & _ & Hrd).
  exists this', slot, isNew, m'. split; [exact Hrun|].
  apply Hrd; assumption.
Qed.

End MoreStoreFacts.

(** ** The stack of frames *)

Section MoreFrameFacts.

Context {Val : Type} `{Countable Val} `{StoreEnv} `{Driver Val}.

Lemma framesHolding_snoc (fs : list (option addr)) (f : option addr)
    (a : addr) :
  framesHolding (fs ++ [f]) a
  = (framesHolding fs a + if decide (f = Some a) then 1 else 0)%nat.
Proof.
  unfold framesHolding. rewrite filter_app, length_app. simpl.
  rewrite filter_cons, filter_nil. destruct decide; reflexivity.
Qed.

Lemma take_S_snoc {A} (l : list A) (i : nat) (x : A) :
  l !! i = Some x -> take (S i) l = take i l ++ [x].
Proof.
  revert i. induction l as [|y l IH]; intros [|i] Hx; simpl in *;
    try discriminate.
  - injection Hx as ->. rewrite take_0. reflexivity.
  - rewrite (IH i Hx). reflexivity.
Qed.

Lemma insert_take_replicate {A} (l : list A) (i n : nat) (x d : A) :
  (i < n)%nat -> length l = n -> l !! i = Some x ->
  <[i := x]> (take i l ++ replicate (n - i) d)
  = take (S i) l ++ replicate (n - S i) d.
Proof.
  intros Hi Hlen Hx.
  rewrite (take_S_snoc l i x Hx).
  replace (n - i)%nat with (S (n - S i)) by lia. simpl.
  rewrite <- app_assoc. simpl.
  rewrite insert_app_r_alt by (rewrite length_take; lia).
  rewrite length_take. replace (i - i `min` length l)%nat with 0%nat by lia.
  reflexivity.
Qed.

(** [getWritableFrameList]: a snapshot with one reference is returned
    as it is.  Otherwise a new snapshot is returned that holds the same
    frames, heap and flag; the old one loses a reference, the root of
    the heap gains one, and each frame gains one per slot that holds
    it. *)
Lemma getWritableFrameList_spec (this : addr) (lm : LocalStoreMap)
    (m : Memory Val) :
  localMaps m !! this = Some lm -> snapshot_held m lm ->
  exists p m',
    getWritableFrameList this m = Some (p, m')
    /\ ((lsm_refCount lm = 1 /\ p = this /\ m' = m)
        \/ (lsm_refCount lm <> 1 /\ localMaps m !! p = None
            /\ localMaps m'
               = <[this := mkLSM (frames lm) (heap lm)
                                 (allOthersClobbered lm)
                                 (lsm_refCount lm - 1)]>
                   (<[p := mkLSM (frames lm) (heap lm)
                                 (allOthersClobbered lm) 1]> (localMaps m))
            /\ treeNodes m' = shareRoot (heap lm) (treeNodes m)
            /\ (forall a,
                  storeMaps m' !! a
                  = (fun sm =>
                       mkSSM (store sm)
                             (ssm_refCount sm
                              + Z.of_nat (framesHolding (frames lm) a)))
                      <$> storeMaps m !! a)
            /\ baseStores m' = baseStores m /\ valSets m' = valSets m
            /\ freedNodes m' = freedNodes m
            /\ freedStoreMaps m' = freedStoreMaps m)).
Proof.
  intros Hthis [Hframes Hroot].
  unfold getWritableFrameList. rewrite bind_unfold.
  rewrite (readLocalMap_Some _ _ _ Hthis).
  destruct (Z.eqb_spec (lsm_refCount lm) 1) as [Hrc|Hrc].
  { exists this, m. split; [reflexivity|]. left. auto. }
  destruct m as [T SM LM BS VH FN FS]. simpl in *.
  set (p := fresh (dom LM)).
  set (n := length (frames lm)).
  assert (Hfresh : LM !! p = None) by (apply not_elem_of_dom, is_fresh).
  assert (Hne : p <> this) by (intros ->; congruence).
  rewrite bind_unfold. unfold new_LocalStoreMap, allocLocalMap.
  unfold set_localMaps.
  cbn [treeNodes storeMaps localMaps baseStores valSets freedNodes
       freedStoreMaps].
  fold p. fold n. rewrite bind_unfold.
  destruct (forM_seq_inv
    (fun k mk => exists SMk,
       mk = mkMem (shareRoot (heap lm) T) SMk
                  (<[p := mkLSM (take k (frames lm)
                                 ++ replicate (n - k) None)
                                (heap lm) false 1]> LM) BS VH FN FS /\
       forall a, SMk !! a
                 = (fun sm =>
                      mkSSM (store sm)
                            (ssm_refCount sm
                             + Z.of_nat (framesHolding (take k (frames lm))
                                                       a)))
                     <$> SM !! a)
    (fun i : nat =>
       o ← readLocalMap this;
       match frames o !! i with
       | None => abort
       | Some f =>
           lm0 ← readLocalMap p;
           writeLocalMap p (mkLSM (<[i := f]> (frames lm0)) (heap lm0)
                                  (allOthersClobbered lm0)
                                  (lsm_refCount lm0));;
           fa ← deref f;
           sm ← readStoreMap fa;
           writeStoreMap fa (mkSSM (store sm) (ssm_refCount sm + 1))
       end) n) with
    (mkMem (shareRoot (heap lm) T) SM
           (<[p := mkLSM (replicate n None) (heap lm) false 1]> LM)
           BS VH FN FS)
    as (m1 & Hloop & (SMn & -> & HSMn)).
  { intros i mk Hi (SMk & -> & HSMk).
    rewrite bind_unfold. unfold readLocalMap at 1. simpl.
    rewrite lookup_insert_ne by exact Hne. rewrite Hthis. simpl.
    destruct (lookup_lt_is_Some_2 (frames lm) i Hi) as [f Hf].
    rewrite Hf.
    pose proof (proj1 (Forall_lookup _ _) Hframes i f Hf)
      as (fa & -> & [sm Hsm]).
    rewrite bind_unfold. unfold readLocalMap at 1. simpl.
    rewrite lookup_insert_eq. simpl.
    rewrite bind_unfold. unfold writeLocalMap at 1. simpl.
    unfold deref. rewrite ret_bind.
    rewrite bind_unfold. unfold readStoreMap at 1. simpl.
    rewrite HSMk, Hsm. simpl.
    unfold writeStoreMap, set_storeMaps, set_localMaps. simpl.
    eexists. split; [reflexivity|].
    eexists. split.
    { rewrite insert_insert_eq.
      rewrite (insert_take_replicate (frames lm) i n (Some fa) None Hi
                 eq_refl Hf).
      reflexivity. }
    intros a. rewrite (take_S_snoc _ _ _ Hf), framesHolding_snoc.
    destruct (decide (a = fa)) as [->|Hafa].
    - rewrite lookup_insert_eq, Hsm. simpl.
      rewrite decide_True by reflexivity. do 2 f_equal. lia.
    - rewrite lookup_insert_ne by auto. rewrite HSMk.
      rewrite decide_False by congruence.
      destruct (SM !! a); simpl; [|reflexivity]. do 2 f_equal. lia. }
  { exists SM. rewrite take_0, Nat.sub_0_r. split; [reflexivity|].
    intros a. unfold framesHolding. simpl.
    destruct (SM !! a) as [[st rc]|]; simpl; [|reflexivity].
    do 2 f_equal. lia. }
  assert (Hcopy : LocalStoreMap_copyFramesFrom p this
            (mkMem T SM (<[p := mkLSM (replicate n None) (mkSTR None 0)
                                      false 1]> LM) BS VH FN FS)
          = Some (tt,
                  mkMem (shareRoot (heap lm) T) SMn
                        (<[p := mkLSM (frames lm) (heap lm) false 1]> LM)
                        BS VH FN FS)).
  { unfold LocalStoreMap_copyFramesFrom.
    rewrite bind_unfold. unfold readLocalMap at 1. simpl.
    rewrite lookup_insert_ne by exact Hne. rewrite Hthis. simpl.
    rewrite bind_unfold. unfold readLocalMap at 1. simpl.
    rewrite lookup_insert_eq. simpl.
    rewrite bind_unfold. unfold writeLocalMap at 1.
    unfold set_localMaps. simpl.
    rewrite insert_insert_eq.
    rewrite bind_unfold.
    assert (Hshare :
      (match root (heap lm) with
       | Some r =>
           n0 ← readNode r;
           writeNode r (mkSTN (children n0) (refCount n0 + 1))
       | None => mret tt
       end)
        (mkMem T SM (<[p := mkLSM (replicate n None) (heap lm) false 1]> LM)
               BS VH FN FS)
      = Some (tt, mkMem (shareRoot (heap lm) T) SM
                        (<[p := mkLSM (replicate n None) (heap lm) false 1]>
                           LM) BS VH FN FS)).
    { unfold shareRoot. destruct (root (heap lm)) as [r|] eqn:Hr;
        [|reflexivity].
      destruct (Hroot r eq_refl) as [nr Hnr].
      rewrite bind_unfold. unfold readNode. simpl. rewrite Hnr. reflexivity. }
    rewrite Hshare. rewrite bind_unfold. unfold readLocalMap at 1. simpl.
    rewrite lookup_insert_eq. simpl. rewrite length_replicate.
    rewrite Hloop. unfold n. rewrite firstn_all, Nat.sub_diag. simpl.
    rewrite app_nil_r. reflexivity. }
  rewrite Hcopy.
  rewrite bind_unfold. unfold readLocalMap at 1. simpl.
  rewrite lookup_insert_ne by exact Hne. rewrite Hthis. simpl.
  rewrite bind_unfold. unfold readLocalMap at 1. simpl.
  rewrite lookup_insert_eq. simpl.
  rewrite bind_unfold. unfold writeLocalMap at 1. simpl.
  rewrite bind_unfold. unfold readLocalMap at 1. simpl.
  rewrite lookup_insert_ne by exact Hne.
  rewrite lookup_insert_ne by exact Hne. rewrite Hthis. simpl.
  exists p. eexists. split; [reflexivity|]. right. simpl.
  split; [exact Hrc|]. split; [exact Hfresh|].
  split; [rewrite insert_insert_eq; reflexivity|].
  split; [reflexivity|]. split; [|auto].
  intros a. rewrite HSMn. unfold n. rewrite firstn_all. reflexivity.
Qed.

(** X16.  Copy-on-write of a snapshot.  [getWritableFrameList] hands
    back a snapshot with one reference as it is, the memory untouched.
    Of a snapshot with more it makes a copy that was not in the arena,
    with one reference and the same frames, heap and flag; the old
    snapshot loses exactly one reference, the root of the heap gains
    one, each frame gains one for every slot that holds it, and the
    cells of every frame are as before. *)
Theorem getWritableFrameList_copy_on_write (this : addr)
    (lm : LocalStoreMap) (m : Memory Val) :
  localMaps m !! this = Some lm -> snapshot_held m lm ->
  (lsm_refCount lm = 1 -> getWritableFrameList this m = Some (this, m))
  /\ (lsm_refCount lm <> 1 ->
      exists p m',
        getWritableFrameList this m = Some (p, m')
        /\ localMaps m !! p = None
        /\ localMaps m' !! p
           = Some (mkLSM (frames lm) (heap lm) (allOthersClobbered lm) 1)
        /\ localMaps m' !! this
           = Some (mkLSM (frames lm) (heap lm) (allOthersClobbered lm)
                         (lsm_refCount lm - 1))
        /\ (forall q, q <> p -> q <> this ->
              localMaps m' !! q = localMaps m !! q)
        /\ treeNodes m' = shareRoot (heap lm) (treeNodes m)
        /\ (forall a,
              storeMaps m' !! a
              = (fun sm =>
                   mkSSM (store sm)
                         (ssm_refCount sm
                          + Z.of_nat (framesHolding (frames lm) a)))
                  <$> storeMaps m !! a)
        /\ baseStores m' = baseStores m /\ valSets m' = valSets m).
Proof.
  intros Hthis Hheld.
  destruct (getWritableFrameList_spec this lm m Hthis Hheld)
    as (p & m' & Hrun & Hcase).
  split.
  - intros Hrc. destruct Hcase as [(_ & -> & ->)|(Hne & _)];
      [exact Hrun|contradiction].
  - intros Hrc.
    destruct Hcase as [(Hone & _)|(_ & Hfresh & HLM & HT & HSM & HBS & HVS & _)];
      [contradiction|].
    exists p, m'. split; [exact Hrun|]. split; [exact Hfresh|].
    assert (Hne : p <> this) by (intros ->; congruence).
    rewrite HLM. split.
    { rewrite lookup_insert_ne by auto. apply lookup_insert_eq. }
    split; [apply lookup_insert_eq|]. split.
    { intros q Hq1 Hq2. rewrite !lookup_insert_ne by auto. reflexivity. }
    auto.
Qed.

Lemma storeMaps_after_share (m m' : Memory Val) (fs : list (option addr)) :
  (forall a,
     storeMaps m' !! a
     = (fun sm =>
          mkSSM (store sm)
                (ssm_refCount sm + Z.of_nat (framesHolding fs a)))
         <$> storeMaps m !! a) ->
  dom (storeMaps m') = dom (storeMaps m)
  /\ forall a sm, storeMaps m !! a = Some sm ->
       exists sm', storeMaps m' !! a = Some sm' /\ store sm' = store sm.
Proof.
  intros HSM. split.
  - apply set_eq. intros a. rewrite !elem_of_dom, HSM.
    destruct (storeMaps m !! a); simpl; split; intros [? ?];
      eauto; discriminate.
  - intros a sm Ha. rewrite HSM, Ha. simpl. eauto.
Qed.

(** Dropping the only reference to an empty frame frees it. *)
Lemma SharedStoreMap_dropReference_last (f : addr) (m : Memory Val) :
  storeMaps m !! f = Some (mkSSM ∅ 1) ->
  SharedStoreMap_dropReference f m
  = Some (tt, mkMem (treeNodes m) (<[f := mkSSM ∅ 0]> (storeMaps m))
                    (localMaps m) (baseStores m) (valSets m) (freedNodes m)
                    ({[f]} ∪ freedStoreMaps m)).
Proof.
  intros Hf. destruct m as [T SM LM BS VH FN FS]. simpl in *.
  unfold SharedStoreMap_dropReference.
  rewrite bind_unfold. unfold readStoreMap at 1. simpl. rewrite Hf. simpl.
  rewrite bind_unfold. unfold writeStoreMap at 1, set_storeMaps at 1. simpl.
  rewrite bind_unfold. unfold SharedStoreMap_clear.
  rewrite bind_unfold. unfold readStoreMap at 1. simpl.
  rewrite lookup_insert_eq. simpl.
  rewrite map_to_list_empty. simpl. rewrite ret_bind.
  rewrite bind_unfold. unfold readStoreMap at 1. simpl.
  rewrite lookup_insert_eq. simpl.
  unfold writeStoreMap, set_storeMaps. simpl.
  rewrite insert_insert_eq. reflexivity.
Qed.

(** X17.  A frame pushed and popped again.  [pushStackFrame] on a
    block puts a new empty frame, which was not in the arena, on top of
    the frames of its snapshot; [popStackFrame] then takes it off and
    frees it.  The block is left with a snapshot of one reference that
    has the frames, heap and flag it had at first, and no cell of any
    frame has changed.  If the snapshot had one reference from the
    start, it is the same snapshot and the snapshots, the tree and the
    frames that existed are exactly as before. *)
Theorem push_then_pop_restores_frames (bb : ShadowBB) (lm : LocalStoreMap)
    (m : Memory Val) :
  localMaps m !! localStore bb = Some lm -> snapshot_held m lm ->
  exists bb1 m1 m2 lm1 f lm2,
    ShadowBB_pushStackFrame bb m = Some (bb1, m1)
    /\ localMaps m1 !! localStore bb1 = Some lm1
    /\ frames lm1 = frames lm ++ [Some f]
    /\ storeMaps m !! f = None
    /\ storeMaps m1 !! f = Some (mkSSM ∅ 1)
    /\ ShadowBB_popStackFrame bb1 m1 = Some (bb1, m2)
    /\ f ∈ freedStoreMaps m2
    /\ localMaps m2 !! localStore bb1 = Some lm2
    /\ frames lm2 = frames lm /\ heap lm2 = heap lm
    /\ allOthersClobbered lm2 = allOthersClobbered lm
    /\ lsm_refCount lm2 = 1
    /\ (forall a sm, storeMaps m !! a = Some sm ->
          exists sm', storeMaps m2 !! a = Some sm' /\ store sm' = store sm)
    /\ baseStores m2 = baseStores m /\ valSets m2 = valSets m
    /\ (lsm_refCount lm = 1 ->
        bb1 = bb /\ localMaps m2 = localMaps m
        /\ treeNodes m2 = treeNodes m
        /\ forall a sm, storeMaps m !! a = Some sm ->
             storeMaps m2 !! a = Some sm).
Proof.
  intros Hthis Hheld.
  destruct (getWritableFrameList_spec _ lm m Hthis Hheld)
    as (p & ma & Hrun & Hcase).
  (* the snapshot that is written *)
  assert (Hp : exists lmp,
            localMaps ma !! p = Some lmp /\ frames lmp = frames lm
            /\ heap lmp = heap lm
            /\ allOthersClobbered lmp = allOthersClobbered lm
            /\ lsm_refCount lmp = 1
            /\ dom (storeMaps ma) = dom (storeMaps m)
            /\ (forall a sm, storeMaps m !! a = Some sm ->
                  exists sm', storeMaps ma !! a = Some sm'
                              /\ store sm' = store sm)
            /\ baseStores ma = baseStores m /\ valSets ma = valSets m
            /\ (lsm_refCount lm = 1 -> p = localStore bb /\ ma = m)).
  { destruct Hcase as [(Hone & -> & ->)
                      |(Hne & Hfresh & HLM & HT & HSM & HBS & HVS & _)].
    - exists lm. repeat split; eauto.
    - destruct (storeMaps_after_share m ma (frames lm) HSM) as [Hdom Hst].
      assert (Hne' : p <> localStore bb) by (intros ->; congruence).
      eexists. split.
      { rewrite HLM. rewrite lookup_insert_ne by auto.
        apply lookup_insert_eq. }
      simpl. do 4 (split; [reflexivity|]). split; [exact Hdom|].
      split; [exact Hst|]. split; [exact HBS|]. split; [exact HVS|].
      intros; contradiction. }
  destruct Hp as (lmp & Hlmp & Hfr & Hhp & Hfl & Hone & Hdom & Hst & HBS
                  & HVS & Hsame).
  destruct ma as [T SM LM BS VH FN FS]. simpl in *.
  set (f := fresh (dom SM)).
  assert (Hf : SM !! f = None) by (apply not_elem_of_dom, is_fresh).
  assert (Hf0 : storeMaps m !! f = None).
  { apply not_elem_of_dom. rewrite <- Hdom. apply is_fresh. }
  set (lm1 := mkLSM (frames lmp ++ [Some f]) (heap lmp)
                    (allOthersClobbered lmp) (lsm_refCount lmp)).
  set (m1 := mkMem T (<[f := mkSSM ∅ 1]> SM) (<[p := lm1]> LM) BS VH FN FS).
  set (m2 := mkMem T (<[f := mkSSM ∅ 0]> SM) (<[p := lmp]> LM) BS VH FN
                   ({[f]} ∪ FS)).
  exists (mkBB p), m1, m2, lm1, f, lmp.
  split.
  { unfold ShadowBB_pushStackFrame. rewrite bind_unfold, Hrun.
    rewrite bind_unfold. unfold LocalStoreMap_pushStackFrame.
    rewrite bind_unfold. unfold new_SharedStoreMap, allocStoreMap.
    cbn [storeMaps]. fold f. rewrite bind_unfold.
    unfold readLocalMap. simpl. rewrite Hlmp. reflexivity. }
  split; [simpl; apply lookup_insert_eq|].
  split; [simpl; rewrite Hfr; reflexivity|].
  split; [exact Hf0|]. split; [simpl; apply lookup_insert_eq|].
  split.
  { unfold m1, m2, lm1. clear m1 m2 lm1.
    unfold ShadowBB_popStackFrame. simpl. rewrite bind_unfold.
    unfold getWritableFrameList. rewrite bind_unfold.
    unfold readLocalMap at 1. simpl. rewrite lookup_insert_eq. simpl.
    rewrite Hone. simpl.
    unfold LocalStoreMap_popStackFrame. rewrite bind_unfold.
    rewrite bind_unfold. unfold readLocalMap at 1. simpl.
    rewrite lookup_insert_eq. simpl. rewrite last_snoc.
    unfold deref. rewrite ret_bind. rewrite bind_unfold.
    rewrite SharedStoreMap_dropReference_last
      by (simpl; apply lookup_insert_eq).
    simpl. rewrite bind_unfold. unfold readLocalMap at 1. simpl.
    rewrite lookup_insert_eq. simpl.
    unfold writeLocalMap, set_localMaps. simpl.
    rewrite removelast_last. rewrite !insert_insert_eq.
    clear -Hone. destruct lmp as [fr hp fl rc]. simpl in *. subst rc.
    reflexivity. }
  split; [simpl; apply elem_of_union_l, elem_of_singleton; reflexivity|].
  split; [simpl; apply lookup_insert_eq|].
  do 4 (split; [assumption|]).
  split.
  { intros a sm Ha. destruct (Hst a sm Ha) as (sm' & Hsm' & Hstore).
    exists sm'. split; [|exact Hstore]. simpl.
    rewrite lookup_insert_ne by (intros <-; congruence). exact Hsm'. }
  split; [exact HBS|]. split; [exact HVS|].
  intros Hrc. destruct (Hsame Hrc) as [-> Hm]. subst m. simpl in *.
  split; [destruct bb; reflexivity|].
  split; [apply insert_id, Hlmp|]. split; [reflexivity|].
  intros a sm Ha. rewrite lookup_insert_ne by (intros <-; congruence).
  exact Ha.
Qed.

(** One round of [commitFrameToBase] on a location that has a base
    store. *)
Lemma commitFrameToBase_round (k : ShadowValue Val) (cell b : addr)
    (mk : Memory Val) :
  baseStores mk !! k = Some b ->
  exists c vh vh',
    (base ← readSlot (BaseSlot k);
     b0 ← deref base;
     call_dropReference b0;;
     c0 ← call_getReadableCopy cell;
     writeSlot (BaseSlot k) c0) mk
    = Some (tt, mkMem (treeNodes mk) (storeMaps mk) (localMaps mk)
                      (<[k := c]> (baseStores mk)) vh' (freedNodes mk)
                      (freedStoreMaps mk))
    /\ c = fst (ivs_getReadableCopy cell vh).
Proof.
  intros Hb. destruct mk as [T SM LM BS VH FN FS]. simpl in *.
  destruct (ivs_getReadableCopy cell (ivs_dropReference b VH))
    as [c vh'] eqn:Hcopy.
  exists c, (ivs_dropReference b VH), vh'. split.
  - rewrite bind_unfold. unfold readSlot. simpl. rewrite Hb.
    unfold deref. rewrite ret_bind. rewrite bind_unfold.
    unfold call_dropReference at 1. simpl.
    rewrite bind_unfold. unfold call_getReadableCopy. simpl.
    rewrite Hcopy. reflexivity.
  - rewrite Hcopy. reflexivity.
Qed.

Lemma commitFrameToBase_stops (l : list (ShadowValue Val * addr)) :
  forall (m mk : Memory Val),
  NoDup l.*1 ->
  (forall k, k ∈ l.*1 -> baseStores mk !! k = baseStores m !! k) ->
  (exists k, k ∈ l.*1 /\ baseStores m !! k = None) ->
  forM_ l (fun kv =>
    base ← readSlot (BaseSlot (fst kv));
    b ← deref base;
    call_dropReference b;;
    c ← call_getReadableCopy (snd kv);
    writeSlot (BaseSlot (fst kv)) c) mk = None.
Proof.
  induction l as [|[k cell] rest IH]; intros m mk Hnd Hsame (k0 & Hin & Hno).
  - simpl in Hin. apply elem_of_nil in Hin. contradiction.
  - simpl in Hnd. apply NoDup_cons in Hnd as [Hk Hnd].
    cbn [forM_ fst snd]. rewrite bind_unfold.
    destruct (baseStores m !! k) as [b|] eqn:Hb.
    + destruct (commitFrameToBase_round k cell b mk) as (c & vh & vh' & -> & _).
      { rewrite Hsame by (simpl; apply list_elem_of_here). exact Hb. }
      apply (IH m); [exact Hnd| |].
      * intros k' Hk'. simpl.
        rewrite lookup_insert_ne by (intros <-; contradiction).
        apply Hsame. simpl. apply list_elem_of_further, Hk'.
      * exists k0. split; [|exact Hno]. simpl in Hin.
        apply elem_of_cons in Hin as [->|Hin]; [congruence|exact Hin].
    + rewrite bind_unfold. unfold readSlot. simpl.
      rewrite Hsame by (simpl; apply list_elem_of_here). rewrite Hb.
      reflexivity.
Qed.

(** X18.  [commitFrameToBase] makes the cells of a frame the base
    stores of their locations.  If every location of the frame has a
    base store, then afterwards the base store of each is a readable
    copy of the frame's cell, the base stores of all other locations are
    as before, and frames, snapshots and the tree are untouched.  If
    some location of the frame has no base store, the call stops on the
    null pointer. *)
Theorem commitFrameToBase_commits (Map : addr) (sm : SharedStoreMap Val)
    (m : Memory Val) :
  storeMaps m !! Map = Some sm ->
  ((exists k, is_Some (store sm !! k) /\ baseStores m !! k = None) ->
   commitFrameToBase Map m = None)
  /\ ((forall k, is_Some (store sm !! k) -> is_Some (baseStores m !! k)) ->
      exists m',
        commitFrameToBase Map m = Some (tt, m')
        /\ (forall k cell, store sm !! k = Some cell ->
              exists vh,
                baseStores m' !! k
                = Some (fst (ivs_getReadableCopy cell vh)))
        /\ (forall k, store sm !! k = None ->
              baseStores m' !! k = baseStores m !! k)
        /\ treeNodes m' = treeNodes m /\ storeMaps m' = storeMaps m
        /\ localMaps m' = localMaps m).
Proof.
  intros HMap. unfold commitFrameToBase.
  rewrite bind_unfold, (readStoreMap_Some _ _ _ HMap). split.
  - intros (k & Hk & Hno).
    apply (commitFrameToBase_stops _ m m).
    + apply NoDup_fst_map_to_list.
    + reflexivity.
    + exists k. split; [apply elem_of_fst_map_to_list, Hk|exact Hno].
  - intros Hall.
    match goal with
    | |- context [forM_ ?l ?F m] =>
        destruct (forM_prefix_inv
          (fun pre mk =>
             (forall k cell, (k, cell) ∈ pre ->
                exists vh,
                  baseStores mk !! k
                  = Some (fst (ivs_getReadableCopy cell vh)))
             /\ (forall k, k ∉ pre.*1 ->
                   baseStores mk !! k = baseStores m !! k)
             /\ treeNodes mk = treeNodes m /\ storeMaps mk = storeMaps m
             /\ localMaps mk = localMaps m) F l)
          with m as (m2 & Hrun & Hcells & Hrest & HT & HSM & HLM)
    end.
    + intros pre [k cell] post mk Hl (Hcells & Hrest & HT & HSM & HLM).
      pose proof (NoDup_fst_map_to_list (store sm)) as Hnd.
      rewrite Hl, fmap_app in Hnd. simpl in Hnd.
      apply NoDup_app in Hnd as (_ & Hnot & _).
      assert (Hkpre : k ∉ pre.*1).
      { intros Hin. apply (Hnot k Hin). apply list_elem_of_here. }
      assert (Hk : is_Some (store sm !! k)).
      { apply elem_of_fst_map_to_list. rewrite Hl, fmap_app, elem_of_app.
        right. apply list_elem_of_here. }
      destruct (Hall k Hk) as [b Hb].
      destruct (commitFrameToBase_round k cell b mk)
        as (c & vh & vh' & Hround & Hc).
      { rewrite Hrest by exact Hkpre. exact Hb. }
      cbn [fst snd]. eexists. split; [exact Hround|]. simpl.
      split; [|split; [|auto]].
      * intros k' cell' Hin. apply elem_of_app in Hin as [Hin|Hin].
        -- rewrite lookup_insert_ne.
           ++ apply Hcells, Hin.
           ++ intros <-. apply Hkpre. apply list_elem_of_fmap.
              exists (k, cell'). auto.
        -- apply list_elem_of_singleton in Hin. injection Hin as -> ->.
           rewrite lookup_insert_eq. exists vh. rewrite Hc. reflexivity.
      * intros k' Hk'. rewrite fmap_app, not_elem_of_app in Hk'.
        destruct Hk' as [Hk1 Hk2]. simpl in Hk2.
        rewrite lookup_insert_ne.
        -- apply Hrest, Hk1.
        -- intros <-. apply Hk2, list_elem_of_here.
    + split; [intros k cell Hin; apply elem_of_nil in Hin; contradiction|].
      auto.
    + exists m2. split; [exact Hrun|]. split.
      * intros k cell Hk. apply Hcells, elem_of_map_to_list, Hk.
      * split; [|auto]. intros k Hk. apply Hrest.
        rewrite elem_of_fst_map_to_list, Hk. intros [? ?]. discriminate.
Qed.

(** X20.  [getWritableFrame] checks the frame number and makes that
    frame writable.  A number that is negative or not below the number
    of frames stops the call.  Otherwise the call returns a frame that
    is the old one or was not in the arena, with cells for the same
    locations; the snapshot holds it in place of the old one and its
    other slots are unchanged; and every frame that existed keeps its
    cells. *)
Theorem getWritableFrame_checks_and_copies (this : addr)
    (lm : LocalStoreMap) (frameNo : Z) (m : Memory Val) :
  localMaps m !! this = Some lm ->
  Forall (fun f => exists a, f = Some a /\ is_Some (storeMaps m !! a))
         (frames lm) ->
  Z.of_nat (length (frames lm)) < 2 ^ 31 ->
  (~ 0 <= frameNo < Z.of_nat (length (frames lm)) ->
   getWritableFrame this frameNo m = None)
  /\ (0 <= frameNo < Z.of_nat (length (frames lm)) ->
      exists f sm f' sm' m',
        frames lm !! Z.to_nat frameNo = Some (Some f)
        /\ storeMaps m !! f = Some sm
        /\ getWritableFrame this frameNo m = Some (f', m')
        /\ storeMaps m' !! f' = Some sm'
        /\ (forall k, is_Some (store sm' !! k) <-> is_Some (store sm !! k))
        /\ (f' = f \/ storeMaps m !! f' = None)
        /\ localMaps m'
           = <[this := mkLSM (<[Z.to_nat frameNo := Some f']> (frames lm))
                             (heap lm) (allOthersClobbered lm)
                             (lsm_refCount lm)]> (localMaps m)
        /\ (forall b smb, storeMaps m !! b = Some smb ->
              exists smb', storeMaps m' !! b = Some smb'
                           /\ store smb' = store smb)
        /\ baseStores m' = baseStores m).
Proof.
  intros Hthis Hframes Hlen.
  assert (Hs32 : s32 (Z.of_nat (length (frames lm)))
                 = Z.of_nat (length (frames lm))).
  { unfold s32. rewrite Z.mod_small by lia. lia. }
  unfold getWritableFrame.
  rewrite bind_unfold, (readLocalMap_Some _ _ _ Hthis), Hs32.
  split.
  - intros Hout.
    destruct (Z.leb_spec 0 frameNo); [|reflexivity].
    destruct (Z.ltb_spec frameNo (Z.of_nat (length (frames lm))));
      [lia|reflexivity].
  - intros Hin.
    destruct (Z.leb_spec 0 frameNo); [|lia].
    destruct (Z.ltb_spec frameNo (Z.of_nat (length (frames lm)))); [|lia].
    simpl.
    destruct (lookup_lt_is_Some_2 (frames lm) (Z.to_nat frameNo))
      as [fo Hfo]; [lia|].
    pose proof (proj1 (Forall_lookup _ _) Hframes _ _ Hfo)
      as (f & -> & [sm Hsm]).
    destruct (getWritableStoreMap_spec f sm m Hsm)
      as (f' & m1 & sm' & Hrun & Hsm' & Hkeys & Hkeep & Hnew & HLM & HBS).
    exists f, sm, f', sm'. eexists.
    split; [exact Hfo|]. split; [exact Hsm|]. split.
    { unfold frameAt. rewrite Hfo. rewrite ret_bind.
      rewrite bind_unfold, Hrun.
      rewrite bind_unfold. unfold readLocalMap at 1.
      rewrite HLM, Hthis. reflexivity. }
    simpl. split; [exact Hsm'|]. split; [exact Hkeys|].
    split; [exact Hnew|]. split; [rewrite HLM; reflexivity|].
    split; [exact Hkeep|exact HBS].
Qed.

End MoreFrameFacts.

(** ** Reads through the tree *)

Section MoreReadFacts.

Context {Val : Type} `{Countable Val} `{StoreEnv} `{Driver Val}.

(** With a fan-out of [2 ^ HEAPTREEORDERLOG2] the digit at a level is
    settled by the index modulo the capacity of the levels up to it. *)
Lemma nextChild_mod (idx : Z) (k h : nat) :
  Z.of_nat HEAPTREEORDER = 2 ^ Z.of_nat HEAPTREEORDERLOG2 ->
  0 <= idx -> (k < h)%nat ->
  nextChild idx k
  = nextChild (idx mod 2 ^ (Z.of_nat HEAPTREEORDERLOG2 * Z.of_nat h)) k.
Proof.
  intros HO Hidx Hk. unfold nextChild. f_equal. rewrite HO.
  set (B := Z.of_nat HEAPTREEORDERLOG2).
  assert (HB : 0 <= B) by (unfold B; lia).
  replace (2 ^ B - 1) with (Z.ones B)
    by (rewrite Z.ones_equiv; lia).
  rewrite !Z.land_ones by lia.
  rewrite !Z.shiftr_div_pow2 by lia.
  replace (Z.of_nat (k * HEAPTREEORDERLOG2)) with (B * Z.of_nat k)
    by (unfold B; lia).
  replace (B * Z.of_nat h)
    with (B * Z.of_nat k + (B + B * (Z.of_nat h - Z.of_nat k - 1)))
    by lia.
  set (lo := B * Z.of_nat k).
  set (hi := B * (Z.of_nat h - Z.of_nat k - 1)).
  assert (Hlo : 0 <= lo) by (unfold lo; nia).
  assert (Hhi : 0 <= hi) by (unfold hi; nia).
  rewrite !Z.pow_add_r by lia.
  assert (Hp1 : 0 < 2 ^ lo) by (apply Z.pow_pos_nonneg; lia).
  assert (Hp2 : 0 < 2 ^ B) by (apply Z.pow_pos_nonneg; lia).
  assert (Hp3 : 0 < 2 ^ hi) by (apply Z.pow_pos_nonneg; lia).
  rewrite Z.rem_mul_r by lia.
  rewrite Z.mul_comm, Z.div_add by lia.
  rewrite (Z.div_small (idx mod 2 ^ lo)) by (apply Z.mod_pos_bound; lia).
  rewrite Z.add_0_l.
  rewrite Z.rem_mul_r by lia.
  rewrite Z.mul_comm, Z.mod_add by lia.
  rewrite Z.mod_mod by lia. reflexivity.
Qed.

Lemma getReadableStoreFor_same_digits (h : nat) :
  forall (a : addr) (idx idx' : Z) (m : Memory Val),
  (forall k, (k <= h)%nat -> nextChild idx k = nextChild idx' k) ->
  SharedTreeNode_getReadableStoreFor h a idx m
  = SharedTreeNode_getReadableStoreFor h a idx' m.
Proof.
  induction h as [|h IH]; intros a idx idx' m Hdig.
  - simpl. rewrite (Hdig 0%nat) by lia. reflexivity.
  - cbn [SharedTreeNode_getReadableStoreFor].
    rewrite (Hdig (S h)) by lia. rewrite !bind_unfold.
    destruct (readNode a m) as [[n m1]|]; [|reflexivity].
    destruct (children n !! nextChild idx' (S h)); [|reflexivity].
    apply IH. intros k Hk. apply Hdig. lia.
Qed.

(** X19.  A read does not check that the index fits the tree.  With a
    fan-out of [2 ^ HEAPTREEORDERLOG2], [getReadableStoreFor] gives the
    same answer for two locations whose heap keys agree modulo the
    capacity [2 ^ (HEAPTREEORDERLOG2 * height)] of the tree: the digits
    above the height are never looked at. *)
Theorem getReadableStoreFor_modulo_capacity (this : SharedTreeRoot)
    (v v' : ShadowValue Val) (m : Memory Val) :
  Z.of_nat HEAPTREEORDER = 2 ^ Z.of_nat HEAPTREEORDERLOG2 ->
  0 <= getHeapKey v -> 0 <= getHeapKey v' ->
  getHeapKey v mod 2 ^ (Z.of_nat HEAPTREEORDERLOG2 * Z.of_nat (height this))
  = getHeapKey v'
      mod 2 ^ (Z.of_nat HEAPTREEORDERLOG2 * Z.of_nat (height this)) ->
  SharedTreeRoot_getReadableStoreFor this v m
  = SharedTreeRoot_getReadableStoreFor this v' m.
Proof.
  intros HO Hv Hv' Hmod. unfold SharedTreeRoot_getReadableStoreFor.
  destruct (Nat.eqb_spec (height this) 0) as [|Hh]; [reflexivity|].
  destruct (Z.ltb_spec (getHeapKey v) 0) as [|_]; [lia|].
  destruct (Z.ltb_spec (getHeapKey v') 0) as [|_]; [lia|].
  destruct (root this) as [r|]; [|reflexivity].
  apply getReadableStoreFor_same_digits. intros k Hk.
  rewrite (nextChild_mod (getHeapKey v) k (height this)) by (auto; lia).
  rewrite (nextChild_mod (getHeapKey v') k (height this)) by (auto; lia).
  rewrite Hmod. reflexivity.
Qed.

End MoreReadFacts.

(** ** The further properties on particular inputs *)

Section MoreConstExamples.

#[local] Existing Instance ex_DataLayout.
#[local] Existing Instance ex_ConstEnvC.

(** The second of the four pointers of the array. *)
Lemma getSubConst_array_element_witness :
  getSubConst 1 ex_array 8 8 None
  = (c ← dyn_cast_Constant (V (snd (getValPB (ex_ptr 11))));
     Some (Some c))
  /\ standsForItself (ex_ptr 11)
  /\ getSubConst 1 ex_array 8 8 None = Some (Some (ex_ptr 11)).
Proof.
  assert (Hself : standsForItself (ex_ptr 11)) by reflexivity.
  destruct (getSubConst_array_element 0 4 PointerTy
              [ex_ptr 10; ex_ptr 11; ex_ptr 12; ex_ptr 13] 1
              (ex_ptr 11) None) as [Hgen Hown];
    try (simpl; lia); try reflexivity.
  split; [exact Hgen|]. split; [exact Hself|exact (Hown Hself)].
Defined.

(** Eight bytes from the start of a 32-bit integer. *)
Lemma read_past_the_end_gives_nothing_witness :
  getSubConst 2 ex_i32 0 8 None = Some None
  /\ exists r,
       getConstSubVal 2 ex_i32 0 8 None getOverdef = Some r
       /\ Overdef r = true.
Proof.
  eapply (read_past_the_end_gives_nothing 1 ex_i32 0 8 None).
  - vm_compute. reflexivity.
  - reflexivity.
  - reflexivity.
Defined.

(** The second and third byte of a 32-bit integer. *)
Lemma getSubConst_plain_constant_witness :
  ReadDataFromGlobal ex_i32 1 (replicate 2 0) = Some [2; 3]
  /\ getSubConst 1 ex_i32 1 2 (Some PointerTy)
     = (c ← dyn_cast_Constant
              (V (snd (getValPB (ConstantOther (IntegerTy 16) [2; 3]))));
        Some (Some c))
  /\ getSubConst 1 ex_i32 1 2 (Some PointerTy)
     = Some (Some (ConstantOther (IntegerTy 16) [2; 3])).
Proof.
  destruct (getSubConst_plain_constant 0 ex_i32 1 2 (Some PointerTy))
    as [Hgen Hself].
  - discriminate.
  - discriminate.
  - reflexivity.
  - vm_compute. discriminate.
  - split; [reflexivity|]. split; [exact Hgen|].
    exact (Hself [2; 3] eq_refl eq_refl).
Defined.

End MoreConstExamples.

Section MoreExampleFacts.

#[local] Existing Instance ex_Driver.
#[local] Existing Instance ex_ConstEnv.
#[local] Existing Instance ex_SplatEnv.
#[local] Existing Instance ex_StoreEnv.
#[local] Existing Instance ex_StoreCalls.

Lemma ex_mem_tree_lookup (a : addr) (n : SharedTreeNode) :
  treeNodes ex_mem_tree !! a = Some n -> a = 0%nat /\ n = ex_shared_leaf.
Proof.
  unfold ex_mem_tree. simpl. intros Ha.
  destruct (decide (a = 0%nat)) as [->|Hne].
  - rewrite lookup_insert_eq in Ha. injection Ha as <-. auto.
  - rewrite lookup_insert_ne, lookup_empty in Ha by auto. discriminate.
Qed.

Lemma ex_mem_tree_stratified : stratified ex_mem_tree ex_lev.
Proof. intros a n L i c _ Hl. discriminate. Qed.

Lemma ex_mem_tree_counted : counted ex_mem_tree.
Proof.
  intros a n Ha. apply ex_mem_tree_lookup in Ha as [_ ->]. simpl. lia.
Qed.

Lemma ex_mem_tree_rooted : rooted ex_mem_tree ex_lev ex_heap.
Proof.
  split; [simpl; lia|]. split; [reflexivity|]. eexists. reflexivity.
Qed.

Lemma ex_frames_held (m : Memory nat) (sm : SharedStoreMap nat) :
  storeMaps m !! 0%nat = Some sm ->
  Forall (fun f => exists a, f = Some a /\ is_Some (storeMaps m !! a))
         [Some 0%nat].
Proof.
  intros Hsm. repeat constructor. exists 0%nat. split; [reflexivity|].
  exists sm. exact Hsm.
Qed.

(** A global and an alloca. *)
Lemma basesAlias_reflexive_and_symmetric_witness :
  basesAlias (SHADOWVAL_GV 1%nat) (SHADOWVAL_GV 1%nat) = Some true
  /\ basesAlias (SHADOWVAL_GV 1%nat) (SHADOWVAL_INST 7%nat)
     = basesAlias (SHADOWVAL_INST 7%nat) (SHADOWVAL_GV 1%nat).
Proof. apply basesAlias_reflexive_and_symmetric; discriminate. Defined.

(** The global 1 at offset 0 and at offset 4, four bytes each. *)
Lemma tryResolve_symmetric_witness :
  tryResolveImprovedValSetSingles ex_pb_0 4 ex_pb_4 4
  = tryResolveImprovedValSetSingles ex_pb_4 4 ex_pb_0 4.
Proof.
  apply tryResolve_symmetric; intros IV [<-|[]]; discriminate.
Defined.

Lemma tryResolve_disjoint_NoAlias_witness :
  tryResolveImprovedValSetSingles ex_pb_0 4 ex_pb_4 4 = Some SVNoAlias.
Proof.
  apply tryResolve_disjoint_NoAlias.
  - intros IV [<-|[]]. discriminate.
  - lia.
  - lia.
  - intros IV1 IV2 [<-|[]] [<-|[]] _.
    split; [discriminate|]. split; [discriminate|].
    right. split; [discriminate|]. split; [|simpl; lia].
    unfold is_int64. simpl. lia.
Defined.

(** The set that holds the global 1 at offset 0. *)
Lemma shouldMultiload_iff_witness :
  shouldMultiload ex_pb_0 = true
  <-> Overdef ex_pb_0 = false /\ SetType ex_pb_0 = ValSetTypePB
      /\ nonNulls (Values ex_pb_0) <> []
      /\ forall iv, In iv (Values ex_pb_0) -> val_is_null (V iv) = false ->
           Offset iv <> LLONG_MAX.
Proof. apply shouldMultiload_iff. simpl. lia. Defined.

(** The constant and the splat assembled: the four bytes are defined,
    and the byte 1, which both pieces cover, is the constant's. *)
Lemma addPieces_assembles_witness :
  Forall (fits 4) [ex_piece_const; ex_piece_splat]
  /\ exists pv,
       addPieces [ex_piece_const; ex_piece_splat] (PartialVal_new 4)
                 EmptyString = Some (Some pv)
       /\ validAt pv 3 = Some true
       /\ byteAt pv 1 = Some 1
       /\ byteAt pv 2 = Some 7.
Proof.
  assert (Hfits : Forall (fits 4) [ex_piece_const; ex_piece_splat]).
  { repeat constructor; simpl; try lia; eexists; reflexivity. }
  split; [exact Hfits|].
  destruct (addPieces_assembles [ex_piece_const; ex_piece_splat] 4
              EmptyString ltac:(lia) ltac:(lia) Hfits)
    as (pv & Hrun & Hbytes & _).
  exists pv. split; [exact Hrun|].
  split; [exact (proj1 (Hbytes 3%nat ltac:(lia)))|].
  split; [exact (proj2 (Hbytes 1%nat ltac:(lia)))
         |exact (proj2 (Hbytes 2%nat ltac:(lia)))].
Defined.

(** The index 5 in a tree of fan-out 2. *)
Lemma getRequiredHeight_least_witness :
  exists h : nat,
    getRequiredHeight 5 = Some h
    /\ (1 <= h <= 32)%nat
    /\ 5 < 2 ^ (Z.of_nat HEAPTREEORDERLOG2 * Z.of_nat h)
    /\ forall h' : nat, (1 <= h')%nat ->
         5 < 2 ^ (Z.of_nat HEAPTREEORDERLOG2 * Z.of_nat h') ->
         (h <= h')%nat.
Proof. apply getRequiredHeight_least; simpl; lia. Defined.

(** The index 5 and the heap of height 1. *)
Lemma mustGrowFor_iff_too_low_witness :
  exists h : nat,
    getRequiredHeight 5 = Some h
    /\ mustGrowFor ex_heap 5 = Some (bool_decide (height ex_heap < h)%nat).
Proof.
  apply mustGrowFor_iff_too_low; simpl; lia.
Defined.


(** The global 1 in the heap of the shared leaf. *)
Lemma getOrCreateStoreFor_then_read_witness :
  exists this' slot isNew m',
    SharedTreeRoot_getOrCreateStoreFor ex_heap (SHADOWVAL_GV 1%nat)
                                       ex_mem_tree
      = Some ((this', slot, isNew), m')
    /\ SharedTreeRoot_getReadableStoreFor this' (SHADOWVAL_GV 1%nat) m'
       = Some (if isNew then None else Some slot, m').
Proof.
  destruct (getOrCreateStoreFor_then_read ex_heap (SHADOWVAL_GV 1%nat)
              ex_mem_tree ex_lev)
    as (this' & slot & isNew & m' & Hrun & Hread & _).
  - simpl. lia.
  - reflexivity.
  - simpl. lia.
  - simpl. lia.
  - exact ex_mem_tree_stratified.
  - exact ex_mem_tree_counted.
  - exact ex_mem_tree_rooted.
  - exists this', slot, isNew, m'. split; [exact Hrun|exact Hread].
Defined.

(** The leaf is shared: it keeps its children. *)
Lemma getOrCreateStoreFor_spares_shared_nodes_witness :
  exists this' slot isNew m',
    SharedTreeRoot_getOrCreateStoreFor ex_heap (SHADOWVAL_GV 1%nat)
                                       ex_mem_tree
      = Some ((this', slot, isNew), m')
    /\ exists na', treeNodes m' !! 0%nat = Some na'
                   /\ children na' = children ex_shared_leaf.
Proof.
  destruct (getOrCreateStoreFor_spares_shared_nodes ex_heap
              (SHADOWVAL_GV 1%nat) ex_mem_tree ex_lev)
    as (this' & slot & isNew & m' & Hrun & Hkeep & _).
  - simpl. lia.
  - reflexivity.
  - simpl. lia.
  - simpl. lia.
  - exact ex_mem_tree_stratified.
  - exact ex_mem_tree_counted.
  - exact ex_mem_tree_rooted.
  - exists this', slot, isNew, m'. split; [exact Hrun|].
    apply (Hkeep 0%nat ex_shared_leaf); [reflexivity|].
    simpl. lia.
Defined.

(** The global 0 has a store in the shared leaf, and keeps one when a
    store is got for the global 1. *)
Lemma getOrCreateStoreFor_keeps_stores_witness :
  (exists s, fst <$> SharedTreeRoot_getReadableStoreFor ex_heap
                       (SHADOWVAL_GV 0%nat) ex_mem_tree = Some (Some s))
  /\ exists this' slot isNew m',
       SharedTreeRoot_getOrCreateStoreFor ex_heap (SHADOWVAL_GV 1%nat)
                                          ex_mem_tree
         = Some ((this', slot, isNew), m')
       /\ exists s', fst <$> SharedTreeRoot_getReadableStoreFor this'
                               (SHADOWVAL_GV 0%nat) m' = Some (Some s').
Proof.
  assert (Hs : exists s,
             fst <$> SharedTreeRoot_getReadableStoreFor ex_heap
                       (SHADOWVAL_GV 0%nat) ex_mem_tree = Some (Some s))
    by (eexists; reflexivity).
  split; [exact Hs|].
  apply (getOrCreateStoreFor_keeps_stores ex_heap (SHADOWVAL_GV 1%nat)
           (SHADOWVAL_GV 0%nat) ex_mem_tree ex_lev).
  - simpl. lia.
  - reflexivity.
  - simpl. lia.
  - simpl. lia.
  - exact ex_mem_tree_stratified.
  - exact ex_mem_tree_counted.
  - exact ex_mem_tree_rooted.
  - simpl. lia.
  - exact Hs.
Defined.

(** The snapshot held twice is copied. *)
Lemma getWritableFrameList_copy_on_write_witness :
  exists p m',
    getWritableFrameList 0%nat ex_mem_twice = Some (p, m')
    /\ localMaps ex_mem_twice !! p = None
    /\ localMaps m' !! p = Some (mkLSM [Some 0%nat] (mkSTR None 0) false 1)
    /\ localMaps m' !! 0%nat
       = Some (mkLSM [Some 0%nat] (mkSTR None 0) false 1).
Proof.
  assert (Hlm : localMaps ex_mem_twice !! 0%nat = Some ex_snapshot_twice)
    by reflexivity.
  assert (Hheld : snapshot_held ex_mem_twice ex_snapshot_twice).
  { split; [|discriminate].
    apply (ex_frames_held ex_mem_twice
             (mkSSM (<[SHADOWVAL_INST 7%nat := 5%nat]> ∅) 1)).
    reflexivity. }
  destruct (proj2 (getWritableFrameList_copy_on_write 0%nat
                     ex_snapshot_twice ex_mem_twice Hlm Hheld))
    as (p & m' & Hrun & Hfresh & Hp & Hold & _).
  - simpl. lia.
  - exists p, m'. repeat split; assumption.
Defined.

(** A frame pushed on the snapshot with one frame, and popped. *)
Lemma push_then_pop_restores_frames_witness :
  exists bb1 m1 m2,
    ShadowBB_pushStackFrame (mkBB 0%nat) ex_mem_frame = Some (bb1, m1)
    /\ ShadowBB_popStackFrame bb1 m1 = Some (bb1, m2)
    /\ bb1 = mkBB 0%nat
    /\ localMaps m2 = localMaps ex_mem_frame.
Proof.
  assert (Hlm : localMaps ex_mem_frame !! localStore (mkBB 0%nat)
                = Some ex_snapshot) by reflexivity.
  assert (Hheld : snapshot_held ex_mem_frame ex_snapshot).
  { split; [|discriminate].
    apply (ex_frames_held ex_mem_frame
             (mkSSM (<[SHADOWVAL_INST 7%nat := 5%nat]> ∅) 1)).
    reflexivity. }
  destruct (push_then_pop_restores_frames (mkBB 0%nat) ex_snapshot
              ex_mem_frame Hlm Hheld)
    as (bb1 & m1 & m2 & lm1 & f & lm2 & Hpush & _ & _ & _ & _ & Hpop
        & _ & _ & _ & _ & _ & _ & _ & _ & _ & Hone).
  destruct (Hone eq_refl) as (Hbb & Hsame & _).
  exists bb1, m1, m2. repeat split; assumption.
Defined.

(** The frame of the alloca 7, which has no base store, and the
    frame of the alloca 8, whose cell becomes its base store. *)
Lemma commitFrameToBase_commits_witness :
  commitFrameToBase 0%nat ex_mem_seed = None
  /\ exists m',
       commitFrameToBase 0%nat ex_mem_commit = Some (tt, m')
       /\ baseStores m' !! SHADOWVAL_INST 8%nat = Some 11%nat
       /\ baseStores m' !! SHADOWVAL_INST 7%nat = None
       /\ storeMaps m' = storeMaps ex_mem_commit.
Proof.
  split.
  - assert (Hsm : storeMaps ex_mem_seed !! 0%nat
                  = Some (mkSSM ex_store_7 1)) by reflexivity.
    apply (proj1 (commitFrameToBase_commits 0%nat (mkSSM ex_store_7 1)
                    ex_mem_seed Hsm)).
    exists (SHADOWVAL_INST 7%nat).
    split; [exists 12%nat; reflexivity|reflexivity].
  - assert (Hsm : storeMaps ex_mem_commit !! 0%nat
                  = Some (mkSSM (<[SHADOWVAL_INST 8%nat := 11%nat]> ∅) 1))
      by reflexivity.
    destruct (proj2 (commitFrameToBase_commits 0%nat _ ex_mem_commit Hsm))
      as (m' & Hrun & Hcells & Hrest & _ & Hmaps & _).
    + intros k [cell Hk]. simpl in Hk.
      destruct (decide (k = SHADOWVAL_INST 8%nat)) as [->|Hne].
      * exists 20%nat. reflexivity.
      * rewrite lookup_insert_ne, lookup_empty in Hk by auto. discriminate.
    + exists m'. split; [exact Hrun|].
      split; [|split; [|exact Hmaps]].
      * destruct (Hcells (SHADOWVAL_INST 8%nat) 11%nat eq_refl) as [vh Hb].
        exact Hb.
      * rewrite (Hrest (SHADOWVAL_INST 7%nat) eq_refl). reflexivity.
Defined.

(** The globals 1 and 3 in a tree of height 1 and fan-out 2. *)
Lemma getReadableStoreFor_modulo_capacity_witness :
  SharedTreeRoot_getReadableStoreFor ex_heap (SHADOWVAL_GV 1%nat)
                                     ex_mem_tree
  = SharedTreeRoot_getReadableStoreFor ex_heap (SHADOWVAL_GV 3%nat)
                                       ex_mem_tree.
Proof.
  apply getReadableStoreFor_modulo_capacity; simpl; try lia; reflexivity.
Defined.

(** The frames 0 and 1 of the snapshot with one frame. *)
Lemma getWritableFrame_checks_and_copies_witness :
  getWritableFrame 0%nat 1 ex_mem_frame = None
  /\ exists f' m', getWritableFrame 0%nat 0 ex_mem_frame = Some (f', m').
Proof.
  assert (Hlm : localMaps ex_mem_frame !! 0%nat = Some ex_snapshot)
    by reflexivity.
  assert (Hf : Forall (fun f => exists a, f = Some a
                         /\ is_Some (storeMaps ex_mem_frame !! a))
                      (frames ex_snapshot)).
  { apply (ex_frames_held ex_mem_frame
             (mkSSM (<[SHADOWVAL_INST 7%nat := 5%nat]> ∅) 1)).
    reflexivity. }
  assert (Hlen : Z.of_nat (length (frames ex_snapshot)) < 2 ^ 31)
    by (simpl; lia).
  split.
  - apply (proj1 (getWritableFrame_checks_and_copies 0%nat ex_snapshot 1
                    ex_mem_frame Hlm Hf Hlen)).
    simpl. lia.
  - destruct (proj2 (getWritableFrame_checks_and_copies 0%nat ex_snapshot 0
                       ex_mem_frame Hlm Hf Hlen))
      as (f & sm & f' & sm' & m' & _ & _ & Hrun & _).
    + simpl. lia.
    + exists f', m'. exact Hrun.
Defined.

End MoreExampleFacts.
